(** * openclaw-mem0-v2: identity resolution and the sleep-mode pipeline

    A shallow embedding of the user resolver, of the sleep-mode module
    and of the [mem0-sleep] command of the plugin, with the properties
    the specification states about them.

    Sources (paths of the repository tree, with the lines of the
    functions):
    - user resolver, [src/unnamed/part_000]: [resolveUserId] 58-86,
      [isGroupChat] 97-108, [buildAliasLookup] 155-167,
      [resolveCanonicalUserId] 179-185, [addAliasToIdentityMap] 199-227,
      [simpleHash] 236-244; the types of the identity map are in
      [src/types.ts];
    - sleep mode, [src/scripts/migrate-v1-to-v2.ts]: [LogEntry] 325,
      [SleepAnalysis] 344, [appendToLog] 399-407, [cleanMessages]
      422-489, [buildLogEntry] 503-519, [getProcessedDates] 534-549,
      [markProcessed] 558-561, [findUnprocessedLogs] 574-592,
      [readDailyLog] 603-620, [chunkForAnalysis] 635-673,
      [parseSleepAnalysis] 764-785, [searchLogs] 807-856, [saveDigest]
      871-935;
    - the plugin, [src/.github/ISSUE_TEMPLATE/feature_request.md]: the
      command 1553-1683, with the provider interface at 114-170; the
      result normalizers 363-408, [resolveEnvVars] 414-422,
      [resolveUser] 739-747;
    - the test suite, [src/sleep-mode.test.ts].

    Conventions.  A JavaScript string is a [string]: one [ascii] stands
    for one UTF-16 code unit, so the model covers the strings whose code
    units are below 256; [String.length] is [.length], and the order of
    [String.compare] is the order of the operators [<] and [>] on
    strings.  A JavaScript number that holds a length, an index or a
    limit is a [Z]; the numbers inside a value handed over by the host
    are of a type that is a parameter.  A function that may throw
    returns a sum [Exn + A]; code that also changes the file system or
    the memory store is a computation [M S A] on the state [S].  The file
    system is a finite map from normalized paths to regular files and
    directories; a write fails where the directory of the path is
    missing, and the recursive [mkdirSync] makes the directories on the
    way.  What the environment provides ([JSON.parse], [localeCompare],
    the memory store, the clock, the configuration, the properties
    [process.env] inherits) is a parameter of the definitions that use
    it, with an executable instance for the examples.

    The first part of the file has the definitions, the second the
    proofs. *)

From Stdlib Require Import ZArith Lia Bool Ascii String List Sorted DecimalString.
From stdpp Require Import base option list gmap strings.

Set Warnings "-register-all".

Local Open Scope Z_scope.
Local Open Scope stdpp_scope.

(** ** JavaScript string primitives *)

Module JS.

(** [s.length] *)
Definition len (s : string) : Z := Z.of_nat (String.length s).

(** A string used as a condition: the empty string is falsy. *)
Definition truthy (s : string) : bool :=
  match s with EmptyString => false | String _ _ => true end.

(** [s.split(c)] for a one-character separator [c]. *)
Fixpoint split (c : ascii) (s : string) : list string :=
  match s with
  | EmptyString => [EmptyString]
  | String a s' =>
      if Ascii.eqb a c then EmptyString :: split c s'
      else match split c s' with
           | [] => [String a EmptyString]
           | h :: t => String a h :: t
           end
  end.

(** [parts.join(sep)] *)
Fixpoint join (sep : string) (parts : list string) : string :=
  match parts with
  | [] => EmptyString
  | [p] => p
  | p :: rest => p +:+ sep +:+ join sep rest
  end.

(** [s.startsWith(p)] *)
Fixpoint startsWith (p s : string) : bool :=
  match p, s with
  | EmptyString, _ => true
  | String a p', String b s' => Ascii.eqb a b && startsWith p' s'
  | String _ _, EmptyString => false
  end.

(** [s.slice(n)] for [n] within [0 .. s.length]: drop the first [n] units. *)
Fixpoint drop (n : nat) (s : string) : string :=
  match n, s with
  | O, _ => s
  | S n', String _ s' => drop n' s'
  | S _, EmptyString => EmptyString
  end.

(** [s.slice(0, n)]: the first [n] units. *)
Fixpoint take (n : nat) (s : string) : string :=
  match n, s with
  | O, _ => EmptyString
  | S n', String a s' => String a (take n' s')
  | S _, EmptyString => EmptyString
  end.

(** [s.substring(start, end)] for [0 <= start <= end]. *)
Definition substring (start stop : Z) (s : string) : string :=
  take (Z.to_nat (stop - start)) (drop (Z.to_nat start) s).

(** [s.endsWith(p)] *)
Definition endsWith (p s : string) : bool :=
  (String.length p <=? String.length s)%nat &&
  String.eqb (drop (String.length s - String.length p) s) p.

(** [s.indexOf(q)]: the first position at which [q] occurs, [-1] if none. *)
Fixpoint indexOf_from (q s : string) (i : Z) : Z :=
  if startsWith q s then i
  else match s with
       | EmptyString => -1
       | String _ s' => indexOf_from q s' (i + 1)
       end.

Definition indexOf (q s : string) : Z := indexOf_from q s 0.

(** [s.includes(q)] *)
Fixpoint includes (q s : string) : bool :=
  startsWith q s ||
  match s with
  | EmptyString => false
  | String _ s' => includes q s'
  end.

(** White space removed by [trim]: the code units below 256 among
    ECMAScript's WhiteSpace and LineTerminator (tab, line feed, vertical
    tab, form feed, carriage return, space, no-break space). *)
Definition isSpace (a : ascii) : bool :=
  let n := nat_of_ascii a in
  ((9 <=? n) && (n <=? 13))%nat || (n =? 32)%nat || (n =? 160)%nat.

Fixpoint trimStart (s : string) : string :=
  match s with
  | EmptyString => EmptyString
  | String a s' => if isSpace a then trimStart s' else s
  end.

Fixpoint trimEnd (s : string) : string :=
  match s with
  | EmptyString => EmptyString
  | String a s' =>
      match trimEnd s' with
      | EmptyString => if isSpace a then EmptyString else String a EmptyString
      | t => String a t
      end
  end.

(** [s.trim()] *)
Definition trim (s : string) : string := trimEnd (trimStart s).

(** [s.toLowerCase()] on code units below 256: the letters A-Z and the
    capital letters of Latin-1 (U+00C0 to U+00DE without the
    multiplication sign U+00D7). *)
Definition lowerChar (a : ascii) : ascii :=
  let n := nat_of_ascii a in
  if ((65 <=? n) && (n <=? 90))%nat
     || ((192 <=? n) && (n <=? 222) && negb (n =? 215))%nat
  then ascii_of_nat (n + 32) else a.

Fixpoint toLowerCase (s : string) : string :=
  match s with
  | EmptyString => EmptyString
  | String a s' => String (lowerChar a) (toLowerCase s')
  end.

(** The [n]-fold repetition of one character. *)
Fixpoint repeatChar (a : ascii) (n : nat) : string :=
  match n with
  | O => EmptyString
  | S n' => String a (repeatChar a n')
  end.

(** [s.padStart(n, c)] for a one-character filler. *)
Definition padStart (n : nat) (a : ascii) (s : string) : string :=
  repeatChar a (n - String.length s) +:+ s.

(** [x | 0], [x & x]: conversion to a signed 32-bit integer. *)
Definition toInt32 (z : Z) : Z := (z + 2 ^ 31) mod 2 ^ 32 - 2 ^ 31.

(** One lowercase hexadecimal digit. *)
Definition hexDigit (d : Z) : ascii :=
  if d <? 10 then ascii_of_nat (48 + Z.to_nat d)
  else ascii_of_nat (87 + Z.to_nat d).

Fixpoint hexDigits (fuel : nat) (n : Z) (acc : string) : string :=
  let acc' := String (hexDigit (n mod 16)) acc in
  match fuel with
  | O => acc'
  | S fuel' => if n / 16 =? 0 then acc' else hexDigits fuel' (n / 16) acc'
  end.

(** [n.toString(16)] for an integer [n >= 0]. *)
Definition toString16 (n : Z) : string :=
  hexDigits (Z.to_nat (Z.log2 n)) n EmptyString.

(** The number a string of hexadecimal digits denotes. *)
Definition hexDigitValue (a : ascii) : Z :=
  let n := Z.of_nat (nat_of_ascii a) in
  if n <? 58 then n - 48 else n - 87.

Fixpoint hexValueFrom (s : string) (acc : Z) : Z :=
  match s with
  | EmptyString => acc
  | String a s' => hexValueFrom s' (16 * acc + hexDigitValue a)
  end.

Definition hexValue (s : string) : Z := hexValueFrom s 0.

(** [hasChar c s]: the code unit [c] occurs in [s]. *)
Fixpoint hasChar (c : ascii) (s : string) : bool :=
  match s with
  | EmptyString => false
  | String a s' => Ascii.eqb a c || hasChar c s'
  end.

Fixpoint allChars (P : ascii -> bool) (s : string) : bool :=
  match s with
  | EmptyString => true
  | String a s' => P a && allChars P s'
  end.

(** A digit of [0-9a-f]. *)
Definition isLowerHex (a : ascii) : bool :=
  let n := nat_of_ascii a in
  ((48 <=? n) && (n <=? 57))%nat || ((97 <=? n) && (n <=? 102))%nat.

End JS.

(** ** user-resolver.ts *)

Module UserResolver.

(** [HookContext | ToolContext]: every field is optional. *)
Record AnyContext := {
  agentId : option string;
  sessionKey : option string;
  workspaceDir : option string;
  messageProvider : option string;
  messageChannel : option string;
}.

(** The loop of [simpleHash] over the code units of the input. *)
Definition hashStep (hash : Z) (char : Z) : Z :=
  let hash := JS.toInt32 (Z.shiftl hash 5) - hash + char in
  JS.toInt32 hash.

Definition hashCodes (codes : list Z) : Z := fold_left hashStep codes 0.

Definition renderHash (hash : Z) : string :=
  JS.take 8 (JS.padStart 8 "0"%char (JS.toString16 (Z.abs hash))).

Definition charCodes (str : string) : list Z :=
  map (fun a => Z.of_nat (nat_of_ascii a)) (list_ascii_of_string str).

Definition simpleHash (str : string) : string :=
  renderHash (hashCodes (charCodes str)).

Definition provider (ctx : AnyContext) : string :=
  match messageProvider ctx with
  | Some p => p
  | None => match messageChannel ctx with
            | Some c => c
            | None => EmptyString
            end
  end.

(** The two fallbacks after the session-key pattern: provider plus hash of
    the session key, then ["session:"] plus hash, then ["default"]. *)
Definition fallbackUserId (provider sessionKey : string) : string :=
  if JS.truthy provider && JS.truthy sessionKey then
    provider +:+ ":" +:+ simpleHash sessionKey
  else if JS.truthy sessionKey then
    "session:" +:+ simpleHash sessionKey
  else "default".

Definition resolveUserId (ctx : AnyContext) : string :=
  let sessionKey := default EmptyString (sessionKey ctx) in
  let provider := provider ctx in
  let sessionParts := JS.split ":" sessionKey in
  if (4 <=? length sessionParts)%nat then
    let providerPart := nth 2 sessionParts EmptyString in
    let peerPart := JS.join ":" (skipn 3 sessionParts) in
    if JS.truthy providerPart && JS.truthy peerPart then
      providerPart +:+ ":" +:+ peerPart
    else fallbackUserId provider sessionKey
  else fallbackUserId provider sessionKey.

(** *** Session-key shapes named by the specification *)

Definition noColon (s : string) : Prop := JS.hasChar ":" s = false.

(** [first:a:p:rest] *)
Definition sessionKeyOf (first a p rest : string) : string :=
  first +:+ ":" +:+ a +:+ ":" +:+ p +:+ ":" +:+ rest.

(** The key has at least four [:]-separated segments, the third is [p]
    and is not empty, and [rest], what follows the third colon, is not
    empty. *)
Definition segmentPattern (key p rest : string) : Prop :=
  exists first a,
    key = sessionKeyOf first a p rest /\
    noColon first /\ noColon a /\ noColon p /\
    p <> EmptyString /\ rest <> EmptyString.

(** The same with the literal first segment [agent]. *)
Definition agentPattern (key p rest : string) : Prop :=
  exists a,
    key = sessionKeyOf "agent" a p rest /\
    noColon a /\ noColon p /\
    p <> EmptyString /\ rest <> EmptyString.

(** *** Contexts used in the examples *)

Definition roomContext : AnyContext :=
  {| agentId := None;
     sessionKey := Some "room:main:telegram:-100:5";
     workspaceDir := None;
     messageProvider := Some "discord";
     messageChannel := None |}.

Definition plainContext : AnyContext :=
  {| agentId := None;
     sessionKey := Some "hello";
     workspaceDir := None;
     messageProvider := None;
     messageChannel := Some "discord" |}.

(** *** Identity map (types.ts) *)

Record IdentityEntry := {
  canonical : string;
  aliases : list string;
  label : option string;
}.

Record IdentityMap := { identities : list IdentityEntry }.

Definition withAliases (e : IdentityEntry) (al : list string) : IdentityEntry :=
  {| canonical := canonical e; aliases := al; label := label e |}.

(** The body of the outer loop of [buildAliasLookup] for one entry. *)
Definition indexEntry (lookup : gmap string string) (entry : IdentityEntry)
  : gmap string string :=
  <[canonical entry := canonical entry]>
    (fold_left (fun lk alias => <[alias := canonical entry]> lk)
               (aliases entry) lookup).

Definition buildAliasLookup (identityMap : option IdentityMap)
  : option (gmap string string) :=
  match identityMap with
  | None => None
  | Some m => Some (fold_left indexEntry (identities m) ∅)
  end.

Definition resolveCanonicalUserId
    (rawId : string) (aliasLookup : option (gmap string string)) : string :=
  match aliasLookup with
  | None => rawId
  | Some lookup => default rawId (lookup !! rawId)
  end.

Record AddAliasResult := { added : bool; entry : IdentityEntry }.

(** [addAliasToIdentityMap] mutates the map in place: the function returns
    its result together with the map after the call.  An entry the source
    holds by reference is held here by its index in [identities].

    [attachAlias] is the code after the loop: find the target entry (or
    push a new one) and push the alias unless the target has it. *)
Definition attachAlias
    (ids1 : list IdentityEntry) (canonical' alias : string)
    (label' : option string) : AddAliasResult * IdentityMap :=
  let fresh := {| canonical := canonical'; aliases := []; label := label' |} in
  let '(t, ids2) :=
    match list_find (fun e => canonical e = canonical') ids1 with
    | Some (j, _) => (j, ids1)
    | None => (length ids1, ids1 ++ [fresh])
    end in
  let targetEntry := default fresh (ids2 !! t) in
  if bool_decide (alias ∈ aliases targetEntry) then
    ({| added := false; entry := targetEntry |}, {| identities := ids2 |})
  else
    let targetEntry' :=
      withAliases targetEntry (aliases targetEntry ++ [alias]) in
    ({| added := true; entry := targetEntry' |},
     {| identities := <[t := targetEntry']> ids2 |}).

Definition addAliasToIdentityMap
    (map : IdentityMap) (canonical' alias : string) (label' : option string)
  : AddAliasResult * IdentityMap :=
  let ids := identities map in
  match list_find (fun e => alias ∈ aliases e) ids with
  | Some (i, e) =>
      if String.eqb (canonical e) canonical' then
        ({| added := false; entry := e |}, map)
      else
        attachAlias
          (<[i := withAliases e (filter (fun a => a ≠ alias) (aliases e))]> ids)
          canonical' alias label'
  | None => attachAlias ids canonical' alias label'
  end.

(** All alias strings of the entries, in order. *)
Definition allAliases (ids : list IdentityEntry) : list string :=
  concat (aliases <$> ids).

(** Every alias string occurs once in the whole map. *)
Definition aliasUnique (m : IdentityMap) : Prop :=
  NoDup (allAliases (identities m)).

(** What holds of the result [r] and the entries [ids'] after the alias
    [a] has been attached to the canonical ID [c]. *)
Definition attached (c a : string) (r : AddAliasResult)
    (ids' : list IdentityEntry) : Prop :=
  NoDup (allAliases ids') /\
  entry r ∈ ids' /\
  canonical (entry r) = c /\
  a ∈ aliases (entry r) /\
  (forall e, e ∈ ids' -> a ∈ aliases e -> e = entry r).

(** The weaker reading: an alias string is in the list of one entry at
    most, where it may be repeated. *)
Definition aliasInOneEntry (m : IdentityMap) : Prop :=
  forall i j e e' a,
    identities m !! i = Some e -> identities m !! j = Some e' ->
    a ∈ aliases e -> a ∈ aliases e' -> i = j.

(** An alias that is also the canonical ID of an entry belongs to an entry
    of that canonical ID. *)
Definition aliasesApartFromCanonicals (m : IdentityMap) : Prop :=
  forall e e' a,
    e ∈ identities m -> e' ∈ identities m ->
    a ∈ aliases e -> a = canonical e' -> canonical e = a.

Definition entryOf (c : string) (al : list string) : IdentityEntry :=
  {| canonical := c; aliases := al; label := None |}.

(** *** Maps used in the examples *)

Definition familyMap : IdentityMap :=
  {| identities := [entryOf "bob" ["telegram:1"; "discord:7"];
                    entryOf "alice" ["telegram:2"]] |}.

(** The canonical ID [alice] is also an alias of the later entry [bob]. *)
Definition collidingMap : IdentityMap :=
  {| identities := [entryOf "alice" ["telegram:2"];
                    entryOf "bob" ["alice"]] |}.

(** One entry that lists an alias twice. *)
Definition repeatingMap : IdentityMap :=
  {| identities := [entryOf "alice" ["telegram:2"; "telegram:2"]] |}.

(** *** Group chats *)

(** [isGroupChat] reads the session key only. *)
Definition isGroupChat (ctx : AnyContext) : bool :=
  let sessionKey := default EmptyString (sessionKey ctx) in
  if JS.includes "telegram:" sessionKey && JS.includes "-" sessionKey
     && (let parts := JS.split ":" sessionKey in
         match last parts with
         | Some lastPart => JS.startsWith "-" lastPart
         | None => false
         end)
  then true
  else if JS.includes ":group:" sessionKey || JS.includes ":channel:" sessionKey
  then true
  else false.

(** *** The alias relation of a map *)

(** The entry names [k], as its canonical ID or as one of its aliases:
    the keys [buildAliasLookup] sets for the entry. *)
Definition mentions (k : string) (e : IdentityEntry) : Prop :=
  k = canonical e \/ k ∈ aliases e.

#[global] Instance mentions_dec (k : string) (e : IdentityEntry)
  : Decision (mentions k e).
Proof. unfold mentions. apply _. Defined.

(** Some entry of canonical ID [c] lists the alias [b]. *)
Definition owns (ids : list IdentityEntry) (c b : string) : Prop :=
  exists e, e ∈ ids /\ canonical e = c /\ b ∈ aliases e.

(** What identifies an entry apart from its aliases. *)
Definition identityOf (e : IdentityEntry) : string * option string :=
  (canonical e, label e).

(** The 32-bit polynomial hash with the multiplier 31, before the wrap. *)
Definition polyHash (codes : list Z) : Z :=
  fold_left (fun h c => 31 * h + c) codes 0.

End UserResolver.

(** ** Exceptions and effects *)

Module Eff.

(** Exceptions of the embedded code. *)
Inductive Exn :=
| SyntaxError            (* JSON.parse on a text that is not JSON *)
| TypeError              (* property access on null or undefined *)
| ProviderError (message : string)  (* a rejected call of the memory store *)
| FsError (path : string).          (* a failed file-system call *)

(** A computation on a state [S] that returns a value or throws. *)
Definition M (S A : Type) : Type := S -> (Exn + A) * S.

Definition ret {S A : Type} (x : A) : M S A := fun s => (inr x, s).

Definition throw {S A : Type} (e : Exn) : M S A := fun s => (inl e, s).

(** Sequencing: an exception of [c] ends the computation. *)
Definition bind {S A B : Type} (c : M S A) (k : A -> M S B) : M S B :=
  fun s =>
    match c s with
    | (inl e, s') => (inl e, s')
    | (inr x, s') => k x s'
    end.

(** [try { body } catch (err) { handler(err) }] *)
Definition tryCatch {S A : Type} (body : M S A) (handler : Exn -> M S A)
  : M S A :=
  fun s =>
    match body s with
    | (inl e, s') => handler e s'
    | (inr x, s') => (inr x, s')
    end.

(** A read of the state that may throw. *)
Definition reading {S A : Type} (f : S -> Exn + A) : M S A :=
  fun s => (f s, s).

Notation "'let!' x := c 'in' k" := (bind c (fun x => k))
  (at level 10, x name, c at level 100, k at level 200).
Notation "c >> k" := (bind c (fun _ => k))
  (at level 62, right associativity).

End Eff.

(** ** JSON values and [parseSleepAnalysis] *)

Module Json.
Export Eff.

(** A value as [JSON.parse] returns it.  A number keeps its literal: no
    function below computes with one.  The members of an object are in
    source order. *)
Inductive JSON :=
| JNull
| JBool (b : bool)
| JNumber (literal : string)
| JString (s : string)
| JArray (items : list JSON)
| JObject (members : list (string * JSON)).

(** The last member named [name], as duplicate names overwrite. *)
Fixpoint lastMember (name : string) (members : list (string * JSON))
  : option JSON :=
  match members with
  | [] => None
  | (k, v) :: rest =>
      match lastMember name rest with
      | Some v' => Some v'
      | None => if String.eqb k name then Some v else None
      end
  end.

(** [v.name] for one of the property names the code reads ([hot_facts],
    [patterns], [reflections], [consolidations], [digest], [merge_ids],
    [into]): a [TypeError] on [null], the member of an object, and
    [undefined] ([None]) on every other value, none of which has a
    property of these names. *)
Definition getProp (v : JSON) (name : string) : Exn + option JSON :=
  match v with
  | JNull => inl TypeError
  | JObject members => inr (lastMember name members)
  | _ => inr None
  end.

(** [Array.isArray(x) ? x : []] *)
Definition arrayOr (x : option JSON) : list JSON :=
  match x with
  | Some (JArray items) => items
  | _ => []
  end.

(** [typeof x === 'string' ? x : ''] *)
Definition stringOr (x : option JSON) : string :=
  match x with
  | Some (JString s) => s
  | _ => EmptyString
  end.

(** *** The text format *)

Definition DQUOTE : ascii := "034"%char.
Definition BACKSLASH : ascii := "092"%char.

(** The white space of the JSON grammar: space, tab, line feed, carriage
    return. *)
Definition isJsonSpace (a : ascii) : bool :=
  let n := nat_of_ascii a in
  (n =? 32)%nat || (n =? 9)%nat || (n =? 10)%nat || (n =? 13)%nat.

Fixpoint skipWs (s : string) : string :=
  match s with
  | String a s' => if isJsonSpace a then skipWs s' else s
  | EmptyString => EmptyString
  end.

Definition isDigit (a : ascii) : bool :=
  let n := nat_of_ascii a in ((48 <=? n) && (n <=? 57))%nat.

Definition hexValue (a : ascii) : option nat :=
  let n := nat_of_ascii a in
  if ((48 <=? n) && (n <=? 57))%nat then Some (n - 48)%nat
  else if ((97 <=? n) && (n <=? 102))%nat then Some (n - 87)%nat
  else if ((65 <=? n) && (n <=? 70))%nat then Some (n - 55)%nat
  else None.

(** The characters of a string literal after its opening quote, up to the
    closing quote, and the text after it.  An escape [\uXXXX] gives the
    code unit [XXXX]; a code unit is one [ascii] here, so only its low
    byte is kept. *)
Fixpoint parseChars (s : string) : option (string * string) :=
  match s with
  | EmptyString => None
  | String c r =>
      if Ascii.eqb c DQUOTE then Some (EmptyString, r)
      else if Ascii.eqb c BACKSLASH then
        match r with
        | EmptyString => None
        | String e r' =>
            let plain (a : ascii) :=
              match parseChars r' with
              | Some (str, rest) => Some (String a str, rest)
              | None => None
              end in
            if Ascii.eqb e DQUOTE then plain DQUOTE
            else if Ascii.eqb e BACKSLASH then plain BACKSLASH
            else if Ascii.eqb e "/" then plain "/"%char
            else if Ascii.eqb e "b" then plain "008"%char
            else if Ascii.eqb e "f" then plain "012"%char
            else if Ascii.eqb e "n" then plain "010"%char
            else if Ascii.eqb e "r" then plain "013"%char
            else if Ascii.eqb e "t" then plain "009"%char
            else if Ascii.eqb e "u" then
              match r' with
              | String h1 (String h2 (String h3 (String h4 r4))) =>
                  match hexValue h1, hexValue h2, hexValue h3, hexValue h4,
                        parseChars r4 with
                  | Some _, Some _, Some d3, Some d4, Some (str, rest) =>
                      Some (String (ascii_of_nat (16 * d3 + d4)) str, rest)
                  | _, _, _, _, _ => None
                  end
              | _ => None
              end
            else None
        end
      else if (nat_of_ascii c <? 32)%nat then None
      else match parseChars r with
           | Some (str, rest) => Some (String c str, rest)
           | None => None
           end
  end.

(** The longest prefix of digits and what follows it. *)
Fixpoint spanDigits (s : string) : string * string :=
  match s with
  | String a s' =>
      if isDigit a then let '(d, r) := spanDigits s' in (String a d, r)
      else (EmptyString, s)
  | EmptyString => (EmptyString, EmptyString)
  end.

(** A number literal: an optional minus sign, an integer part ([0], or a
    digit from 1 to 9 followed by digits), an optional fraction (a point
    and at least one digit) and an optional exponent ([e] or [E], an
    optional sign and at least one digit). *)
Definition parseNumber (s : string) : option (string * string) :=
  let '(sign, s1) :=
    match s with
    | String "-" r => ("-", r)
    | _ => (EmptyString, s)
    end in
  let '(int, s2) := spanDigits s1 in
  match int with
  | EmptyString => None
  | String "0" (String _ _) => None
  | _ =>
      let frac :=
        match s2 with
        | String "." r =>
            let '(d, r') := spanDigits r in
            match d with
            | EmptyString => None
            | _ => Some ("." +:+ d, r')
            end
        | _ => Some (EmptyString, s2)
        end in
      match frac with
      | None => None
      | Some (f, s3) =>
          let expo (mark : string) (r : string) :=
            let '(sg, r1) :=
              match r with
              | String "+" r1 => ("+", r1)
              | String "-" r1 => ("-", r1)
              | _ => (EmptyString, r)
              end in
            let '(d, r2) := spanDigits r1 in
            match d with
            | EmptyString => None
            | _ => Some (mark +:+ sg +:+ d, r2)
            end in
          let ex :=
            match s3 with
            | String "e" r => expo "e" r
            | String "E" r => expo "E" r
            | _ => Some (EmptyString, s3)
            end in
          match ex with
          | None => None
          | Some (e, s4) => Some (sign +:+ int +:+ f +:+ e, s4)
          end
      end
  end.

(** One value, after optional white space, and the text after it. *)
Fixpoint parseValue (fuel : nat) (s : string) : option (JSON * string) :=
  match fuel with
  | O => None
  | S fuel' =>
      let s := skipWs s in
      match s with
      | EmptyString => None
      | String c r =>
          if Ascii.eqb c "{" then
            match skipWs r with
            | String "}" r' => Some (JObject [], r')
            | _ => parseMembers fuel' r []
            end
          else if Ascii.eqb c "[" then
            match skipWs r with
            | String "]" r' => Some (JArray [], r')
            | _ => parseItems fuel' r []
            end
          else if Ascii.eqb c DQUOTE then
            match parseChars r with
            | Some (str, rest) => Some (JString str, rest)
            | None => None
            end
          else if JS.startsWith "true" s then Some (JBool true, JS.drop 4 s)
          else if JS.startsWith "false" s then Some (JBool false, JS.drop 5 s)
          else if JS.startsWith "null" s then Some (JNull, JS.drop 4 s)
          else
            match parseNumber s with
            | Some (lit, rest) => Some (JNumber lit, rest)
            | None => None
            end
      end
  end
with parseItems (fuel : nat) (s : string) (acc : list JSON)
  : option (JSON * string) :=
  match fuel with
  | O => None
  | S fuel' =>
      match parseValue fuel' s with
      | None => None
      | Some (v, r) =>
          match skipWs r with
          | String "," r' => parseItems fuel' r' (acc ++ [v])
          | String "]" r' => Some (JArray (acc ++ [v]), r')
          | _ => None
          end
      end
  end
with parseMembers (fuel : nat) (s : string) (acc : list (string * JSON))
  : option (JSON * string) :=
  match fuel with
  | O => None
  | S fuel' =>
      match skipWs s with
      | String c r =>
          if Ascii.eqb c DQUOTE then
            match parseChars r with
            | None => None
            | Some (key, r1) =>
                match skipWs r1 with
                | String ":" r2 =>
                    match parseValue fuel' r2 with
                    | None => None
                    | Some (v, r3) =>
                        match skipWs r3 with
                        | String "," r4 =>
                            parseMembers fuel' r4 (acc ++ [(key, v)])
                        | String "}" r4 =>
                            Some (JObject (acc ++ [(key, v)]), r4)
                        | _ => None
                        end
                    end
                | _ => None
                end
            end
          else None
      | EmptyString => None
      end
  end.

(** [JSON.parse(text)]: [None] stands for the [SyntaxError]. *)
Definition parse (text : string) : option JSON :=
  match parseValue (S (String.length text)) text with
  | Some (v, rest) =>
      match skipWs rest with
      | EmptyString => Some v
      | _ => None
      end
  | None => None
  end.

(** A text in double quotes. *)
Definition quoted (s : string) : string :=
  String DQUOTE (s +:+ String DQUOTE EmptyString).

End Json.

(** ** sleep-mode.ts: log entries and the chunker *)

Module SleepMode.
Import Json.

Inductive Role := user | assistant | tool.

#[global] Instance Role_eq_dec : EqDecision Role.
Proof. solve_decision. Defined.

(** One element of [LogEntry.messages]. *)
Record Message := {
  role : Role;
  content : string;
  tool_name : option string;
}.

Record LogEntry := {
  ts : string;
  user_id : string;
  channel : string;
  session_id : string;
  messages : list Message;
}.

(** The line feed, ["\n"]. *)
Definition LF : string := String "010"%char EmptyString.

(** [a || b] on an optional string: [b] when [a] is undefined or empty. *)
Definition orElse (a : option string) (b : string) : string :=
  match a with
  | Some s => if JS.truthy s then s else b
  | None => b
  end.

(** One line per message: [ROLE: content]. *)
Definition renderMessage (msg : Message) : string :=
  let prefix :=
    match role msg with
    | user => "USER"
    | tool => "TOOL(" +:+ orElse (tool_name msg) "unknown" +:+ ")"
    | assistant => "ASSISTANT"
    end in
  prefix +:+ ": " +:+ content msg.

(** [entryText]: the header line, the message lines and a blank line. *)
Definition renderEntry (entry : LogEntry) : string :=
  let lines :=
    ("--- Session: " +:+ session_id entry +:+ " | User: " +:+ user_id entry
       +:+ " | " +:+ ts entry +:+ " ---")
    :: map renderMessage (messages entry) in
  JS.join LF lines +:+ LF +:+ LF.

(** The loop of [chunkForAnalysis], threading [chunks] and [currentChunk]. *)
Fixpoint chunkLoop (maxChunkChars : Z) (entries : list LogEntry)
    (chunks : list string) (currentChunk : string) : list string * string :=
  match entries with
  | [] => (chunks, currentChunk)
  | entry :: rest =>
      let entryText := renderEntry entry in
      if (JS.len currentChunk + JS.len entryText >? maxChunkChars)
         && (JS.len currentChunk >? 0)
      then chunkLoop maxChunkChars rest (chunks ++ [currentChunk]) entryText
      else chunkLoop maxChunkChars rest chunks (currentChunk +:+ entryText)
  end.

Definition chunkForAnalysis (entries : list LogEntry) (maxChunkChars : Z)
  : list string :=
  let '(chunks, currentChunk) :=
    chunkLoop maxChunkChars entries [] EmptyString in
  if JS.truthy (JS.trim currentChunk) then chunks ++ [currentChunk]
  else chunks.

(** The default of the parameter [maxChunkChars]. *)
Definition defaultMaxChunkChars : Z := 4000.

(** *** Renderings of runs of entries *)

Fixpoint concatStrings (l : list string) : string :=
  match l with
  | [] => EmptyString
  | s :: rest => s +:+ concatStrings rest
  end.

(** The renderings of the entries of [group], one after the other. *)
Definition renderGroup (group : list LogEntry) : string :=
  concatStrings (map renderEntry group).

(** What the loop of [chunkForAnalysis] maintains: [done] are the groups
    of entries already flushed, [group] the entries in the buffer.  A
    flushed group is not empty, and a group of more than one entry fits
    the limit. *)
Definition withinLimit (maxChunkChars : Z) (group : list LogEntry) : Prop :=
  (1 < length group)%nat -> JS.len (renderGroup group) <= maxChunkChars.

Definition chunkInv (maxChunkChars : Z) (done : list (list LogEntry))
    (group : list LogEntry) : Prop :=
  Forall (fun g => g <> []) done /\
  Forall (withinLimit maxChunkChars) done /\
  withinLimit maxChunkChars group.

(** *** The analysis record and its parser *)

(** [SleepAnalysis].  [parseSleepAnalysis] passes the elements of the
    arrays through as [JSON.parse] gave them, unchecked ([A := JSON]); the
    CLI action builds the record from strings ([A := string]). *)
Record Consolidation (A : Type) := {
  merge_ids : list A;
  into : string;
}.
Arguments merge_ids {A} _.
Arguments into {A} _.

Record SleepAnalysis (A : Type) := {
  hot_facts : list A;
  patterns : list A;
  reflections : list A;
  consolidations : list (Consolidation A);
  digest : string;
}.
Arguments hot_facts {A} _.
Arguments patterns {A} _.
Arguments reflections {A} _.
Arguments consolidations {A} _.
Arguments digest {A} _.

Definition FENCE : string := "```".

(** [s.replace(/^```(?:json)?\n?/, '')] *)
Definition stripLeadingFence (s : string) : string :=
  if JS.startsWith FENCE s then
    let s1 := JS.drop 3 s in
    let s2 := if JS.startsWith "json" s1 then JS.drop 4 s1 else s1 in
    if JS.startsWith LF s2 then JS.drop 1 s2 else s2
  else s.

(** [s.replace(/\n?```$/, '')]: the pattern can only match at the end, and
    the leftmost match takes the line feed when there is one. *)
Definition stripTrailingFence (s : string) : string :=
  if JS.endsWith (LF +:+ FENCE) s then JS.take (String.length s - 4) s
  else if JS.endsWith FENCE s then JS.take (String.length s - 3) s
  else s.

(** The text handed to [JSON.parse]. *)
Definition stripFences (response : string) : string :=
  let cleaned := JS.trim response in
  if JS.startsWith FENCE cleaned then
    stripTrailingFence (stripLeadingFence cleaned)
  else cleaned.

(** The callback of [parsed.consolidations.map]. *)
Definition consolidationOf (c : JSON) : Exn + Consolidation JSON :=
  match getProp c "merge_ids" with
  | inl e => inl e
  | inr ids =>
      match getProp c "into" with
      | inl e => inl e
      | inr target =>
          inr {| merge_ids := arrayOr ids; into := stringOr target |}
      end
  end.

(** [items.map(f)] for a callback that may throw. *)
Fixpoint mapExn {A B : Type} (f : A -> Exn + B) (items : list A)
  : Exn + list B :=
  match items with
  | [] => inr []
  | x :: rest =>
      match f x with
      | inl e => inl e
      | inr y =>
          match mapExn f rest with
          | inl e => inl e
          | inr ys => inr (y :: ys)
          end
      end
  end.

(** The object literal that [parseSleepAnalysis] returns, built from the
    parsed value. *)
Definition analysisOf (parsed : JSON) : Exn + SleepAnalysis JSON :=
  match getProp parsed "hot_facts" with
  | inl e => inl e
  | inr hot =>
  match getProp parsed "patterns" with
  | inl e => inl e
  | inr pats =>
  match getProp parsed "reflections" with
  | inl e => inl e
  | inr refl =>
  match getProp parsed "consolidations" with
  | inl e => inl e
  | inr conso =>
  match mapExn consolidationOf (arrayOr conso) with
  | inl e => inl e
  | inr cs =>
  match getProp parsed "digest" with
  | inl e => inl e
  | inr dig =>
      inr {| hot_facts := arrayOr hot;
             patterns := arrayOr pats;
             reflections := arrayOr refl;
             consolidations := cs;
             digest := stringOr dig |}
  end end end end end end.

Section Parser.

(** [JSON.parse]: [None] stands for the [SyntaxError] it throws. *)
Variable JSON_parse : string -> option JSON.

Definition parseSleepAnalysis (response : string) : Exn + SleepAnalysis JSON :=
  match JSON_parse (stripFences response) with
  | None => inl SyntaxError
  | Some parsed => analysisOf parsed
  end.

End Parser.

(** The analysis in which every field has its default. *)
Definition emptyAnalysis : SleepAnalysis JSON :=
  {| hot_facts := []; patterns := []; reflections := [];
     consolidations := []; digest := EmptyString |}.

(** [s] between a leading and a trailing fence, with the language tag
    [tag] ([json] or nothing). *)
Definition fenced (tag s : string) : string :=
  FENCE +:+ tag +:+ LF +:+ s +:+ LF +:+ FENCE.

(** *** Entries used in the examples *)

Definition sampleEntry (sid text : string) : LogEntry :=
  {| ts := "2026-02-07T10:00:00Z"; user_id := "alice"; channel := "ch";
     session_id := sid;
     messages := [{| role := user; content := text; tool_name := None |}] |}.

End SleepMode.

(** ** sleep-mode.ts: the log store and the cold search *)

Module LogStore.
Import Json SleepMode.

(** *** The file system

    A path names a regular file with its content or a directory with the
    names [readdirSync] lists for it.  Paths are normalized, not empty
    and separated by slashes, as [join] returns them.  The working
    directory and the root are always there, and the map does not hold
    them.  Reading a directory as a file, listing a file and writing to a
    directory fail; so does a write to a path whose directory is missing
    or is a regular file.  A write to a path that names nothing creates
    the file and enters its name in the listing of its directory.  The
    order of a listing is the one of the operating system: a new name is
    put last here. *)
Inductive Inode :=
| File (content : string)
| Dir (names : list string).

Abbreviation FS := (gmap string Inode).

Definition existsSync (fs : FS) (path : string) : bool :=
  match fs !! path with Some _ => true | None => false end.

Definition readFileSync (fs : FS) (path : string) : Exn + string :=
  match fs !! path with
  | Some (File content) => inr content
  | _ => inl (FsError path)
  end.

Definition readdirSync (fs : FS) (path : string) : Exn + list string :=
  match fs !! path with
  | Some (Dir names) => inr names
  | _ => inl (FsError path)
  end.

(** The content of the regular file at [path], if there is one. *)
Definition contentAt (fs : FS) (path : string) : option string :=
  match fs !! path with
  | Some (File content) => Some content
  | _ => None
  end.

(** [path] names a directory. *)
Definition isDir (fs : FS) (path : string) : Prop :=
  exists names, fs !! path = Some (Dir names).

(** The listing of a directory has changed between [a] and [b]. *)
Definition grows (a b : option Inode) : Prop :=
  exists names names', a = Some (Dir names) /\ b = Some (Dir names').

(** The text before the last slash of [path]; none without a slash. *)
Fixpoint dirOf (path : string) : option string :=
  match path with
  | EmptyString => None
  | String c rest =>
      match dirOf rest with
      | Some d => Some (String c d)
      | None => if Ascii.eqb c "/" then Some EmptyString else None
      end
  end.

(** The directory that holds [path], where the map holds it: none for a
    name in the working directory and for a name under the root. *)
Definition parentOf (path : string) : option string :=
  match dirOf path with
  | Some d => if JS.truthy d then Some d else None
  | None => None
  end.

(** The name of [path] in its directory: the text after the last
    slash. *)
Definition nameOf (path : string) : string :=
  match dirOf path with
  | Some d => JS.drop (S (String.length d)) path
  | None => path
  end.

(** The directory that holds [path] is there. *)
Definition inDirectory (fs : FS) (path : string) : bool :=
  match parentOf path with
  | Some d => match fs !! d with Some (Dir _) => true | _ => false end
  | None => true
  end.

(** A listing with [name] in it. *)
Definition listed (name : string) (names : list string) : list string :=
  if decide (name ∈ names) then names else names ++ [name].

(** The name of a new [path] entered in the listing of its directory. *)
Definition enter (path : string) (fs : FS) : FS :=
  match parentOf path with
  | Some d =>
      match fs !! d with
      | Some (Dir names) => <[d := Dir (listed (nameOf path) names)]> fs
      | _ => fs
      end
  | None => fs
  end.

Definition appendFileSync (path data : string) : M FS unit :=
  fun fs =>
    if negb (inDirectory fs path) then (inl (FsError path), fs)
    else
      match fs !! path with
      | Some (File content) => (inr tt, <[path := File (content +:+ data)]> fs)
      | Some (Dir _) => (inl (FsError path), fs)
      | None => (inr tt, <[path := File data]> (enter path fs))
      end.

Definition writeFileSync (path data : string) : M FS unit :=
  fun fs =>
    if negb (inDirectory fs path) then (inl (FsError path), fs)
    else
      match fs !! path with
      | Some (File _) => (inr tt, <[path := File data]> fs)
      | Some (Dir _) => (inl (FsError path), fs)
      | None => (inr tt, <[path := File data]> (enter path fs))
      end.

(** The directories on the way to [path], the outermost first and
    [path] last: [a], [a/b] and [a/b/c] for [a/b/c].  [seen] is the part
    of the path already passed. *)
Fixpoint ancestorsFrom (seen rest : string) : list string :=
  match rest with
  | EmptyString => [seen]
  | String c r =>
      (if Ascii.eqb c "/" && JS.truthy seen then [seen] else [])
      ++ ancestorsFrom (seen +:+ String c EmptyString) r
  end.

Definition ancestors (path : string) : list string :=
  ancestorsFrom EmptyString path.

(** One step of the recursive [mkdirSync]: a directory that is there is
    left as it is, a regular file in its place is an error, and a missing
    one is made, inside the directory of the step before. *)
Definition makeDir (dir : string) : M FS unit :=
  fun fs =>
    match fs !! dir with
    | Some (Dir _) => (inr tt, fs)
    | Some (File _) => (inl (FsError dir), fs)
    | None => (inr tt, <[dir := Dir []]> (enter dir fs))
    end.

Fixpoint makeDirs (dirs : list string) : M FS unit :=
  match dirs with
  | [] => ret tt
  | dir :: rest => makeDir dir >> makeDirs rest
  end.

(** [mkdirSync(path, { recursive: true })]: the missing directories on
    the way to [path] are made, and what was made stays when a later
    step fails. *)
Definition mkdirSync (path : string) : M FS unit :=
  makeDirs (ancestors path).

(** [if (!existsSync(dir)) mkdirSync(dir, { recursive: true })] *)
Definition ensureDir (dir : string) : M FS unit :=
  fun fs => if negb (existsSync fs dir) then mkdirSync dir fs else (inr tt, fs).

(** [join(dir, name)] for a normalized [dir] and a plain file name. *)
Definition pathJoin (dir name : string) : string := dir +:+ "/" +:+ name.

(** [basename(name, ext)] for a plain file name that ends with [ext]. *)
Definition basename (name ext : string) : string :=
  if JS.endsWith ext name
  then JS.take (String.length name - String.length ext) name
  else name.

(** [{ date, path }] *)
Record LogFile := { date : string; path : string }.

(** *** Processed dates *)

Definition processedFile (logDir : string) : string :=
  pathJoin logDir ".processed".

Definition getProcessedDates (fs : FS) (logDir : string) : gset string :=
  if negb (existsSync fs (processedFile logDir)) then ∅
  else
    match readFileSync fs (processedFile logDir) with
    | inr content =>
        list_to_set
          (filter (fun line => JS.truthy line = true)
                  (map JS.trim (JS.split "010" content)))
    | inl _ => ∅
    end.

Definition markProcessed (logDir date : string) : M FS unit :=
  appendFileSync (processedFile logDir) (date +:+ LF).

(** [new Date().toISOString().split("T")[0]] for the clock reading [now]. *)
Definition todayOf (now : string) : string :=
  hd EmptyString (JS.split "T" now).

(** [names.filter((f) => f.endsWith(".jsonl")).map(...)] *)
Definition logFilesOf (logDir : string) (names : list string) : list LogFile :=
  (fun f => {| date := basename f ".jsonl"; path := pathJoin logDir f |})
    <$> filter (fun f => JS.endsWith ".jsonl" f = true) names.

(** The order of the operator [<=] on the dates of two files. *)
Definition dateLe (a b : LogFile) : Prop :=
  String.leb (date a) (date b) = true.

Section Sorting.

(** The comparator of [Array.prototype.sort]: a negative number when the
    first argument goes before the second. *)
Variable compareFn : LogFile -> LogFile -> Z.

(** [files.sort(compareFn)].  The sort is stable; for a comparator that is
    a total preorder every stable sort returns the list that insertion
    from left to right returns. *)
Fixpoint insertSorted (x : LogFile) (sorted : list LogFile) : list LogFile :=
  match sorted with
  | [] => [x]
  | y :: rest =>
      if compareFn x y <? 0 then x :: y :: rest
      else y :: insertSorted x rest
  end.

Definition sortFiles (files : list LogFile) : list LogFile :=
  fold_left (fun sorted x => insertSorted x sorted) files [].

(** The comparator orders two files by their dates as the operator [<]
    orders the dates. *)
Definition agrees (x y : LogFile) : Prop :=
  (compareFn x y <? 0) = String.ltb (date x) (date y).

End Sorting.

Section WithEnvironment.

(** [a.localeCompare(b)]: the collation of the host. *)
Variable localeCompare : string -> string -> Z.

(** [JSON.parse(line) as LogEntry]: [None] when [JSON.parse] throws.  The
    cast is not checked by the code; the model takes the value to have
    the type it is cast to. *)
Variable parseLogEntry : string -> option LogEntry.

Definition findUnprocessedLogs (now : string) (fs : FS) (logDir : string)
  : Exn + list LogFile :=
  if negb (existsSync fs logDir) then inr []
  else
    let processed := getProcessedDates fs logDir in
    let today := todayOf now in
    match readdirSync fs logDir with
    | inl e => inl e
    | inr names =>
        inr (sortFiles
               (fun a b => localeCompare (date a) (date b))
               (filter (fun f => date f ≠ today /\ date f ∉ processed)
                       (logFilesOf logDir names)))
    end.

(** The loop of [readDailyLog] over the lines of the file. *)
Fixpoint parseLines (lines : list string) : list LogEntry :=
  match lines with
  | [] => []
  | line :: rest =>
      let trimmed := JS.trim line in
      if negb (JS.truthy trimmed) then parseLines rest
      else match parseLogEntry trimmed with
           | Some entry => entry :: parseLines rest
           | None => parseLines rest
           end
  end.

Definition readDailyLog (fs : FS) (logPath : string) : Exn + list LogEntry :=
  if negb (existsSync fs logPath) then inr []
  else
    match readFileSync fs logPath with
    | inl e => inl e
    | inr content => inr (parseLines (JS.split "010" content))
    end.

(** *** Cold search *)

Record SearchResult := { entry : LogEntry; matchContext : string }.

(** The snippet around the first occurrence of the query in [text]. *)
Definition contextOf (query queryLower text : string) : string :=
  let idx := JS.indexOf queryLower (JS.toLowerCase text) in
  let start := Z.max 0 (idx - 100) in
  let stop := Z.min (JS.len text) (idx + JS.len query + 100) in
  (if start >? 0 then "..." else EmptyString)
    +:+ JS.substring start stop text
    +:+ (if stop <? JS.len text then "..." else EmptyString).

(** The inner loop over the messages of an entry: the context of the first
    message that contains the query. *)
Fixpoint firstMatch (query queryLower : string) (msgs : list Message)
  : option string :=
  match msgs with
  | [] => None
  | msg :: rest =>
      if JS.includes queryLower (JS.toLowerCase (content msg))
      then Some (contextOf query queryLower (content msg))
      else firstMatch query queryLower rest
  end.

(** The loop over the entries of one file. *)
Fixpoint searchEntries (query queryLower : string) (limit : Z)
    (entries : list LogEntry) (results : list SearchResult)
  : list SearchResult :=
  match entries with
  | [] => results
  | e :: rest =>
      if Z.of_nat (length results) >=? limit then results
      else
        match firstMatch query queryLower (messages e) with
        | Some ctx =>
            searchEntries query queryLower limit rest
              (results ++ [{| entry := e; matchContext := ctx |}])
        | None => searchEntries query queryLower limit rest results
        end
  end.

(** The loop over the files. *)
Fixpoint searchFiles (fs : FS) (query queryLower : string) (limit : Z)
    (files : list LogFile) (results : list SearchResult)
  : Exn + list SearchResult :=
  match files with
  | [] => inr results
  | file :: rest =>
      if Z.of_nat (length results) >=? limit then inr results
      else
        match readDailyLog fs (path file) with
        | inl e => inl e
        | inr entries =>
            searchFiles fs query queryLower limit rest
              (searchEntries query queryLower limit entries results)
        end
  end.

(** [dateFrom && f.date < dateFrom] and [dateTo && f.date > dateTo]: a
    bound that is undefined or empty does not filter. *)
Definition inRange (dateFrom dateTo : option string) (f : LogFile) : bool :=
  let below :=
    match dateFrom with
    | Some from => JS.truthy from && String.ltb (date f) from
    | None => false
    end in
  let above :=
    match dateTo with
    | Some to => JS.truthy to && String.ltb to (date f)
    | None => false
    end in
  negb below && negb above.

Definition searchLogs (fs : FS) (logDir query : string)
    (dateFrom dateTo : option string) (limit : Z)
  : Exn + list SearchResult :=
  if negb (existsSync fs logDir) then inr []
  else
    let queryLower := JS.toLowerCase query in
    match readdirSync fs logDir with
    | inl e => inl e
    | inr names =>
        let files :=
          sortFiles
            (fun a b => localeCompare (date b) (date a))
            (filter (fun f => inRange dateFrom dateTo f = true)
                    (logFilesOf logDir names)) in
        searchFiles fs query queryLower limit files []
    end.

(** *** What the search is expected to find *)

(** Some message of the entry contains the query, case ignored. *)
Definition matchesQuery (queryLower : string) (e : LogEntry) : bool :=
  existsb (fun m => JS.includes queryLower (JS.toLowerCase (content m)))
          (messages e).

(** The result an entry contributes: one for its first matching message. *)
Definition resultOf (query queryLower : string) (e : LogEntry)
  : list SearchResult :=
  match firstMatch query queryLower (messages e) with
  | Some ctx => [{| entry := e; matchContext := ctx |}]
  | None => []
  end.

(** The entries read from a file, none when it cannot be read. *)
Definition entriesAt (fs : FS) (logPath : string) : list LogEntry :=
  match readDailyLog fs logPath with
  | inr entries => entries
  | inl _ => []
  end.

(** All results, without a limit, over the entries of [files] in order. *)
Definition allResults (fs : FS) (query queryLower : string)
    (files : list LogFile) : list SearchResult :=
  flat_map (fun f => flat_map (resultOf query queryLower) (entriesAt fs (path f)))
           files.

(** The number of matching entries in the files of [names] whose dates
    are in the range. *)
Definition matchCount (fs : FS) (logDir queryLower : string)
    (dateFrom dateTo : option string) (names : list string) : nat :=
  length
    (filter (fun e => matchesQuery queryLower e = true)
       (flat_map (fun f => entriesAt fs (path f))
          (filter (fun f => inRange dateFrom dateTo f = true)
                  (logFilesOf logDir names)))).

(** [d] is within the inclusive bounds; an undefined or empty bound does
    not bind. *)
Definition withinBounds (dateFrom dateTo : option string) (d : string) : Prop :=
  (forall from, dateFrom = Some from -> from <> EmptyString ->
                String.leb from d = true) /\
  (forall to, dateTo = Some to -> to <> EmptyString ->
              String.leb d to = true).

End WithEnvironment.

(** The file of the directory entry [name]. *)
Definition logFileOf (logDir name : string) : LogFile :=
  {| date := basename name ".jsonl"; path := pathJoin logDir name |}.

(** [localeCompare] modelled by the order of the code units. *)
Definition codeUnitCompare (a b : string) : Z :=
  match String.compare a b with
  | Lt => -1
  | Eq => 0
  | Gt => 1
  end.

(** A collation that compares letters as the one of the host does:
    without regard to case first, and the lower-case letter first among
    letters that differ in case only.  On strings without letters it is
    the order of the code units. *)
Definition caseBlindCompare (a b : string) : Z :=
  match String.compare (JS.toLowerCase a) (JS.toLowerCase b) with
  | Lt => -1
  | Gt => 1
  | Eq => codeUnitCompare b a
  end.

(** *** The JSON text of a log entry *)

(** [JSON.stringify] of a string: quotes, with the quote, the backslash
    and the control characters escaped. *)
Fixpoint escapeChars (s : string) : string :=
  match s with
  | EmptyString => EmptyString
  | String c r =>
      let n := nat_of_ascii c in
      (if Ascii.eqb c DQUOTE then String BACKSLASH (String DQUOTE EmptyString)
       else if Ascii.eqb c BACKSLASH
            then String BACKSLASH (String BACKSLASH EmptyString)
       else if (n =? 8)%nat then String BACKSLASH "b"
       else if (n =? 9)%nat then String BACKSLASH "t"
       else if (n =? 10)%nat then String BACKSLASH "n"
       else if (n =? 12)%nat then String BACKSLASH "f"
       else if (n =? 13)%nat then String BACKSLASH "r"
       else if (n <? 32)%nat
            then String BACKSLASH
                   ("u00" +:+ String (JS.hexDigit (Z.of_nat (n / 16)))
                                (String (JS.hexDigit (Z.of_nat (n mod 16)))
                                        EmptyString))
       else String c EmptyString)
      +:+ escapeChars r
  end.

Definition stringifyString (s : string) : string := quoted (escapeChars s).

Definition member (key value : string) : string :=
  quoted key +:+ ":" +:+ value.

Definition roleName (r : Role) : string :=
  match r with
  | user => "user"
  | assistant => "assistant"
  | tool => "tool"
  end.

Definition stringifyMessage (m : Message) : string :=
  "{" +:+ member "role" (stringifyString (roleName (role m)))
      +:+ "," +:+ member "content" (stringifyString (content m))
      +:+ match tool_name m with
          | Some t => "," +:+ member "tool_name" (stringifyString t)
          | None => EmptyString
          end
      +:+ "}".

(** [JSON.stringify(entry)] *)
Definition stringifyEntry (e : LogEntry) : string :=
  "{" +:+ member "ts" (stringifyString (ts e))
      +:+ "," +:+ member "user_id" (stringifyString (user_id e))
      +:+ "," +:+ member "channel" (stringifyString (channel e))
      +:+ "," +:+ member "session_id" (stringifyString (session_id e))
      +:+ "," +:+ member "messages"
                    ("[" +:+ JS.join "," (map stringifyMessage (messages e))
                         +:+ "]")
      +:+ "}".

(** [appendToLog]: the directory is created when it is missing, and the
    entry is appended as one line to the file of its date. *)
Definition appendToLog (logDir : string) (e : LogEntry) : M FS unit :=
  ensureDir logDir >>
  let date := hd EmptyString (JS.split "T" (ts e)) in
  appendFileSync (pathJoin logDir (date +:+ ".jsonl"))
                 (stringifyEntry e +:+ LF).

(** A value of the shape of [LogEntry], read back from its JSON. *)
Definition stringField (name : string) (v : JSON) : option string :=
  match getProp v name with
  | inr (Some (JString s)) => Some s
  | _ => None
  end.

Definition decodeRole (s : string) : option Role :=
  if String.eqb s "user" then Some user
  else if String.eqb s "assistant" then Some assistant
  else if String.eqb s "tool" then Some tool
  else None.

Definition decodeMessage (v : JSON) : option Message :=
  match stringField "role" v, stringField "content" v with
  | Some r, Some c =>
      match decodeRole r with
      | Some r' =>
          Some {| role := r'; content := c;
                  tool_name := stringField "tool_name" v |}
      | None => None
      end
  | _, _ => None
  end.

Fixpoint decodeAll {A : Type} (f : JSON -> option A) (items : list JSON)
  : option (list A) :=
  match items with
  | [] => Some []
  | x :: rest =>
      match f x, decodeAll f rest with
      | Some y, Some ys => Some (y :: ys)
      | _, _ => None
      end
  end.

Definition decodeLogEntry (v : JSON) : option LogEntry :=
  match stringField "ts" v, stringField "user_id" v,
        stringField "channel" v, stringField "session_id" v,
        getProp v "messages" with
  | Some t, Some u, Some c, Some s, inr (Some (JArray items)) =>
      match decodeAll decodeMessage items with
      | Some msgs =>
          Some {| ts := t; user_id := u; channel := c; session_id := s;
                  messages := msgs |}
      | None => None
      end
  | _, _, _, _, _ => None
  end.

(** [JSON.parse(line) as LogEntry] with the parser of [Json] and the cast
    checked: a line that is JSON of another shape is dropped, which the
    unchecked cast of the source does not do. *)
Definition parseEntryLine (line : string) : option LogEntry :=
  match Json.parse line with
  | Some v => decodeLogEntry v
  | None => None
  end.

(** *** A log directory used in the examples *)

Definition dayEntry (day sid text : string) : LogEntry :=
  {| ts := day +:+ "T10:00:00Z"; user_id := "alice"; channel := "ch";
     session_id := sid;
     messages := [{| role := user; content := text; tool_name := None |};
                  {| role := assistant; content := "Great choice!";
                     tool_name := None |}] |}.

Definition linesOf (entries : list LogEntry) : string :=
  concatStrings (map (fun e => stringifyEntry e +:+ LF) entries).

Definition searchNames : list string :=
  ["2026-02-05.jsonl"; "2026-02-09.jsonl"; "2026-02-07.jsonl"; ".processed"].

Definition searchFs : FS :=
  list_to_map
    [("logs", Dir searchNames);
     ("logs/2026-02-05.jsonl",
      File (linesOf [dayEntry "2026-02-05" "s1" "Search target"]));
     ("logs/2026-02-07.jsonl",
      File (linesOf [dayEntry "2026-02-07" "s1" "A Search TARGET here";
                     dayEntry "2026-02-07" "s2" "nothing";
                     dayEntry "2026-02-07" "s3" "target again";
                     dayEntry "2026-02-07" "s4" "the target";
                     dayEntry "2026-02-07" "s5" "last target"]));
     ("logs/2026-02-09.jsonl",
      File (linesOf [dayEntry "2026-02-09" "s1" "Search target"]))].


Definition sampleNow : string := "2026-02-10T12:00:00.000Z".

Definition sampleLogFs : FS :=
  list_to_map
    [("logs", Dir ["2026-02-10.jsonl"; "2026-02-05.jsonl"; ".processed";
                   "2026-02-01.jsonl"; "2026-02-03.jsonl"; "notes.txt"]);
     ("logs/.processed", File ("2026-02-01" +:+ LF));
     ("logs/2026-02-01.jsonl", File EmptyString);
     ("logs/2026-02-03.jsonl", File EmptyString);
     ("logs/2026-02-05.jsonl", File EmptyString);
     ("logs/2026-02-10.jsonl", File EmptyString)].

(** A log directory with names that are no dates. *)
Definition collationFs : FS :=
  list_to_map
    [("logs", Dir ["B.jsonl"; "a.jsonl"]);
     ("logs/B.jsonl", File EmptyString);
     ("logs/a.jsonl", File EmptyString)].

(** The default of the parameter [limit]. *)
Definition defaultLimit : Z := 5.

(** The value [JSON.parse] returns for the text of a message and of an
    entry. *)
Definition jsonOfMessage (m : Message) : JSON :=
  JObject ([("role", JString (roleName (role m)));
            ("content", JString (content m))]
           ++ match tool_name m with
              | Some t => [("tool_name", JString t)]
              | None => []
              end).

Definition jsonOfEntry (e : LogEntry) : JSON :=
  JObject [("ts", JString (ts e));
           ("user_id", JString (user_id e));
           ("channel", JString (channel e));
           ("session_id", JString (session_id e));
           ("messages", JArray (map jsonOfMessage (messages e)))].

(** *** Files written a line at a time *)

(** The content is a sequence of lines, each closed by a line feed: what
    [appendToLog] and [markProcessed] leave. *)
Definition linesClosed (content : string) : Prop :=
  content = EmptyString \/ JS.endsWith LF content = true.

(** The dates read from the lines of the sentinel. *)
Definition datesOf (lines : list string) : gset string :=
  list_to_set (filter (fun line => JS.truthy line = true) (map JS.trim lines)).

(** The path names no file yet, or a file of closed lines. *)
Definition appendable (fs : FS) (path : string) : Prop :=
  match fs !! path with
  | Some (File content) => linesClosed content
  | Some (Dir _) => False
  | None => True
  end.

(** The sentinel of [logDir] can be written a line at a time: the log
    directory is there, and the sentinel is absent or a file of closed
    lines. *)
Definition markable (fs : FS) (logDir : string) : Prop :=
  isDir fs logDir /\ appendable fs (processedFile logDir).

(** The file [appendToLog] writes the entry to. *)
Definition logPathOf (logDir : string) (e : LogEntry) : string :=
  pathJoin logDir (hd EmptyString (JS.split "T" (ts e)) +:+ ".jsonl").

End LogStore.

(** ** sleep-mode.ts: the digest writer *)

Module Digest.
Import Json SleepMode LogStore.

(** A number in a template literal. *)
Definition natToString (n : nat) : string :=
  NilEmpty.string_of_uint (Nat.to_uint n).

Record Stats := {
  totalHotMemories : option nat;
  totalColdChunks : option nat;
}.

Definition bullet (s : string) : string := "- " +:+ s.

(** A section of the digest: nothing for an empty list, else the heading,
    one line per item and an empty line. *)
Definition section {A : Type} (heading : string) (render : A -> string)
    (items : list A) : list string :=
  match items with
  | [] => []
  | _ => (heading +:+ LF) :: map render items ++ [EmptyString]
  end.

(** The lines of the digest.  The dash of the title is the three bytes of
    its UTF-8 encoding here. *)
Definition digestLines (date : string) (analysis : SleepAnalysis string)
    (stats : option Stats) : list string :=
  [("# Memory Digest — " +:+ date +:+ LF)]
  ++ (if JS.truthy (digest analysis)
      then [("## Summary" +:+ LF); (digest analysis +:+ LF)] else [])
  ++ section "## New Facts Discovered" bullet (hot_facts analysis)
  ++ section "## Patterns Noticed" bullet (patterns analysis)
  ++ section "## Self-Reflections" bullet (reflections analysis)
  ++ section "## Memory Consolidations"
       (fun c => "- Merged " +:+ natToString (length (merge_ids c))
                 +:+ " entries into: " +:+ quoted (into c))
       (consolidations analysis)
  ++ match stats with
     | None => []
     | Some st =>
         [("## Memory Stats" +:+ LF)]
         ++ match totalHotMemories st with
            | Some n => [("- Hot memories: " +:+ natToString n)]
            | None => []
            end
         ++ match totalColdChunks st with
            | Some n => [("- Cold chunks: " +:+ natToString n)]
            | None => []
            end
         ++ [EmptyString]
     end.

Definition digestPath (digestDir date : string) : string :=
  pathJoin digestDir (date +:+ ".md").

Definition saveDigest (digestDir date : string)
    (analysis : SleepAnalysis string) (stats : option Stats) : M FS unit :=
  ensureDir digestDir >>
  writeFileSync (digestPath digestDir date)
                (JS.join LF (digestLines date analysis stats)).

End Digest.

(** ** index.ts: the [mem0-sleep] command *)

Module Cli.
Import Json SleepMode LogStore Digest.

(** The memory store behind the provider interface. *)
Inductive Event := ADD | UPDATE | DELETE | NOOP.

Record AddResultItem := { id : string; memory : string; event : Event }.

(** [AddResult]; the code reads [results] with [?.], so it may be absent. *)
Record AddResult := { results : option (list AddResultItem) }.

(** [{ role, content }] as handed to [provider.add]. *)
Record ChatMessage := { chatRole : Role; chatContent : string }.

(** The calls a run makes, in order: what is observable of it from
    outside.  The journal is not a variable of the source. *)
Inductive Call :=
| CallGetAll
| CallAdd (messages : list ChatMessage)
| CallSaveDigest (date : string)
| CallMarkProcessed (date : string).

Record World (Provider : Type) := {
  fs : FS;
  provider : Provider;
  journal : list Call;
}.
Arguments fs {Provider} _.
Arguments provider {Provider} _.
Arguments journal {Provider} _.

(** A read of the file system. *)
Definition readFs {P A : Type} (f : FS -> Exn + A) : M (World P) A :=
  reading (fun w => f (fs w)).

(** A call on the file system, entered in the journal as [call]. *)
Definition callFs {P : Type} (call : Call) (op : M FS unit)
  : M (World P) unit :=
  fun w =>
    let '(r, fs') := op (fs w) in
    (r, {| fs := fs'; provider := provider w;
           journal := journal w ++ [call] |}).

(** A call of the [try] block: to the store or to the digest writer. *)
Definition tryCall (c : Call) : Prop :=
  (exists messages, c = CallAdd messages) \/ (exists d, c = CallSaveDigest d).

(** The options of the command. *)
Record Options := { optDate : option string; dryRun : bool }.

(** [/^\d{4}-\d{2}-\d{2}$/.test(s)] *)
Definition isDateFormat (s : string) : bool :=
  match s with
  | String y1 (String y2 (String y3 (String y4 (String h1
      (String m1 (String m2 (String h2 (String d1 (String d2
        EmptyString))))))))) =>
      isDigit y1 && isDigit y2 && isDigit y3 && isDigit y4
      && Ascii.eqb h1 "-"
      && isDigit m1 && isDigit m2
      && Ascii.eqb h2 "-"
      && isDigit d1 && isDigit d2
  | _ => false
  end.

(** [messages.slice(-n)]: the last [n] elements. *)
Definition lastN {A : Type} (n : nat) (l : list A) : list A :=
  skipn (length l - n) l.

Definition isADD (r : AddResultItem) : bool :=
  match event r with ADD => true | _ => false end.

Definition isUPDATE (r : AddResultItem) : bool :=
  match event r with UPDATE => true | _ => false end.

Section Action.

Variable localeCompare : string -> string -> Z.
Variable parseLogEntry : string -> option LogEntry.

(** The state of the memory store and its two calls the command makes.
    A rejected promise is an exception at the [await]. *)
Variable Provider : Type.
Variable AddOptions : Type.
Variable provider_getAll :
  string -> Provider -> (Exn + list string) * Provider.
Variable provider_add :
  list ChatMessage -> AddOptions -> Provider -> (Exn + AddResult) * Provider.

(** The configuration: [cfg.userId], the resolved [cfg.sleepMode.logDir]
    and [cfg.sleepMode.digestDir], [cfg.sleepMode.maxChunkChars],
    [cfg.sleepMode.digestEnabled], the value of [buildAddOptions()], and
    the reading of the clock. *)
Variable userId : string.
Variable logDir : string.
Variable digestDir : string.
Variable maxChunkChars : Z.
Variable digestEnabled : bool.
Variable addOptions : AddOptions.
Variable now : string.

Abbreviation W := (World Provider).
Abbreviation Run := (M (World Provider)).

(** [await provider.getAll({ user_id: cfg.userId })], mapped to the
    memory texts. *)
Definition getAll : Run (list string) :=
  fun w =>
    let '(r, p') := provider_getAll userId (provider w) in
    (r, {| fs := fs w; provider := p'; journal := journal w ++ [CallGetAll] |}).

(** [await provider.add(messages, buildAddOptions())] *)
Definition add (messages : list ChatMessage) : Run AddResult :=
  fun w =>
    let '(r, p') := provider_add messages addOptions (provider w) in
    (r, {| fs := fs w; provider := p';
           journal := journal w ++ [CallAdd messages] |}).

Definition markProcessedM (date : string) : Run unit :=
  callFs (CallMarkProcessed date) (markProcessed logDir date).

Definition saveDigestM (date : string) (analysis : SleepAnalysis string)
  : Run unit :=
  callFs (CallSaveDigest date) (saveDigest digestDir date analysis None).

(** The candidate list [unprocessed]. *)
Definition discover (opts : Options) (w : W) : Exn + list LogFile :=
  match optDate opts with
  | Some d =>
      if JS.truthy d
      then inr [{| date := d; path := logDir +:+ "/" +:+ d +:+ ".jsonl" |}]
      else findUnprocessedLogs localeCompare now (fs w) logDir
  | None => findUnprocessedLogs localeCompare now (fs w) logDir
  end.

(** The messages handed to the store: the user and assistant messages of
    all entries. *)
Definition chatMessagesOf (entries : list LogEntry) : list ChatMessage :=
  flat_map
    (fun e =>
       map (fun m => {| chatRole := role m; chatContent := content m |})
           (filter (fun m => role m = user \/ role m = assistant)
                   (messages e)))
    entries.

(** [result.results?.filter((r) => r.event === ...)] *)
Definition added (result : AddResult) : option (list AddResultItem) :=
  filter (fun r => isADD r = true) <$> results result.

Definition updated (result : AddResult) : option (list AddResultItem) :=
  filter (fun r => isUPDATE r = true) <$> results result.

(** The [simpleAnalysis] record and the counts [addedCount] and
    [updatedCount], with the defaults of [??]. *)
Definition simpleAnalysisOf (date : string) (entries : list LogEntry)
    (result : AddResult) : SleepAnalysis string :=
  let addedCount := default 0%nat (length <$> added result) in
  let updatedCount := default 0%nat (length <$> updated result) in
  {| hot_facts := default [] (map memory <$> added result);
     patterns := [];
     reflections := [];
     consolidations := [];
     digest :=
       "Processed " +:+ natToString (length entries)
       +:+ " conversations from " +:+ date +:+ ". "
       +:+ "Extracted " +:+ natToString addedCount
       +:+ " new facts and updated " +:+ natToString updatedCount
       +:+ " existing memories." |}.

(** The body of the [try] block for one date: extract and promote through
    the store, then write the digest. *)
Definition tryBlock (log : LogFile) (entries : list LogEntry) : Run unit :=
  let messages := chatMessagesOf entries in
  if (0 <? length messages)%nat then
    let! result := add (lastN 20 messages) in
    if digestEnabled
    then saveDigestM (date log) (simpleAnalysisOf (date log) entries result)
    else ret tt
  else ret tt.

(** The body of the loop for one candidate.  The chunks, the combined
    text and the prompt made of it and of the existing memories are only
    printed by the source, and printing is not part of the state; the
    prompt is left out.  [continue] in the [catch] is the [false] of
    [finished]. *)
Definition processDay (log : LogFile) : Run unit :=
  let! entries := readFs (fun fs => readDailyLog parseLogEntry fs (path log)) in
  match entries with
  | [] => markProcessedM (date log)
  | _ :: _ =>
      let chunks := chunkForAnalysis entries maxChunkChars in
      let combinedText := JS.join (LF +:+ "---" +:+ LF +:+ LF) chunks in
      let! finished := tryCatch (tryBlock log entries >> ret true)
                                (fun _ => ret false) in
      if finished : bool then markProcessedM (date log) else ret tt
  end.

(** [for (const log of unprocessed) { ... }] *)
Fixpoint runDays (logs : list LogFile) : Run unit :=
  match logs with
  | [] => ret tt
  | log :: rest => processDay log >> runDays rest
  end.

(** [opts.date && !/^\d{4}-\d{2}-\d{2}$/.test(opts.date)] *)
Definition invalidDate (opts : Options) : bool :=
  match optDate opts with
  | Some d => JS.truthy d && negb (isDateFormat d)
  | None => false
  end.

(** The action of the command. *)
Definition sleepAction (opts : Options) : Run unit :=
  if invalidDate opts then ret tt
  else
    let! unprocessed := reading (discover opts) in
    match unprocessed with
    | [] => ret tt
    | _ :: _ =>
        if dryRun opts then ret tt
        else
          tryCatch (getAll >> ret tt) (fun _ => ret tt) >>
          runDays unprocessed
    end.

End Action.

(** *** A store and a log directory used in the examples *)

(** A store that keeps the batches it was given and rejects a batch with
    the message [boom]. *)
Definition sampleGetAll (uid : string) (p : list (list ChatMessage))
  : (Exn + list string) * list (list ChatMessage) :=
  (inr [], p).

Definition sampleAdd (messages : list ChatMessage) (opts : unit)
    (p : list (list ChatMessage))
  : (Exn + AddResult) * list (list ChatMessage) :=
  if existsb (fun m => String.eqb (chatContent m) "boom") messages
  then (inl (ProviderError "rejected"), p)
  else (inr {| results := Some [{| id := "1"; memory := "a fact";
                                   event := ADD |}] |},
        p ++ [messages]).

Definition schedulerFs : FS :=
  list_to_map
    [("logs", Dir ["2026-02-01.jsonl"; "2026-02-02.jsonl";
                   "2026-02-03.jsonl"]);
     ("logs/2026-02-01.jsonl", File EmptyString);
     ("logs/2026-02-02.jsonl",
      File (linesOf [dayEntry "2026-02-02" "s1" "boom"]));
     ("logs/2026-02-03.jsonl",
      File (linesOf [dayEntry "2026-02-03" "s1" "I like tea"]))].

Definition schedulerWorld : World (list (list ChatMessage)) :=
  {| fs := schedulerFs; provider := []; journal := [] |}.

(** A world without a log directory, and one whose sentinel ends in a
    line that is not closed. *)
Definition bareWorld : World (list (list ChatMessage)) :=
  {| fs := ∅; provider := []; journal := [] |}.

Definition openLineWorld : World (list (list ChatMessage)) :=
  {| fs := list_to_map
             [("logs", Dir [".processed"; "2026-02-01.jsonl"]);
              ("logs/.processed", File "2026-01-31");
              ("logs/2026-02-01.jsonl", File EmptyString)];
     provider := []; journal := [] |}.

Definition emptyDay : LogFile := logFileOf "logs" "2026-02-01.jsonl".
Definition boomDay : LogFile := logFileOf "logs" "2026-02-02.jsonl".
Definition teaDay : LogFile := logFileOf "logs" "2026-02-03.jsonl".

(** The command with the sample store, the directories [logs] and
    [digests], digests enabled and the clock at [sampleNow]. *)
Definition sampleProcessDay :=
  processDay parseEntryLine (list (list ChatMessage)) unit sampleAdd
             "logs" "digests" 4000 true tt.

Definition sampleRunDays :=
  runDays parseEntryLine (list (list ChatMessage)) unit sampleAdd
          "logs" "digests" 4000 true tt.

Definition sampleTryBlock :=
  tryBlock (list (list ChatMessage)) unit sampleAdd "digests" true tt.

Definition sampleSleepAction :=
  sleepAction codeUnitCompare parseEntryLine (list (list ChatMessage)) unit
              sampleGetAll sampleAdd "default" "logs" "digests" 4000 true tt
              sampleNow.

(** *** What a run leaves in the journal *)

(** A batch handed to the store: between one and twenty messages, of the
    user and of the assistant only. *)
Definition batchOk (c : Call) : Prop :=
  match c with
  | CallAdd messages =>
      (0 < length messages <= 20)%nat /\
      Forall (fun m => chatRole m = user \/ chatRole m = assistant) messages
  | _ => True
  end.

(** The dates of the calls of [markProcessed], in order. *)
Definition markedDates (calls : list Call) : list string :=
  flat_map (fun c => match c with
                     | CallMarkProcessed d => [d]
                     | _ => []
                     end) calls.

(** A path the command leaves as it is: not the sentinel, not the log
    directory, whose listing gains the sentinel, not the directory of the
    digests nor a directory on the way to it, and nothing under the
    directory of the digests. *)
Definition leftAlone (logDir digestDir p : string) : Prop :=
  p ≠ processedFile logDir /\ p ≠ logDir /\
  JS.startsWith p digestDir = false /\
  JS.startsWith (digestDir +:+ "/") p = false.

(** What a run may have done between the worlds [w] and [w']: calls
    added to the journal, each batch well formed; the processed dates,
    where the sentinel can be written, is no directory on the way to the
    digests and the marked dates hold no line feed, grown by the dates of
    the calls of [markProcessed]; every path the command leaves alone as
    it was; and no file with another content but the sentinel and the
    digest files. *)
Definition runEffect {P : Type} (logDir digestDir : string)
    (w w' : World P) : Prop :=
  (exists calls,
      journal w' = journal w ++ calls /\
      Forall batchOk calls /\
      (markable (fs w) logDir ->
       JS.startsWith (processedFile logDir) digestDir = false ->
       Forall (fun d => JS.hasChar "010" d = false) (markedDates calls) ->
       markable (fs w') logDir /\
       getProcessedDates (fs w') logDir =
         getProcessedDates (fs w) logDir ∪ datesOf (markedDates calls))) /\
  (forall p, leftAlone logDir digestDir p -> fs w' !! p = fs w !! p) /\
  (forall p, p ≠ processedFile logDir ->
             (forall d, p ≠ digestPath digestDir d) ->
             contentAt (fs w') p = contentAt (fs w) p).

End Cli.

(** ** Values of the host and the message cleaner *)

Module Raw.
Import Json.

Section Values.

(** The numbers of the host.  The code below only asks of a number
    whether it is falsy (zero or NaN). *)
Variable Num : Type.
Variable falsyNumber : Num -> bool.

(** A value as a hook or an API hands it over.  The properties of an
    object are in insertion order. *)
Inductive Value :=
| VUndefined
| VNull
| VBool (b : bool)
| VNumber (n : Num)
| VString (s : string)
| VArray (items : list Value)
| VObject (props : list (string * Value)).

(** A value used as a condition. *)
Definition truthy (v : Value) : bool :=
  match v with
  | VUndefined | VNull => false
  | VBool b => b
  | VNumber n => negb (falsyNumber n)
  | VString s => JS.truthy s
  | VArray _ | VObject _ => true
  end.

(** [typeof v === "object"]: true of [null] too. *)
Definition isObject (v : Value) : bool :=
  match v with
  | VNull | VArray _ | VObject _ => true
  | _ => false
  end.

(** [v === undefined || v === null] *)
Definition nullish (v : Value) : bool :=
  match v with
  | VUndefined | VNull => true
  | _ => false
  end.

(** [a ?? b] *)
Definition coalesce (a b : Value) : Value := if nullish a then b else a.

Fixpoint lookupProp (name : string) (props : list (string * Value)) : Value :=
  match props with
  | [] => VUndefined
  | (k, v) :: rest => if String.eqb k name then v else lookupProp name rest
  end.

(** [v.name] for one of the property names the code reads, none of which
    is a property of a string, a number, a boolean or an array: the
    property of an object, a [TypeError] on [null] and [undefined], and
    [undefined] on every other value. *)
Definition getProp (v : Value) (name : string) : Exn + Value :=
  match v with
  | VUndefined | VNull => inl TypeError
  | VObject props => inr (lookupProp name props)
  | _ => inr VUndefined
  end.

(** [v.name] where [v] is known not to be [null] or [undefined];
    [v?.name] where it may be. *)
Definition field (v : Value) (name : string) : Value :=
  match v with
  | VObject props => lookupProp name props
  | _ => VUndefined
  end.

(** [v === "s"] *)
Definition isString (s : string) (v : Value) : bool :=
  match v with
  | VString s' => String.eqb s' s
  | _ => false
  end.

End Values.

Arguments VUndefined {Num}.
Arguments VNull {Num}.
Arguments VBool {Num} _.
Arguments VNumber {Num} _.
Arguments VString {Num} _.
Arguments VArray {Num} _.
Arguments VObject {Num} _.
Arguments isObject {Num} _.
Arguments nullish {Num} _.
Arguments coalesce {Num} _ _.
Arguments lookupProp {Num} _ _.
Arguments getProp {Num} _ _.
Arguments field {Num} _ _.
Arguments isString {Num} _ _.

End Raw.

(** ** sleep-mode.ts: [cleanMessages] and [buildLogEntry] *)

Module Cleaner.
Import Json SleepMode Raw.

(** *** The pattern of the base64 data

    [/data:[a-zA-Z]+\/[a-zA-Z]+;base64,[A-Za-z0-9+/=]{100,}/g].  Each run
    of the pattern is followed by a character outside its class, so the
    greedy match is the only one. *)

Definition isLetter (a : ascii) : bool :=
  let n := nat_of_ascii a in
  ((65 <=? n) && (n <=? 90))%nat || ((97 <=? n) && (n <=? 122))%nat.

Definition isBase64Char (a : ascii) : bool :=
  isLetter a || isDigit a
  || Ascii.eqb a "+" || Ascii.eqb a "/" || Ascii.eqb a "=".

(** The length of the longest prefix whose characters are in the class. *)
Fixpoint spanLength (P : ascii -> bool) (s : string) : nat :=
  match s with
  | String a r => if P a then S (spanLength P r) else O
  | EmptyString => O
  end.

(** The length of the match at the start of [s], if there is one. *)
Definition matchDataUri (s : string) : option nat :=
  if JS.startsWith "data:" s then
    let s1 := JS.drop 5 s in
    let n1 := spanLength isLetter s1 in
    if (1 <=? n1)%nat && JS.startsWith "/" (JS.drop n1 s1) then
      let s2 := JS.drop (n1 + 1) s1 in
      let n2 := spanLength isLetter s2 in
      if (1 <=? n2)%nat && JS.startsWith ";base64," (JS.drop n2 s2) then
        let s3 := JS.drop (n2 + 8) s2 in
        let n3 := spanLength isBase64Char s3 in
        if (100 <=? n3)%nat then Some (5 + n1 + 1 + n2 + 8 + n3)%nat
        else None
      else None
    else None
  else None.

(** The characters a match can hold. *)
Definition matchable (a : ascii) : bool :=
  isBase64Char a || Ascii.eqb a ":" || Ascii.eqb a ";" || Ascii.eqb a ",".

Definition BASE64_MARK : string := "[base64-data]".

(** [text.replace(pattern, "[base64-data]")] with the global flag: the
    matches are found from left to right and do not overlap.  [skip]
    counts the characters of a match still to be passed over. *)
Fixpoint stripFrom (s : string) (skip : nat) : string :=
  match s with
  | EmptyString => EmptyString
  | String a r =>
      match skip with
      | S k => stripFrom r k
      | O =>
          match matchDataUri s with
          | Some n => BASE64_MARK +:+ stripFrom r (n - 1)
          | None => String a (stripFrom r O)
          end
      end
  end.

Definition stripBase64 (text : string) : string := stripFrom text O.

Definition MEMORIES_TAG : string := "<relevant-memories>".

Section Clean.

Variable Num : Type.
Variable falsyNumber : Num -> bool.

Abbreviation Value := (Raw.Value Num).

(** [(textContent ? "\n" : "") + piece] appended to [textContent] *)
Definition addLine (textContent piece : string) : string :=
  textContent +:+ (if JS.truthy textContent then LF else EmptyString)
              +:+ piece.

(** The body of the loop over the blocks of an array content. *)
Definition blockStep (textContent : string) (block : Value) : string :=
  if negb (truthy Num falsyNumber block) || negb (isObject block)
  then textContent
  else
    let b := block in
    if isString "text" (field b "type")
       && match field b "text" with VString _ => true | _ => false end
    then addLine textContent
           match field b "text" with VString t => t | _ => EmptyString end
    else if isString "image_url" (field b "type")
            || isString "image" (field b "type")
    then addLine textContent "[image]"
    else textContent.

(** The text of [msg.content]. *)
Definition textOf (content : Value) : string :=
  match content with
  | VString s => s
  | VArray blocks => fold_left blockStep blocks EmptyString
  | _ => EmptyString
  end.

(** The body of the loop of [cleanMessages] for one message: the cleaned
    message, or nothing where the loop continues. *)
Definition cleanMessage (maxToolResultChars : Z) (msg : Value)
  : option Message :=
  if negb (truthy Num falsyNumber msg) || negb (isObject msg) then None
  else
    let role := field msg "role" in
    if negb (truthy Num falsyNumber role) then None
    else if isString "system" role then None
    else
      let textContent := textOf (field msg "content") in
      if negb (JS.truthy textContent) then None
      else if JS.includes MEMORIES_TAG textContent then None
      else
        let textContent := stripBase64 textContent in
        let textContent :=
          if isString "tool" role
             && (JS.len textContent >? maxToolResultChars)
          then JS.substring 0 maxToolResultChars textContent
               +:+ " [truncated]"
          else textContent in
        let cleanRole :=
          if isString "user" role then user
          else if isString "tool" role then tool
          else assistant in
        Some {| role := cleanRole;
                content := textContent;
                tool_name :=
                  if isString "tool" role
                  then match field msg "name" with
                       | VString n => Some n
                       | _ => None
                       end
                  else None |}.

Definition cleanMessages (messages : list Value) (maxToolResultChars : Z)
  : list Message :=
  omap (cleanMessage maxToolResultChars) messages.

(** The default of the parameter [maxToolResultChars]. *)
Definition defaultMaxToolResultChars : Z := 500.

(** [buildLogEntry]; [now] is the reading of the clock,
    [new Date().toISOString()]. *)
Definition buildLogEntry (now : string) (messages : list Value)
    (userId channel sessionId : string) : option LogEntry :=
  let cleanedMessages := cleanMessages messages defaultMaxToolResultChars in
  if (length cleanedMessages =? 0)%nat then None
  else Some {| ts := now; user_id := userId; channel := channel;
               session_id := sessionId; messages := cleanedMessages |}.

End Clean.

(** *** Messages used in the examples *)

Definition rawMessage (role content : string) : Raw.Value Z :=
  VObject [("role", VString role); ("content", VString content)].

Definition base64Image : string :=
  "data:image/png;base64," +:+ JS.repeatChar "A" 200.

Definition sampleRawMessages : list (Raw.Value Z) :=
  [rawMessage "system" "You are a helpful assistant";
   rawMessage "user" "What is the weather?";
   VNull;
   rawMessage "assistant" ("<relevant-memories>" +:+ "User likes pizza");
   rawMessage "user" ("Here is an image: " +:+ base64Image +:+ " end");
   VObject [("role", VString "tool");
            ("content", VString (JS.repeatChar "x" 1000));
            ("name", VString "search")]].

End Cleaner.

(** ** index.ts: helpers of the plugin *)

Module Plugin.
Import UserResolver.

(** [resolveUser(rawId?, ctx?)], a closure over [cfg.userId] and the
    alias lookup built when the plugin registers. *)
Definition resolveUser (cfgUserId : string)
    (aliasLookup : option (gmap string string))
    (rawId : option string) (ctx : option AnyContext) : string :=
  let rawId :=
    match ctx with
    | Some c =>
        if negb (JS.truthy (default EmptyString rawId)) then
          let extracted := resolveUserId c in
          if negb (String.eqb extracted "default") then Some extracted
          else rawId
        else rawId
    | None => rawId
    end in
  let id := SleepMode.orElse rawId cfgUserId in
  resolveCanonicalUserId id aliasLookup.

(** *** Result normalizers *)

Section Normalizers.

Variable Num : Type.
Abbreviation Value := (Raw.Value Num).

(** [MemoryItem]; the fields are passed through unchecked. *)
Record MemoryItem := {
  id : Value;
  memory : Value;
  user_id : Value;
  score : Value;
  categories : Value;
  metadata : Value;
  created_at : Value;
  updated_at : Value;
}.

(** [raw.name] in an object literal: the first read of a property of
    [null] or [undefined] throws. *)
Definition normalizeMemoryItem (raw : Value) : Eff.Exn + MemoryItem :=
  if Raw.nullish raw then inl Eff.TypeError
  else
    let get := Raw.field raw in
    inr {| id := Raw.coalesce (Raw.coalesce (get "id") (get "memory_id"))
                              (Raw.VString EmptyString);
           memory := Raw.coalesce
                       (Raw.coalesce (Raw.coalesce (get "memory") (get "text"))
                                     (get "content"))
                       (Raw.VString EmptyString);
           user_id := Raw.coalesce (get "user_id") (get "userId");
           score := get "score";
           categories := get "categories";
           metadata := get "metadata";
           created_at := Raw.coalesce (get "created_at") (get "createdAt");
           updated_at := Raw.coalesce (get "updated_at") (get "updatedAt") |}.

(** [raw?.results] *)
Definition resultsOf (raw : Value) : Value :=
  if Raw.nullish raw then Raw.VUndefined else Raw.field raw "results".

Definition normalizeSearchResults (raw : Value)
  : Eff.Exn + list MemoryItem :=
  match raw with
  | Raw.VArray items => SleepMode.mapExn normalizeMemoryItem items
  | _ =>
      match resultsOf raw with
      | Raw.VArray items => SleepMode.mapExn normalizeMemoryItem items
      | _ => inr []
      end
  end.

(** One element of [AddResult.results]. *)
Record AddedItem := {
  itemId : Value;
  itemMemory : Value;
  itemEvent : Value;
}.

(** The callback of [map] in [normalizeAddResult]. *)
Definition normalizeAddItem (r : Value) : Eff.Exn + AddedItem :=
  if Raw.nullish r then inl Eff.TypeError
  else
    let get := Raw.field r in
    inr {| itemId := Raw.coalesce (Raw.coalesce (get "id") (get "memory_id"))
                                  (Raw.VString EmptyString);
           itemMemory := Raw.coalesce
                           (Raw.coalesce (get "memory") (get "text"))
                           (Raw.VString EmptyString);
           itemEvent :=
             Raw.coalesce
               (Raw.coalesce (get "event")
                             (if Raw.nullish (get "metadata")
                              then Raw.VUndefined
                              else Raw.field (get "metadata") "event"))
               (Raw.VString "ADD") |}.

(** [normalizeAddResult]: the field [results] of the returned object. *)
Definition normalizeAddResult (raw : Value) : Eff.Exn + list AddedItem :=
  match resultsOf raw with
  | Raw.VArray items => SleepMode.mapExn normalizeAddItem items
  | _ =>
      match raw with
      | Raw.VArray items => SleepMode.mapExn normalizeAddItem items
      | _ => inr []
      end
  end.

End Normalizers.

Arguments id {Num} _.
Arguments memory {Num} _.
Arguments user_id {Num} _.
Arguments score {Num} _.
Arguments categories {Num} _.
Arguments metadata {Num} _.
Arguments created_at {Num} _.
Arguments updated_at {Num} _.
Arguments itemId {Num} _.
Arguments itemMemory {Num} _.
Arguments itemEvent {Num} _.

(** *** Environment variables in the configuration *)

(** The variable name of a placeholder at the start of [s]: the pattern
    [\$\{([^}]+)\}] matches a dollar sign, an opening brace, one or more
    characters other than the closing brace, and the closing brace. *)
Fixpoint untilBrace (s : string) : option string :=
  match s with
  | EmptyString => None
  | String a r =>
      if Ascii.eqb a "}" then Some EmptyString
      else match untilBrace r with
           | Some name => Some (String a name)
           | None => None
           end
  end.

Definition matchPlaceholder (s : string) : option string :=
  if JS.startsWith "${" s then
    match untilBrace (JS.drop 2 s) with
    | Some name => if JS.truthy name then Some name else None
    | None => None
    end
  else None.

(** The message of the [Error] the callback throws. *)
Definition notSet (envVar : string) : string :=
  "Environment variable " +:+ envVar +:+ " is not set".

Section Environment.

(** The text that replaces a placeholder whose name is that of a
    property [process.env] inherits from [Object.prototype], such as
    [toString] or [constructor]: the value of that property, a function
    or an object, as the replacement writes it. *)
Variable inherited : string -> option string.

(** [process.env[envVar]] where it is truthy: the variable of that name
    when it is set and not empty; for a name that is not set, the
    property the object inherits under it, which is a function or an
    object and so never falsy. *)
Definition envText (env : gmap string string) (envVar : string)
  : option string :=
  match env !! envVar with
  | Some envValue => if JS.truthy envValue then Some envValue else None
  | None => inherited envVar
  end.

(** [value.replace(pattern, callback)] with the global flag, for the
    environment [env], [process.env].  A thrown [Error] is its message on
    the left.  [skip] counts the characters of a match still to be passed
    over. *)
Fixpoint resolveFrom (env : gmap string string) (s : string) (skip : nat)
  : string + string :=
  match s with
  | EmptyString => inr EmptyString
  | String a r =>
      match skip with
      | S k => resolveFrom env r k
      | O =>
          match matchPlaceholder s with
          | Some envVar =>
              match envText env envVar with
              | None => inl (notSet envVar)
              | Some envValue =>
                  match resolveFrom env r (String.length envVar + 2) with
                  | inl e => inl e
                  | inr rest => inr (envValue +:+ rest)
                  end
              end
          | None =>
              match resolveFrom env r O with
              | inl e => inl e
              | inr rest => inr (String a rest)
              end
          end
      end
  end.

Definition resolveEnvVars (env : gmap string string) (value : string)
  : string + string :=
  resolveFrom env value O.

End Environment.

(** The properties of [Object.prototype] and the text Node writes for
    them. *)
Definition objectPrototype (name : string) : option string :=
  if String.eqb name "__proto__" then Some "[object Object]"
  else if String.eqb name "constructor"
       then Some "function Object() { [native code] }"
  else if existsb (String.eqb name)
            ["hasOwnProperty"; "isPrototypeOf"; "propertyIsEnumerable";
             "toLocaleString"; "toString"; "valueOf";
             "__defineGetter__"; "__defineSetter__";
             "__lookupGetter__"; "__lookupSetter__"]
       then Some ("function " +:+ name +:+ "() { [native code] }")
  else None.

End Plugin.

(** ** Data of the test suite (sleep-mode.test.ts) *)

Module Samples.
Import Json SleepMode LogStore Digest Cli.

Definition emptyContext : UserResolver.AnyContext :=
  {| UserResolver.agentId := None; UserResolver.sessionKey := None;
     UserResolver.workspaceDir := None;
     UserResolver.messageProvider := None;
     UserResolver.messageChannel := None |}.

Definition telegramContext : UserResolver.AnyContext :=
  {| UserResolver.agentId := Some "main";
     UserResolver.sessionKey := Some "agent:main:telegram:12345";
     UserResolver.workspaceDir := None;
     UserResolver.messageProvider := Some "telegram";
     UserResolver.messageChannel := None |}.

(** [{"hot_facts":["fact"],"patterns":[],"reflections":[],
      "consolidations":[],"digest":"Done"}] *)
Definition doneText : string :=
  "{" +:+ member "hot_facts" ("[" +:+ quoted "fact" +:+ "]")
      +:+ "," +:+ member "patterns" "[]"
      +:+ "," +:+ member "reflections" "[]"
      +:+ "," +:+ member "consolidations" "[]"
      +:+ "," +:+ member "digest" (quoted "Done") +:+ "}".

Definition doneAnalysis : SleepAnalysis JSON :=
  {| hot_facts := [JString "fact"]; patterns := []; reflections := [];
     consolidations := []; digest := "Done" |}.

(** [{"hot_facts":[],"patterns":[],"reflections":[],
      "consolidations":[{"merge_ids":"not-array","into":123}],
      "digest":"test"}] *)
Definition illTypedText : string :=
  "{" +:+ member "hot_facts" "[]"
      +:+ "," +:+ member "patterns" "[]"
      +:+ "," +:+ member "reflections" "[]"
      +:+ "," +:+ member "consolidations"
                    ("[{" +:+ member "merge_ids" (quoted "not-array")
                          +:+ "," +:+ member "into" "123" +:+ "}]")
      +:+ "," +:+ member "digest" (quoted "test") +:+ "}".

(** [{"consolidations":[null]}] *)
Definition nullEntryText : string :=
  "{" +:+ member "consolidations" "[null]" +:+ "}".

(** Ten entries with a message of 200 characters each. *)
Definition longEntries : list LogEntry :=
  map (fun i => {| ts := "2026-02-07T0" +:+ natToString i +:+ ":00:00Z";
                   user_id := "alice"; channel := "ch";
                   session_id := "s" +:+ natToString i;
                   messages := [{| role := user;
                                   content := JS.repeatChar "x" 200;
                                   tool_name := None |}] |})
      (seq 0 10).

(** Ten entries that contain [findme], in one file. *)
Definition findmeFs : FS :=
  list_to_map
    [("logs", Dir ["2026-02-07.jsonl"]);
     ("logs/2026-02-07.jsonl",
      File (linesOf (map (fun i => dayEntry "2026-02-07"
                                     ("s" +:+ natToString i) "findme")
                         (seq 0 10))))].

(** A log with a line that is not JSON between two entries. *)
Definition brokenLogFs : FS :=
  list_to_map
    [("logs/2026-02-07.jsonl",
      File (stringifyEntry (dayEntry "2026-02-07" "s1" "valid") +:+ LF
            +:+ "not valid json" +:+ LF
            +:+ stringifyEntry (dayEntry "2026-02-07" "s2" "valid too")
            +:+ LF))].

End Samples.

(** ** Facts about the string primitives *)

Module JSFacts.
Import JS.
Local Arguments String.append : simpl nomatch.

Lemma append_empty_r (s : string) : s +:+ EmptyString = s.
Proof. induction s; simpl; congruence. Qed.

Lemma append_assoc (a b c : string) : (a +:+ b) +:+ c = a +:+ (b +:+ c).
Proof. induction a; simpl; congruence. Qed.

Lemma length_append (a b : string) :
  String.length (a +:+ b) = (String.length a + String.length b)%nat.
Proof. induction a; simpl; congruence. Qed.

Lemma truthy_true (s : string) : truthy s = true <-> s <> EmptyString.
Proof. destruct s; simpl; split; congruence. Qed.

Lemma truthy_false (s : string) : truthy s = false <-> s = EmptyString.
Proof. destruct s; simpl; split; congruence. Qed.

Lemma split_nonempty (c : ascii) (s : string) : split c s <> [].
Proof.
  destruct s as [|a s]; simpl; [discriminate|].
  destruct (Ascii.eqb a c); [discriminate|].
  destruct (split c s); discriminate.
Qed.

(** A separator-free prefix followed by the separator is cut off whole. *)
Lemma split_cut (c : ascii) (a b : string) :
  hasChar c a = false ->
  split c (a +:+ String c b) = a :: split c b.
Proof.
  induction a as [|x a IH]; simpl; intros H.
  - now rewrite Ascii.eqb_refl.
  - apply orb_false_iff in H as [Hx Ha].
    rewrite Hx, (IH Ha). reflexivity.
Qed.

Lemma split_whole (c : ascii) (a : string) :
  hasChar c a = false -> split c a = [a].
Proof.
  induction a as [|x a IH]; simpl; intros H; [reflexivity|].
  apply orb_false_iff in H as [Hx Ha].
  rewrite Hx, (IH Ha). reflexivity.
Qed.

(** Joining the pieces with the separator gives the string back. *)
Lemma join_split (c : ascii) (s : string) :
  join (String c EmptyString) (split c s) = s.
Proof.
  induction s as [|a s IH]; simpl; [reflexivity|].
  destruct (Ascii.eqb a c) eqn:E.
  - apply Ascii.eqb_eq in E as ->.
    pose proof (split_nonempty c s) as Hne.
    destruct (split c s) as [|h t]; [congruence|].
    simpl in *. now rewrite IH.
  - pose proof (split_nonempty c s) as Hne.
    destruct (split c s) as [|h t]; [congruence|].
    destruct t; simpl in *; now rewrite <- IH.
Qed.

(** No piece contains the separator. *)
Lemma split_pieces (c : ascii) (s : string) :
  Forall (fun p => hasChar c p = false) (split c s).
Proof.
  induction s as [|a s IH]; simpl.
  - now constructor.
  - destruct (Ascii.eqb a c) eqn:E.
    + now constructor.
    + destruct (split c s) as [|h t].
      * constructor; [simpl; now rewrite E | constructor].
      * inversion IH; subst. constructor; [simpl; now rewrite E | assumption].
Qed.

Lemma join_cons (sep p : string) (q : string) (rest : list string) :
  join sep (p :: q :: rest) = p +:+ sep +:+ join sep (q :: rest).
Proof. reflexivity. Qed.

Lemma length_take_str (n : nat) (s : string) :
  String.length (take n s) = Nat.min n (String.length s).
Proof.
  revert s; induction n as [|n IH]; intros [|a s]; simpl; auto.
Qed.

Lemma length_drop_str (n : nat) (s : string) :
  String.length (drop n s) = (String.length s - n)%nat.
Proof.
  revert s; induction n as [|n IH]; intros [|a s]; simpl; auto.
Qed.

Lemma take_drop_str (n : nat) (s : string) : take n s +:+ drop n s = s.
Proof.
  revert s; induction n as [|n IH]; intros [|a s]; simpl; auto.
  now rewrite IH.
Qed.

Lemma length_repeatChar (a : ascii) (n : nat) :
  String.length (repeatChar a n) = n.
Proof. induction n; simpl; congruence. Qed.

Lemma allChars_append (P : ascii -> bool) (a b : string) :
  allChars P (a +:+ b) = allChars P a && allChars P b.
Proof. induction a as [|x a IH]; simpl; [reflexivity|]. now rewrite IH, andb_assoc. Qed.

Lemma allChars_repeatChar (P : ascii -> bool) (a : ascii) (n : nat) :
  P a = true -> allChars P (repeatChar a n) = true.
Proof. intros H; induction n; simpl; [reflexivity|]. now rewrite H, IHn. Qed.

Lemma allChars_take (P : ascii -> bool) (n : nat) (s : string) :
  allChars P s = true -> allChars P (take n s) = true.
Proof.
  revert s; induction n as [|n IH]; intros [|a s]; simpl; auto.
  intros H. apply andb_true_iff in H as [Ha Hs]. now rewrite Ha, IH.
Qed.

Lemma toInt32_range (z : Z) : - 2 ^ 31 <= toInt32 z < 2 ^ 31.
Proof.
  unfold toInt32.
  pose proof (Z.mod_pos_bound (z + 2 ^ 31) (2 ^ 32) ltac:(lia)). lia.
Qed.

Lemma toInt32_id (z : Z) : - 2 ^ 31 <= z < 2 ^ 31 -> toInt32 z = z.
Proof.
  intros H. unfold toInt32. rewrite Z.mod_small; lia.
Qed.

Lemma hexDigit_lower (d : Z) : 0 <= d < 16 -> isLowerHex (hexDigit d) = true.
Proof.
  intros H.
  assert (E : exists n : nat, (n < 16)%nat /\ d = Z.of_nat n)
    by (exists (Z.to_nat d); lia).
  destruct E as (n & Hn & ->).
  do 16 (destruct n as [|n]; [reflexivity|]). lia.
Qed.

Lemma hexDigits_lower (fuel : nat) (n : Z) (acc : string) :
  allChars isLowerHex acc = true ->
  allChars isLowerHex (hexDigits fuel n acc) = true.
Proof.
  revert n acc; induction fuel as [|fuel IH]; intros n acc Hacc; simpl;
    pose proof (Z.mod_pos_bound n 16 ltac:(lia)) as Hm.
  - now rewrite hexDigit_lower.
  - destruct (n / 16 =? 0).
    + simpl. now rewrite hexDigit_lower.
    + apply IH. simpl. now rewrite hexDigit_lower.
Qed.

(** A number below [16 ^ k] has at most [k] digits. *)
Lemma hexDigits_length (fuel k : nat) (n : Z) (acc : string) :
  0 <= n < 16 ^ Z.of_nat (S k) ->
  (String.length (hexDigits fuel n acc) <= S k + String.length acc)%nat.
Proof.
  revert k n acc; induction fuel as [|fuel IH]; intros k n acc Hn; simpl; [lia|].
  destruct (n / 16 =? 0) eqn:E; simpl; [lia|].
  apply Z.eqb_neq in E.
  destruct k as [|k].
  - exfalso. apply E. apply Z.div_small. simpl in Hn. lia.
  - specialize (IH k (n / 16) (String (hexDigit (n mod 16)) acc)).
    simpl String.length in IH.
    assert (0 <= n / 16 < 16 ^ Z.of_nat (S k)).
    { split; [apply Z.div_pos; lia|].
      apply Z.div_lt_upper_bound; [lia|].
      replace (Z.of_nat (S (S k))) with (Z.of_nat (S k) + 1) in Hn by lia.
      rewrite Z.pow_add_r in Hn by lia. lia. }
    specialize (IH ltac:(assumption)). lia.
Qed.

Lemma hexDigitValue_hexDigit (d : Z) :
  0 <= d < 16 -> hexDigitValue (hexDigit d) = d.
Proof.
  intros H.
  assert (E : exists n : nat, (n < 16)%nat /\ d = Z.of_nat n)
    by (exists (Z.to_nat d); lia).
  destruct E as (n & Hn & ->).
  do 16 (destruct n as [|n]; [reflexivity|]). lia.
Qed.

Lemma hexValueFrom_append (x y : string) (acc : Z) :
  hexValueFrom (x +:+ y) acc = hexValueFrom y (hexValueFrom x acc).
Proof. revert acc; induction x as [|a x IH]; intros acc; simpl; [reflexivity|apply IH]. Qed.

(** The digits are those of the number, most significant first. *)
Lemma hexDigits_value (fuel : nat) (n : Z) (acc : string) :
  0 <= n < 16 ^ Z.of_nat (S fuel) ->
  exists ds, hexDigits fuel n acc = ds +:+ acc /\ hexValueFrom ds 0 = n.
Proof.
  revert n acc; induction fuel as [|fuel IH]; intros n acc Hn;
    pose proof (Z.mod_pos_bound n 16 ltac:(lia)) as Hm;
    pose proof (Z.div_mod n 16 ltac:(lia)) as Hdm.
  - exists (String (hexDigit (n mod 16)) EmptyString). split; [reflexivity|].
    simpl. rewrite hexDigitValue_hexDigit by lia.
    change (16 ^ Z.of_nat 1) with 16 in Hn. rewrite Z.mod_small; lia.
  - cbn [hexDigits]. destruct (n / 16 =? 0) eqn:E.
    + apply Z.eqb_eq in E.
      exists (String (hexDigit (n mod 16)) EmptyString). split; [reflexivity|].
      simpl. rewrite hexDigitValue_hexDigit by lia. lia.
    + destruct (IH (n / 16) (String (hexDigit (n mod 16)) acc)) as (ds & Hds & Hv).
      { split; [apply Z.div_pos; lia|].
        apply Z.div_lt_upper_bound; [lia|].
        replace (Z.of_nat (S (S fuel))) with (Z.of_nat (S fuel) + 1) in Hn by lia.
        rewrite Z.pow_add_r in Hn by lia. lia. }
      exists (ds +:+ String (hexDigit (n mod 16)) EmptyString). split.
      * rewrite Hds. now rewrite append_assoc.
      * rewrite hexValueFrom_append, Hv. simpl.
        rewrite hexDigitValue_hexDigit by lia. lia.
Qed.

(** [toString16] writes the number it is given. *)
Lemma toString16_value (n : Z) : 0 <= n -> hexValue (toString16 n) = n.
Proof.
  intros Hn. unfold toString16, hexValue.
  destruct (hexDigits_value (Z.to_nat (Z.log2 n)) n EmptyString) as (ds & Hds & Hv).
  - split; [exact Hn|].
    destruct (Z.eq_dec n 0) as [->|Hne]; [reflexivity|].
    pose proof (Z.log2_spec n ltac:(lia)) as [_ Hlt].
    pose proof (Z.log2_nonneg n) as Hlog.
    rewrite Nat2Z.inj_succ, Z2Nat.id by exact Hlog.
    eapply Z.lt_le_trans; [exact Hlt|].
    apply Z.pow_le_mono_l. lia.
  - rewrite Hds, append_empty_r. exact Hv.
Qed.

End JSFacts.

(** ** Prefixes, occurrences and the last piece of a split *)

Module StringFacts.
Import JS JSFacts.
Local Arguments String.append : simpl nomatch.

Lemma startsWith_spec (q s : string) :
  startsWith q s = true <-> exists b, s = q +:+ b.
Proof.
  revert s; induction q as [|a q IH]; intros s; simpl.
  - split; [intros _; now exists s|reflexivity].
  - destruct s as [|b s].
    + split; [discriminate|]. intros [r Hr]. discriminate.
    + rewrite andb_true_iff, Ascii.eqb_eq, IH. split.
      * intros [-> [r ->]]. now exists r.
      * intros [r Hr]. simpl in Hr. injection Hr as -> ->. eauto.
Qed.

Lemma startsWith_append (q b : string) : startsWith q (q +:+ b) = true.
Proof. apply startsWith_spec. now exists b. Qed.

(** [s.includes(q)]: [q] occurs somewhere in [s]. *)
Lemma includes_spec (q s : string) :
  includes q s = true <-> exists a b, s = a +:+ q +:+ b.
Proof.
  induction s as [|c s IH]; simpl.
  - rewrite orb_false_r, startsWith_spec. split.
    + intros [b Hb]. now exists EmptyString, b.
    + intros (a & b & H). destruct a as [|x a]; [|discriminate].
      now exists b.
  - rewrite orb_true_iff, startsWith_spec, IH. split.
    + intros [[b Hb]|(a & b & ->)].
      * now exists EmptyString, b.
      * now exists (String c a), b.
    + intros (a & b & H). destruct a as [|x a].
      * left. now exists b.
      * right. simpl in H. injection H as -> ->. now exists a, b.
Qed.

Lemma includes_false_append (q a b : string) :
  includes q (a +:+ b) = false -> includes q a = false /\ includes q b = false.
Proof.
  intros H. split.
  - destruct (includes q a) eqn:E; [|reflexivity].
    apply includes_spec in E as (x & y & ->).
    rewrite <- H. symmetry. apply includes_spec. exists x, (y +:+ b).
    now rewrite !append_assoc.
  - destruct (includes q b) eqn:E; [|reflexivity].
    apply includes_spec in E as (x & y & ->).
    rewrite <- H. symmetry. apply includes_spec. exists (a +:+ x), y.
    now rewrite !append_assoc.
Qed.

(** The pieces of [front:l] are pieces that depend on [front] alone,
    followed by the pieces of [l]. *)
Lemma split_append (c : ascii) (front : string) :
  exists p pre, forall l,
    split c (front +:+ String c l) = (p :: pre) ++ split c l.
Proof.
  induction front as [|x front (p & pre & IH)]; simpl.
  - exists EmptyString, []. intros l. now rewrite Ascii.eqb_refl.
  - destruct (Ascii.eqb x c).
    + exists EmptyString, (p :: pre). intros l. now rewrite IH.
    + exists (String x p), pre. intros l. now rewrite IH.
Qed.

Lemma last_split_append (c : ascii) (front l : string) :
  last (split c (front +:+ String c l)) = last (split c l).
Proof.
  destruct (split_append c front) as (p & pre & ->).
  rewrite last_app.
  pose proof (split_nonempty c l) as Hne.
  destruct (split c l) as [|h t] using rev_ind; [done|].
  now rewrite last_snoc.
Qed.

Lemma last_split_whole (c : ascii) (l : string) :
  hasChar c l = false -> last (split c l) = Some l.
Proof. intros H. now rewrite split_whole. Qed.

(** The last piece has no separator, and the string is that piece alone
    or ends with a separator and that piece. *)
Lemma last_split_inv (c : ascii) (s : string) :
  exists l, last (split c s) = Some l /\ hasChar c l = false /\
            (s = l \/ exists front, s = front +:+ String c l).
Proof.
  induction s as [|x s (l & Hl & Hc & Hs)].
  - exists EmptyString. simpl. auto.
  - simpl. destruct (Ascii.eqb x c) eqn:E.
    + apply Ascii.eqb_eq in E as ->. exists l. split; [|split; [done|]].
      * pose proof (split_nonempty c s). now destruct (split c s).
      * right. destruct Hs as [->|[front ->]].
        -- now exists EmptyString.
        -- now exists (String c front).
    + pose proof (split_nonempty c s) as Hne.
      destruct (split c s) as [|h [|h' t]] eqn:Es; [done| |].
      * simpl in Hl. injection Hl as ->.
        exists (String x l). split; [done|]. split.
        -- simpl. now rewrite E.
        -- destruct Hs as [->|[front ->]]; [now left|].
           exfalso. destruct (split_append c front) as (p & pre & Hp).
           specialize (Hp l). rewrite Es in Hp. pose proof (split_nonempty c l).
           destruct pre, (split c l); simpl in Hp; done.
      * exists l. split; [exact Hl|]. split; [done|]. right.
        destruct Hs as [->|[front ->]].
        -- rewrite split_whole in Es by done. done.
        -- now exists (String x front).
Qed.

Lemma endsWith_spec (p s : string) :
  endsWith p s = true <-> exists x, s = x +:+ p.
Proof.
  unfold endsWith. rewrite andb_true_iff, Nat.leb_le, String.eqb_eq. split.
  - intros [Hle Hd].
    exists (take (String.length s - String.length p) s).
    rewrite <- Hd at 2. now rewrite take_drop_str.
  - intros [x ->]. rewrite length_append. split; [lia|].
    replace (String.length x + String.length p - String.length p)%nat
      with (String.length x) by lia.
    induction x as [|a x IH]; simpl; [now destruct p|exact IH].
Qed.

Lemma take_all (n : nat) (s : string) :
  (String.length s <= n)%nat -> take n s = s.
Proof.
  revert s; induction n as [|n IH]; intros [|a s]; simpl; intros H;
    try reflexivity; try lia.
  rewrite IH; [reflexivity|lia].
Qed.

End StringFacts.
(** ** Identity resolution: [resolveUserId] and [simpleHash] *)

Module ResolverFacts.
Import JS JSFacts UserResolver.
Local Arguments String.append : simpl nomatch.

Lemma hashCodes_range (codes : list Z) (h : Z) :
  - 2 ^ 31 <= h < 2 ^ 31 ->
  - 2 ^ 31 <= fold_left hashStep codes h < 2 ^ 31.
Proof.
  revert h; induction codes as [|c codes IH]; intros h Hh; simpl; [exact Hh|].
  apply IH. unfold hashStep. apply toInt32_range.
Qed.

(** The rendering of a 32-bit hash is eight digits of [0-9a-f]. *)
Lemma renderHash_format (h : Z) :
  - 2 ^ 31 <= h < 2 ^ 31 ->
  String.length (renderHash h) = 8%nat /\
  allChars isLowerHex (renderHash h) = true.
Proof.
  intros Hh. unfold renderHash, padStart, toString16.
  set (fuel := Z.to_nat (Z.log2 (Z.abs h))).
  pose proof (hexDigits_length fuel 7 (Z.abs h) EmptyString) as Hlen.
  simpl String.length in Hlen.
  assert (Hlen' : (String.length (hexDigits fuel (Z.abs h) EmptyString) <= 8)%nat).
  { assert (0 <= Z.abs h < 16 ^ Z.of_nat 8) by (change (16 ^ Z.of_nat 8) with (2 ^ 32); lia).
    specialize (Hlen ltac:(assumption)). lia. }
  split.
  - rewrite length_take_str, length_append, length_repeatChar. lia.
  - apply allChars_take. rewrite allChars_append.
    rewrite allChars_repeatChar by reflexivity.
    now rewrite hexDigits_lower.
Qed.

Lemma simpleHash_format (str : string) :
  String.length (simpleHash str) = 8%nat /\
  allChars isLowerHex (simpleHash str) = true.
Proof.
  unfold simpleHash. apply renderHash_format.
  unfold hashCodes. apply hashCodes_range. lia.
Qed.

Lemma colon_append (x : string) : ":" +:+ x = String ":" x.
Proof. reflexivity. Qed.

(** The split of a key of the shape [first:a:p:rest]. *)
Lemma split_sessionKeyOf (first a p rest : string) :
  noColon first -> noColon a -> noColon p ->
  split ":" (sessionKeyOf first a p rest) = first :: a :: p :: split ":" rest.
Proof.
  unfold noColon, sessionKeyOf. intros Hf Ha Hp.
  rewrite !colon_append.
  rewrite split_cut by assumption.
  rewrite split_cut by assumption.
  rewrite split_cut by assumption.
  reflexivity.
Qed.

Lemma resolveUserId_segments (ctx : AnyContext) (p rest : string) :
  segmentPattern (default EmptyString (sessionKey ctx)) p rest ->
  resolveUserId ctx = p +:+ ":" +:+ rest.
Proof.
  intros (first & a & Hk & Hf & Ha & Hp & Hpne & Hrne).
  unfold resolveUserId. rewrite Hk.
  rewrite split_sessionKeyOf by assumption.
  pose proof (split_nonempty ":" rest) as Hne.
  pose proof (join_split ":" rest) as Hj.
  destruct (split ":" rest) as [|r0 rs] eqn:E; [congruence|].
  cbn [length Nat.leb nth skipn].
  rewrite Hj.
  apply truthy_true in Hpne, Hrne. now rewrite Hpne, Hrne.
Qed.

(** When the pattern branch of [resolveUserId] is taken, the key has the
    segment shape. *)
Lemma resolveUserId_fallback (ctx : AnyContext) :
  let key := default EmptyString (sessionKey ctx) in
  (forall p rest, ~ segmentPattern key p rest) ->
  resolveUserId ctx = fallbackUserId (provider ctx) key.
Proof.
  intros key Hno. unfold resolveUserId. fold key.
  destruct (4 <=? length (split ":" key))%nat eqn:Hlen; [|reflexivity].
  destruct (truthy (nth 2 (split ":" key) EmptyString) &&
            truthy (join ":" (skipn 3 (split ":" key)))) eqn:Ht; [|reflexivity].
  exfalso.
  apply andb_true_iff in Ht as [Hp Hr].
  pose proof (join_split ":" key) as Hj.
  pose proof (split_pieces ":" key) as Hpieces.
  apply Nat.leb_le in Hlen.
  destruct (split ":" key) as [|x0 [|x1 [|x2 [|r0 rs]]]]; simpl in Hlen; try lia.
  cbn [nth skipn] in Hp, Hr.
  apply (Hno x2 (join ":" (r0 :: rs))).
  exists x0, x1.
  inversion Hpieces as [|? ? H0 Hpieces1]; subst.
  inversion Hpieces1 as [|? ? H1 Hpieces2]; subst.
  inversion Hpieces2 as [|? ? H2 _]; subst.
  repeat split; try assumption.
  - rewrite <- Hj. reflexivity.
  - now apply truthy_true.
  - now apply truthy_true.
Qed.

Lemma fallbackUserId_provider (prov key : string) :
  prov <> EmptyString -> key <> EmptyString ->
  fallbackUserId prov key = prov +:+ ":" +:+ simpleHash key.
Proof.
  intros Hp Hk. apply truthy_true in Hp, Hk.
  unfold fallbackUserId. now rewrite Hp, Hk.
Qed.

Lemma fallbackUserId_session (key : string) :
  key <> EmptyString ->
  fallbackUserId EmptyString key = "session:" +:+ simpleHash key.
Proof.
  intros Hk. apply truthy_true in Hk.
  unfold fallbackUserId. simpl. now rewrite Hk.
Qed.

Lemma fallbackUserId_default (prov : string) :
  fallbackUserId prov EmptyString = "default".
Proof. unfold fallbackUserId. simpl. now rewrite andb_false_r. Qed.

Lemma segmentPattern_nonempty (key p rest : string) :
  segmentPattern key p rest -> key <> EmptyString.
Proof.
  intros (first & a & -> & _). unfold sessionKeyOf.
  destruct first; simpl; discriminate.
Qed.

Lemma hasChar_append (c : ascii) (x y : string) :
  hasChar c (x +:+ y) = hasChar c x || hasChar c y.
Proof. induction x as [|b x IH]; simpl; [reflexivity|]. now rewrite IH, orb_assoc. Qed.

Lemma segmentPattern_colon (key p rest : string) :
  segmentPattern key p rest -> hasChar ":" key = true.
Proof.
  intros (first & a & -> & _). unfold sessionKeyOf.
  rewrite hasChar_append, colon_append. simpl. apply orb_true_r.
Qed.

End ResolverFacts.

Import UserResolver.

(** C10: the first segment of the session key is never compared with the
    literal [agent]: for a key [first:a:p:rest] whose first three segments
    contain no colon, with [p] and [rest] not empty, [resolveUserId]
    returns [p:rest] whatever [first] is. *)
Theorem resolveUserId_first_segment_unchecked
    (ctx : AnyContext) (first a p rest : string) :
  sessionKey ctx = Some (sessionKeyOf first a p rest) ->
  noColon first -> noColon a -> noColon p ->
  p <> EmptyString -> rest <> EmptyString ->
  resolveUserId ctx = p +:+ ":" +:+ rest.
Proof.
  intros Hk Hf Ha Hp Hpne Hrne.
  apply ResolverFacts.resolveUserId_segments.
  rewrite Hk. exists first, a. repeat split; assumption.
Qed.

Lemma resolveUserId_first_segment_unchecked_witness :
  resolveUserId roomContext = "telegram:-100:5".
Proof.
  apply (resolveUserId_first_segment_unchecked
           roomContext "room" "main" "telegram" "-100:5");
    solve [reflexivity | discriminate].
Defined.

(** C3, as the code has it: a session key with at least four
    colon-separated segments, a non-empty third segment [p] and a
    non-empty remainder [rest] resolves to [p:rest], whatever its first
    segment; any other key resolves to [provider:hash] when the provider
    and the key are both non-empty, to [session:hash] when only the key
    is, and to [default] when the key is empty or absent; the hash is
    eight characters of [0-9a-f]. *)
Theorem resolveUserId_contract (ctx : AnyContext) :
  let key := default EmptyString (sessionKey ctx) in
  (forall p rest,
      segmentPattern key p rest -> resolveUserId ctx = p +:+ ":" +:+ rest) /\
  ((forall p rest, ~ segmentPattern key p rest) ->
   provider ctx <> EmptyString -> key <> EmptyString ->
   resolveUserId ctx = provider ctx +:+ ":" +:+ simpleHash key) /\
  ((forall p rest, ~ segmentPattern key p rest) ->
   provider ctx = EmptyString -> key <> EmptyString ->
   resolveUserId ctx = "session:" +:+ simpleHash key) /\
  (key = EmptyString -> resolveUserId ctx = "default") /\
  (forall str,
      String.length (simpleHash str) = 8%nat /\
      JS.allChars JS.isLowerHex (simpleHash str) = true).
Proof.
  intros key. repeat split.
  - apply ResolverFacts.resolveUserId_segments.
  - intros Hno Hp Hk.
    rewrite ResolverFacts.resolveUserId_fallback by exact Hno.
    now apply ResolverFacts.fallbackUserId_provider.
  - intros Hno Hp Hk.
    rewrite ResolverFacts.resolveUserId_fallback by exact Hno.
    rewrite Hp. now apply ResolverFacts.fallbackUserId_session.
  - intros Hk.
    rewrite ResolverFacts.resolveUserId_fallback.
    + fold key. rewrite Hk. apply ResolverFacts.fallbackUserId_default.
    + intros p rest Hpat. fold key in Hpat.
      now apply ResolverFacts.segmentPattern_nonempty in Hpat.
  - apply ResolverFacts.simpleHash_format.
  - apply ResolverFacts.simpleHash_format.
Qed.

Lemma resolveUserId_contract_witness :
  resolveUserId plainContext = "discord:05e918d2".
Proof.
  refine (proj1 (proj2 (resolveUserId_contract plainContext)) _ _ _);
    [| discriminate | discriminate].
  intros p rest Hpat.
  apply ResolverFacts.segmentPattern_colon in Hpat. discriminate.
Defined.

(** C3 as stated fails on a key whose first segment is not [agent]: the
    key does not match [agent:<a>:<p>:<rest>], a provider and the key are
    present, and the result is not [provider:hash]. *)
Lemma resolveUserId_contract_counterexample :
  (forall p rest, ~ agentPattern "room:main:telegram:-100:5" p rest) /\
  provider roomContext = "discord" /\
  resolveUserId roomContext = "telegram:-100:5" /\
  resolveUserId roomContext <>
    "discord" +:+ ":" +:+ simpleHash "room:main:telegram:-100:5".
Proof.
  split; [|split; [reflexivity|split; [reflexivity|]]].
  - intros p rest (a & H & _). cbv in H. discriminate.
  - vm_compute. discriminate.
Qed.

(** ** The identity map: [addAliasToIdentityMap] and [buildAliasLookup] *)

Module IdentityFacts.
Import UserResolver.

Lemma allAliases_app (l1 l2 : list IdentityEntry) :
  allAliases (l1 ++ l2) = allAliases l1 ++ allAliases l2.
Proof. unfold allAliases. now rewrite fmap_app, concat_app. Qed.

Lemma allAliases_cons (e : IdentityEntry) (l : list IdentityEntry) :
  allAliases (e :: l) = aliases e ++ allAliases l.
Proof. reflexivity. Qed.

Lemma elem_of_allAliases (a : string) (ids : list IdentityEntry) :
  a ∈ allAliases ids <-> exists e, e ∈ ids /\ a ∈ aliases e.
Proof.
  unfold allAliases. rewrite list_elem_of_In, in_concat. split.
  - intros (l & Hl & Ha). apply list_elem_of_In in Hl, Ha.
    apply list_elem_of_fmap in Hl as (e & -> & He). eauto.
  - intros (e & He & Ha). exists (aliases e).
    rewrite <- !list_elem_of_In. split; [|done].
    apply list_elem_of_fmap. eauto.
Qed.

(** The aliases of a map, cut around the entry at index [i]. *)
Lemma allAliases_middle (ids : list IdentityEntry) (i : nat) (e : IdentityEntry) :
  ids !! i = Some e ->
  allAliases ids =
    allAliases (take i ids) ++ aliases e ++ allAliases (drop (S i) ids).
Proof.
  intros H. rewrite <- (take_drop_middle ids i e H) at 1.
  now rewrite allAliases_app, allAliases_cons.
Qed.

Lemma allAliases_insert (ids : list IdentityEntry) (i : nat) (e e' : IdentityEntry) :
  ids !! i = Some e ->
  allAliases (<[i := e']> ids) =
    allAliases (take i ids) ++ aliases e' ++ allAliases (drop (S i) ids).
Proof.
  intros H. rewrite insert_take_drop by (eapply lookup_lt_Some; eauto).
  now rewrite allAliases_app, allAliases_cons.
Qed.

Lemma NoDup_detach (a : string) (A al B : list string) :
  NoDup (A ++ al ++ B) ->
  NoDup (A ++ filter (fun x => x ≠ a) al ++ B) /\
  (a ∈ al -> a ∉ A ++ filter (fun x => x ≠ a) al ++ B).
Proof.
  intros H.
  apply NoDup_app in H as (HA & HAB & H).
  apply NoDup_app in H as (Hal & HalB & HB).
  split.
  - apply NoDup_app. split; [done|]. split.
    + intros x Hx Hin. apply (HAB x Hx).
      apply elem_of_app in Hin as [Hin|Hin]; apply elem_of_app; [left|right; done].
      now apply list_elem_of_filter in Hin as [_ Hin].
    + apply NoDup_app. split; [now apply NoDup_filter|]. split; [|done].
      intros x Hx. apply list_elem_of_filter in Hx as [_ Hx]. now apply HalB.
  - intros Ha Hin.
    apply elem_of_app in Hin as [Hin|Hin].
    + apply (HAB a Hin). apply elem_of_app. now left.
    + apply elem_of_app in Hin as [Hin|Hin].
      * apply list_elem_of_filter in Hin as [Hne _]. now apply Hne.
      * now apply (HalB a Ha).
Qed.

Lemma NoDup_attach (a : string) (A al B : list string) :
  NoDup (A ++ al ++ B) -> a ∉ A ++ al ++ B ->
  NoDup (A ++ (al ++ [a]) ++ B).
Proof.
  intros H Ha.
  assert (Hp : A ++ (al ++ [a]) ++ B ≡ₚ a :: (A ++ al ++ B)).
  { rewrite <- (app_assoc al [a] B). simpl.
    rewrite <- (Permutation_middle al B a).
    now rewrite <- (Permutation_middle A (al ++ B) a). }
  rewrite Hp. now apply NoDup_cons.
Qed.

(** In a map with unique aliases an alias has one owner. *)
Lemma alias_owner (ids : list IdentityEntry) (i : nat) (e e' : IdentityEntry)
    (a : string) :
  NoDup (allAliases ids) ->
  ids !! i = Some e -> a ∈ aliases e ->
  e' ∈ ids -> a ∈ aliases e' -> e' = e.
Proof.
  intros Hnd Hi Ha He' Ha'.
  rewrite (allAliases_middle ids i e Hi) in Hnd.
  rewrite <- (take_drop_middle ids i e Hi) in He'.
  apply NoDup_app in Hnd as (_ & H1 & Hnd).
  apply NoDup_app in Hnd as (_ & H2 & _).
  apply elem_of_app in He' as [He'|He'].
  - exfalso. apply (H1 a).
    + apply elem_of_allAliases. eauto.
    + apply elem_of_app. now left.
  - apply elem_of_cons in He' as [->|He']; [done|].
    exfalso. apply (H2 a Ha). apply elem_of_allAliases. eauto.
Qed.

Lemma NoDup_aliases (ids : list IdentityEntry) (e : IdentityEntry) :
  NoDup (allAliases ids) -> e ∈ ids -> NoDup (aliases e).
Proof.
  intros Hnd He. apply list_elem_of_lookup in He as [i Hi].
  rewrite (allAliases_middle ids i e Hi) in Hnd.
  apply NoDup_app in Hnd as (_ & _ & Hnd).
  now apply NoDup_app in Hnd as (Hnd & _).
Qed.

Lemma occurs_once (a : string) (l : list string) :
  NoDup l -> a ∈ l -> length (filter (fun x => x = a) l) = 1%nat.
Proof.
  induction 1 as [|x l Hx Hnd IH]; intros Ha; [by apply elem_of_nil in Ha|].
  rewrite filter_cons. case_decide as E.
  - subst x. simpl. f_equal.
    destruct (filter (fun x => x = a) l) as [|y l'] eqn:Hf; [done|].
    assert (Hy : y ∈ filter (fun x => x = a) l) by (rewrite Hf; left).
    apply list_elem_of_filter in Hy as [-> Hy]. done.
  - apply IH. apply elem_of_cons in Ha as [->|Ha]; done.
Qed.

Lemma elem_of_insert_inv (ids : list IdentityEntry) (i : nat)
    (x e : IdentityEntry) :
  e ∈ <[i := x]> ids -> e = x \/ e ∈ ids.
Proof.
  intros He. apply list_elem_of_lookup in He as [j Hj].
  apply list_lookup_insert_Some in Hj as [(-> & -> & _)|(_ & Hj)]; [now left|].
  right. apply list_elem_of_lookup. eauto.
Qed.

Lemma attachAlias_spec (ids1 : list IdentityEntry) (c a : string)
    (l : option string) :
  NoDup (allAliases ids1) -> a ∉ allAliases ids1 ->
  added (attachAlias ids1 c a l).1 = true /\
  attached c a (attachAlias ids1 c a l).1
           (identities (attachAlias ids1 c a l).2).
Proof.
  intros Hnd Ha. unfold attachAlias.
  destruct (list_find (fun e => canonical e = c) ids1) as [[j t]|] eqn:Hf.
  - apply list_find_Some in Hf as (Hj & Hc & _).
    rewrite Hj. cbn [default from_option id].
    assert (Hat : a ∉ aliases t).
    { intros Hin. apply Ha. apply elem_of_allAliases. exists t. split; [|done].
      apply list_elem_of_lookup. eauto. }
    rewrite bool_decide_eq_false_2 by done. cbn.
    split; [done|]. repeat split.
    + rewrite (allAliases_insert ids1 j t) by done. cbn.
      apply NoDup_attach; rewrite <- (allAliases_middle ids1 j t) by done; done.
    + apply list_elem_of_insert. eapply lookup_lt_Some; eauto.
    + done.
    + apply elem_of_app. right. left.
    + intros e He Hae. apply elem_of_insert_inv in He as [->|He]; [done|].
      exfalso. apply Ha. apply elem_of_allAliases. eauto.
  - rewrite lookup_app_r by lia. rewrite Nat.sub_diag. cbn.
    rewrite insert_app_r_alt by lia. rewrite Nat.sub_diag. cbn.
    rewrite bool_decide_eq_false_2 by apply not_elem_of_nil. cbn.
    split; [done|]. repeat split.
    + rewrite allAliases_app.
      change (allAliases [withAliases {| canonical := c; aliases := []; label := l |} [a]])
        with [a].
      apply NoDup_app. split; [done|]. split; [|apply NoDup_singleton].
      intros x Hx Hxa. apply list_elem_of_singleton in Hxa as ->. done.
    + apply elem_of_app. right. left.
    + left.
    + intros e He Hae. apply elem_of_app in He as [He|He].
      * exfalso. apply Ha. apply elem_of_allAliases. eauto.
      * now apply list_elem_of_singleton in He.
Qed.

Lemma addAlias_spec (m : IdentityMap) (c a : string) (l : option string) :
  aliasUnique m ->
  attached c a (addAliasToIdentityMap m c a l).1
           (identities (addAliasToIdentityMap m c a l).2) /\
  (added (addAliasToIdentityMap m c a l).1 = false ->
   (addAliasToIdentityMap m c a l).2 = m).
Proof.
  unfold aliasUnique. intros Hnd.
  unfold addAliasToIdentityMap.
  destruct (list_find (fun e => a ∈ aliases e) (identities m))
    as [[i e]|] eqn:Hf.
  - apply list_find_Some in Hf as (Hi & Hae & _).
    destruct (String.eqb (canonical e) c) eqn:Hc.
    + apply String.eqb_eq in Hc. cbn. split; [|done].
      repeat split; try done.
      * apply list_elem_of_lookup. eauto.
      * intros e' He' Hae'. eapply alias_owner; eauto.
    + pose proof (allAliases_middle _ _ _ Hi) as Hmid. rewrite Hmid in Hnd.
      destruct (NoDup_detach a _ _ _ Hnd) as [Hnd' Hnot].
      set (ids1 := <[i := withAliases e (filter (fun x => x ≠ a) (aliases e))]>
                     (identities m)).
      assert (Hall : allAliases ids1 =
                allAliases (take i (identities m)) ++
                filter (fun x => x ≠ a) (aliases e) ++
                allAliases (drop (S i) (identities m))).
      { unfold ids1. now rewrite (allAliases_insert _ i e). }
      destruct (attachAlias_spec ids1 c a l) as [Hadd Hatt].
      * now rewrite Hall.
      * rewrite Hall. now apply Hnot.
      * split; [done|]. intros Hfalse. congruence.
  - apply list_find_None in Hf.
    destruct (attachAlias_spec (identities m) c a l) as [Hadd Hatt].
    + done.
    + intros Hin. apply elem_of_allAliases in Hin as (e & He & Hae).
      rewrite Forall_forall in Hf. now apply (Hf e).
    + split; [done|]. intros Hfalse. congruence.
Qed.

(** Adding a pair that is already there changes nothing. *)
Lemma addAlias_again (m : IdentityMap) (c a : string) (l : option string)
    (r : AddAliasResult) :
  attached c a r (identities m) ->
  addAliasToIdentityMap m c a l = ({| added := false; entry := entry r |}, m).
Proof.
  intros (Hnd & Hin & Hc & Ha & Huniq).
  unfold addAliasToIdentityMap.
  destruct (list_find (fun e => a ∈ aliases e) (identities m))
    as [[i e]|] eqn:Hf.
  - apply list_find_Some in Hf as (Hi & Hae & _).
    assert (e = entry r) as ->.
    { apply Huniq; [|done]. apply list_elem_of_lookup. eauto. }
    rewrite Hc, String.eqb_refl. done.
  - apply list_find_None in Hf. rewrite Forall_forall in Hf.
    now destruct (Hf _ Hin).
Qed.

(** *** The lookup table *)

Lemma fold_aliases_lookup (c : string) (al : list string)
    (lk : gmap string string) (k : string) :
  fold_left (fun lk alias => <[alias := c]> lk) al lk !! k =
    if decide (k ∈ al) then Some c else lk !! k.
Proof.
  revert lk; induction al as [|x al IH]; intros lk; cbn [fold_left].
  - now rewrite decide_False by apply not_elem_of_nil.
  - rewrite IH. destruct (decide (k ∈ al)) as [Hin|Hnin].
    + rewrite decide_True by now right. done.
    + destruct (decide (k = x)) as [->|Hne].
      * rewrite decide_True by left. apply lookup_insert_eq.
      * rewrite decide_False.
        -- now apply lookup_insert_ne.
        -- intros Hin. apply elem_of_cons in Hin as [|]; done.
Qed.

Lemma indexEntry_lookup (lk : gmap string string) (e : IdentityEntry)
    (k : string) :
  indexEntry lk e !! k =
    if decide (k = canonical e \/ k ∈ aliases e) then Some (canonical e)
    else lk !! k.
Proof.
  unfold indexEntry.
  destruct (decide (k = canonical e)) as [->|Hne].
  - rewrite lookup_insert_eq. rewrite decide_True by now left. done.
  - rewrite lookup_insert_ne by done. rewrite fold_aliases_lookup.
    destruct (decide (k ∈ aliases e)).
    + rewrite decide_True by now right. done.
    + rewrite decide_False by (intros [|]; done). done.
Qed.

Lemma lookup_spec (ids : list IdentityEntry) :
  NoDup (allAliases ids) ->
  (forall e e' a, e ∈ ids -> e' ∈ ids ->
                  a ∈ aliases e -> a = canonical e' -> canonical e = a) ->
  forall e, e ∈ ids ->
    (forall a, a ∈ aliases e ->
               fold_left indexEntry ids ∅ !! a = Some (canonical e)) /\
    fold_left indexEntry ids ∅ !! canonical e = Some (canonical e).
Proof.
  induction ids as [|x ids IH] using rev_ind; intros Hnd Hapart e He.
  { now apply elem_of_nil in He. }
  rewrite fold_left_app. cbn [fold_left].
  rewrite allAliases_app in Hnd. cbn in Hnd. rewrite app_nil_r in Hnd.
  apply NoDup_app in Hnd as (Hnd1 & Hdisj & _).
  assert (Hx : x ∈ ids ++ [x]) by (apply elem_of_app; right; left).
  assert (IH' : forall e0, e0 ∈ ids ->
     (forall a, a ∈ aliases e0 ->
        fold_left indexEntry ids ∅ !! a = Some (canonical e0)) /\
     fold_left indexEntry ids ∅ !! canonical e0 = Some (canonical e0)).
  { apply IH; [done|]. intros e1 e2 a H1 H2. apply Hapart; apply elem_of_app; now left. }
  apply elem_of_app in He as [He|He].
  - assert (He' : e ∈ ids ++ [x]) by (apply elem_of_app; now left).
    destruct (IH' e He) as [IHa IHc]. split.
    + intros a Ha. rewrite indexEntry_lookup.
      destruct (decide (a = canonical x \/ a ∈ aliases x)) as [[Hc|Hin]|Hn].
      * f_equal. symmetry. rewrite <- Hc. now apply (Hapart e x a).
      * exfalso. apply (Hdisj a); [|done]. apply elem_of_allAliases. eauto.
      * now apply IHa.
    + rewrite indexEntry_lookup.
      destruct (decide (canonical e = canonical x \/ canonical e ∈ aliases x))
        as [[Hc|Hin]|Hn].
      * now rewrite Hc.
      * f_equal. now apply (Hapart x e (canonical e)).
      * done.
  - apply list_elem_of_singleton in He as ->. split.
    + intros a Ha. rewrite indexEntry_lookup. rewrite decide_True by now right. done.
    + rewrite indexEntry_lookup. rewrite decide_True by now left. done.
Qed.

End IdentityFacts.

(** C8, as the code has it: in a map where no alias string occurs twice,
    [addAliasToIdentityMap] keeps that property; afterwards the alias
    belongs to the returned entry, which is in the map under the requested
    canonical ID, and to no other entry; adding the same pair again
    returns [added = false], changes nothing and finds the alias exactly
    once in the entry; and when, further, no alias is the canonical ID of
    an entry of another canonical ID, [buildAliasLookup] maps every alias
    to the canonical ID of its entry and every canonical ID to itself. *)
Theorem identityMap_alias_uniqueness
    (m : IdentityMap) (c a : string) (l l' : option string) :
  aliasUnique m ->
  let r1 := (addAliasToIdentityMap m c a l).1 in
  let m1 := (addAliasToIdentityMap m c a l).2 in
  aliasUnique m1 /\
  entry r1 ∈ identities m1 /\
  canonical (entry r1) = c /\
  a ∈ aliases (entry r1) /\
  (forall e, e ∈ identities m1 -> a ∈ aliases e -> e = entry r1) /\
  addAliasToIdentityMap m1 c a l' =
    ({| added := false; entry := entry r1 |}, m1) /\
  length (filter (fun x => x = a) (aliases (entry r1))) = 1%nat /\
  (aliasesApartFromCanonicals m ->
   forall lookup, buildAliasLookup (Some m) = Some lookup ->
   forall e, e ∈ identities m ->
     (forall a', a' ∈ aliases e -> lookup !! a' = Some (canonical e)) /\
     lookup !! canonical e = Some (canonical e)).
Proof.
  intros Huniq r1 m1.
  destruct (IdentityFacts.addAlias_spec m c a l Huniq) as [Hatt _].
  fold r1 m1 in Hatt.
  pose proof Hatt as (Hnd & Hin & Hc & Ha & Hown).
  do 5 (split; [done|]).
  split; [now apply IdentityFacts.addAlias_again|].
  split.
  - apply IdentityFacts.occurs_once; [|done].
    eapply IdentityFacts.NoDup_aliases; eauto.
  - intros Hapart lookup Hbuild e He.
    injection Hbuild as <-.
    now apply (IdentityFacts.lookup_spec (identities m) Huniq Hapart e).
Qed.

Lemma identityMap_alias_uniqueness_witness :
  aliasUnique familyMap /\
  addAliasToIdentityMap
    (addAliasToIdentityMap familyMap "alice" "telegram:1" None).2
    "alice" "telegram:1" None =
  ({| added := false;
      entry := entryOf "alice" ["telegram:2"; "telegram:1"] |},
   {| identities := [entryOf "bob" ["discord:7"];
                     entryOf "alice" ["telegram:2"; "telegram:1"]] |}) /\
  (aliasesApartFromCanonicals familyMap /\
   forall lookup, buildAliasLookup (Some familyMap) = Some lookup ->
     lookup !! "discord:7" = Some "bob" /\ lookup !! "bob" = Some "bob").
Proof.
  assert (H : aliasUnique familyMap).
  { unfold aliasUnique. apply (bool_decide_unpack _). vm_compute. exact I. }
  assert (Hapart : aliasesApartFromCanonicals familyMap).
  { intros e e' a He He' Ha ->. cbn in He, He'.
    repeat (apply elem_of_cons in He as [->|He]);
      try (now apply elem_of_nil in He);
      repeat (apply elem_of_cons in He' as [->|He']);
      try (now apply elem_of_nil in He');
      cbn in Ha;
      repeat (apply elem_of_cons in Ha as [Ha|Ha]; [discriminate Ha|]);
      now apply elem_of_nil in Ha. }
  pose proof (identityMap_alias_uniqueness
                familyMap "alice" "telegram:1" None None H) as T.
  split; [exact H|]. split.
  - exact (proj1 (proj2 (proj2 (proj2 (proj2 (proj2 T)))))).
  - split; [exact Hapart|]. intros lookup Hl.
    destruct (proj2 (proj2 (proj2 (proj2 (proj2 (proj2 (proj2 T))))))
                Hapart lookup Hl (entryOf "bob" ["telegram:1"; "discord:7"]))
      as [Hal Hcan]; [left|].
    split; [apply Hal; right; left | exact Hcan].
Defined.

(** C8 as stated fails in two places.  For the lookup table: every alias
    of [collidingMap] belongs to one entry, and the canonical ID [alice]
    is mapped to [bob].  For the number of occurrences: the alias of
    [repeatingMap] belongs to one entry, adding it again returns
    [added = false], and the entry lists it twice. *)
Lemma identityMap_alias_uniqueness_counterexample :
  (aliasUnique collidingMap /\
   aliasInOneEntry collidingMap /\
   entryOf "alice" ["telegram:2"] ∈ identities collidingMap /\
   exists lookup,
     buildAliasLookup (Some collidingMap) = Some lookup /\
     lookup !! "alice" = Some "bob") /\
  (aliasInOneEntry repeatingMap /\
   addAliasToIdentityMap repeatingMap "alice" "telegram:2" None =
     ({| added := false;
         entry := entryOf "alice" ["telegram:2"; "telegram:2"] |},
      repeatingMap) /\
   length (filter (fun x => x = "telegram:2")
                  (aliases (entryOf "alice" ["telegram:2"; "telegram:2"])))
     = 2%nat).
Proof.
  assert (Huniq : aliasUnique collidingMap).
  { unfold aliasUnique. apply (bool_decide_unpack _). vm_compute. exact I. }
  split; [split; [exact Huniq|split; [|split]]|split; [|split]].
  - intros i j e e' a Hi Hj Ha Ha'.
    destruct (decide (i = j)) as [|Hne]; [done|exfalso].
    assert (He : e ∈ identities collidingMap)
      by (apply list_elem_of_lookup; eauto).
    pose proof (IdentityFacts.alias_owner _ j e' e a Huniq Hj Ha' He Ha) as ->.
    destruct i as [|[|i]], j as [|[|j]]; vm_compute in Hi, Hj;
      try done; simplify_eq.
  - left.
  - eexists. split; [reflexivity|]. vm_compute. reflexivity.
  - intros i j e e' a Hi Hj _ _.
    destruct i as [|i], j as [|j]; cbn in Hi, Hj; done.
  - reflexivity.
  - reflexivity.
Qed.

(** ** Group chats, the alias lookup and the hash *)

Module ResolverMoreFacts.
Import JS JSFacts StringFacts UserResolver.
Local Arguments String.append : simpl nomatch.

Lemma includes_hasChar (c : ascii) (q s : string) :
  hasChar c q = true -> includes q s = true -> hasChar c s = true.
Proof.
  intros Hq Hin. apply includes_spec in Hin as (a & b & ->).
  rewrite !ResolverFacts.hasChar_append, Hq. now rewrite orb_true_r.
Qed.

(** The table maps a key to the canonical ID of the last entry that names
    it. *)
Lemma lookup_last (ids : list IdentityEntry) (k : string) :
  fold_left indexEntry ids ∅ !! k =
    canonical <$> last (filter (mentions k) ids).
Proof.
  induction ids as [|x ids IH] using rev_ind; [done|].
  rewrite fold_left_app. cbn [fold_left].
  rewrite IdentityFacts.indexEntry_lookup, filter_app, last_app.
  rewrite filter_cons, filter_nil.
  destruct (decide (mentions k x)) as [Hm|Hm].
  - rewrite decide_True by exact Hm. done.
  - rewrite decide_False by exact Hm. exact IH.
Qed.

Lemma resolve_last (m : IdentityMap) (rawId : string) :
  resolveCanonicalUserId rawId (buildAliasLookup (Some m)) =
    match last (filter (mentions rawId) (identities m)) with
    | Some e => canonical e
    | None => rawId
    end.
Proof.
  cbn [buildAliasLookup resolveCanonicalUserId].
  rewrite lookup_last. now destruct (last _).
Qed.

Lemma resolveUserId_nonempty (ctx : AnyContext) :
  resolveUserId ctx <> EmptyString.
Proof.
  assert (H : forall x y, x +:+ ":" +:+ y <> EmptyString)
    by (intros [|a x] y; discriminate).
  unfold resolveUserId, fallbackUserId.
  repeat match goal with
         | |- context [if ?b then _ else _] => destruct b
         end; try apply H; discriminate.
Qed.

(** The 32-bit wrap only depends on the residue modulo [2^32]. *)
Lemma toInt32_mod (a b : Z) :
  a mod 2 ^ 32 = b mod 2 ^ 32 -> toInt32 a = toInt32 b.
Proof.
  intros H. unfold toInt32.
  rewrite <- (Zplus_mod_idemp_l a), <- (Zplus_mod_idemp_l b), H. reflexivity.
Qed.

Lemma toInt32_congr (z : Z) : (toInt32 z) mod 2 ^ 32 = z mod 2 ^ 32.
Proof.
  unfold toInt32.
  rewrite Zminus_mod, Zmod_mod, <- Zminus_mod.
  f_equal. lia.
Qed.

Lemma hashStep_poly (x c : Z) :
  hashStep (toInt32 x) c = toInt32 (31 * x + c).
Proof.
  unfold hashStep. rewrite Z.shiftl_mul_pow2 by lia.
  apply toInt32_mod.
  rewrite Zplus_mod, Zminus_mod, !toInt32_congr.
  rewrite (Zmult_mod (toInt32 x)), toInt32_congr, <- Zmult_mod.
  rewrite <- Zminus_mod, <- Zplus_mod. f_equal. lia.
Qed.

Lemma hashCodes_poly (codes : list Z) (x : Z) :
  fold_left hashStep codes (toInt32 x) =
    toInt32 (fold_left (fun h c => 31 * h + c) codes x).
Proof.
  revert x; induction codes as [|c codes IH]; intros x; cbn [fold_left];
    [reflexivity|].
  now rewrite hashStep_poly, IH.
Qed.

End ResolverMoreFacts.

Section ResolverExtras.
Import UserResolver Plugin.
Local Arguments String.append : simpl nomatch.

(** X1: [isGroupChat] holds exactly when the session key contains
    [telegram:] and the text after its last colon starts with a hyphen,
    or the key contains [:group:] or [:channel:]; the separate test for a
    hyphen anywhere in the key never decides. *)
Theorem isGroupChat_spec (ctx : AnyContext) :
  let key := default EmptyString (sessionKey ctx) in
  isGroupChat ctx = true <->
    (JS.includes "telegram:" key = true /\
     exists front peer, key = front +:+ ":-" +:+ peer /\ noColon peer) \/
    JS.includes ":group:" key = true \/
    JS.includes ":channel:" key = true.
Proof.
  intros key. unfold isGroupChat. fold key.
  destruct (StringFacts.last_split_inv ":" key) as (l & Hl & Hc & Hs).
  rewrite Hl. split.
  - destruct (JS.includes "telegram:" key) eqn:Ht; cbn [andb].
    + destruct (JS.includes "-" key && JS.startsWith "-" l) eqn:E.
      * intros _. left. split; [reflexivity|].
        apply andb_true_iff in E as [_ E].
        apply StringFacts.startsWith_spec in E as [peer ->].
        destruct Hs as [Hs|[front Hs]].
        -- exfalso. rewrite Hs in Ht.
           apply (ResolverMoreFacts.includes_hasChar ":") in Ht; [|reflexivity].
           congruence.
        -- exists front, peer. split; [exact Hs|].
           unfold noColon. simpl in Hc. exact Hc.
      * destruct (JS.includes ":group:" key || JS.includes ":channel:" key)
          eqn:G; [|discriminate].
        intros _. right. now apply orb_true_iff in G.
    + destruct (JS.includes ":group:" key || JS.includes ":channel:" key)
        eqn:G; [|discriminate].
      intros _. right. now apply orb_true_iff in G.
  - intros [[Ht (front & peer & Hk & Hp)]|G].
    + assert (l = "-" +:+ peer) as ->.
      { rewrite Hk in Hl.
        change (front +:+ ":-" +:+ peer)
          with (front +:+ String ":" ("-" +:+ peer)) in Hl.
        rewrite StringFacts.last_split_append in Hl.
        rewrite JSFacts.split_whole in Hl; [now injection Hl|].
        simpl. exact Hp. }
      assert (Hd : JS.includes "-" key = true).
      { apply StringFacts.includes_spec. exists (front +:+ ":"), peer.
        rewrite Hk. now rewrite !JSFacts.append_assoc. }
      now rewrite Ht, Hd.
    + apply orb_true_iff in G. rewrite G.
      now destruct (_ && _).
Qed.

(** X2: the lookup built from an identity map resolves an ID to the
    canonical ID of the last entry that names it, as its canonical ID or
    as an alias, and leaves an ID that no entry names as it is; without a
    map every ID is left as it is. *)
Theorem resolveCanonicalUserId_last_entry (m : IdentityMap) (rawId : string) :
  resolveCanonicalUserId rawId (buildAliasLookup (Some m)) =
    match last (filter (mentions rawId) (identities m)) with
    | Some e => canonical e
    | None => rawId
    end /\
  resolveCanonicalUserId rawId (buildAliasLookup None) = rawId.
Proof.
  split; [|reflexivity]. apply ResolverMoreFacts.resolve_last.
Qed.

(** X3: the capture hook resolves the user from the context and hands
    the result to [buildAddOptions], which resolves it again.  Where the
    configured user ID and the canonical IDs are not empty and no
    canonical ID is listed as an alias under another canonical ID, the
    second resolution returns what the first returned. *)
Theorem resolveUser_resolved_again
    (identityMap : option IdentityMap) (cfgUserId : string)
    (ctx : option AnyContext) :
  cfgUserId <> EmptyString ->
  (forall m, identityMap = Some m ->
     aliasesApartFromCanonicals m /\
     forall e, e ∈ identities m -> canonical e <> EmptyString) ->
  let aliasLookup := buildAliasLookup identityMap in
  let contextUserId := resolveUser cfgUserId aliasLookup None ctx in
  resolveUser cfgUserId aliasLookup (Some contextUserId) None = contextUserId.
Proof.
  intros Hcfg Hmap aliasLookup contextUserId.
  assert (Hid : exists id, id <> EmptyString /\
                  contextUserId = resolveCanonicalUserId id aliasLookup).
  { unfold contextUserId, resolveUser. cbn [default JS.truthy negb].
    destruct ctx as [c|]; cbn [SleepMode.orElse].
    - destruct (String.eqb (resolveUserId c) "default"); cbn [negb].
      + now exists cfgUserId.
      + exists (resolveUserId c).
        pose proof (ResolverMoreFacts.resolveUserId_nonempty c) as Hne.
        cbn [SleepMode.orElse].
        apply JSFacts.truthy_true in Hne. rewrite Hne.
        split; [now apply JSFacts.truthy_true|reflexivity].
    - now exists cfgUserId. }
  destruct Hid as (id & Hne & Hu).
  assert (Hstable : contextUserId <> EmptyString /\
            resolveCanonicalUserId contextUserId aliasLookup = contextUserId).
  { rewrite Hu. unfold aliasLookup.
    destruct identityMap as [m|]; [|done].
    destruct (Hmap m eq_refl) as [Hapart Hcan].
    rewrite (ResolverMoreFacts.resolve_last m id).
    destruct (last (filter (mentions id) (identities m))) as [e|] eqn:El.
    - apply last_Some in El as [l' El].
      assert (He : e ∈ identities m).
      { assert (e ∈ filter (mentions id) (identities m))
          by (rewrite El; apply elem_of_app; right; left).
        now apply list_elem_of_filter in H as [_ H]. }
      split; [now apply Hcan|].
      rewrite (ResolverMoreFacts.resolve_last m (canonical e)).
      destruct (last (filter (mentions (canonical e)) (identities m)))
        as [e'|] eqn:El'; [|done].
      apply last_Some in El' as [l'' El'].
      assert (He' : e' ∈ filter (mentions (canonical e)) (identities m))
        by (rewrite El'; apply elem_of_app; right; left).
      apply list_elem_of_filter in He' as [[Hm|Hm] He']; [done|].
      now apply (Hapart e' e (canonical e)).
    - split; [done|].
      rewrite (ResolverMoreFacts.resolve_last m id).
      now rewrite El. }
  destruct Hstable as [Hne' Hst].
  unfold resolveUser. cbn [SleepMode.orElse].
  apply JSFacts.truthy_true in Hne'. now rewrite Hne'.
Qed.

Lemma resolveUser_resolved_again_witness :
  resolveUser "default" (buildAliasLookup (Some familyMap))
    (Some (resolveUser "default" (buildAliasLookup (Some familyMap)) None
             (Some {| agentId := None;
                      sessionKey := Some "agent:main:telegram:1";
                      workspaceDir := None; messageProvider := None;
                      messageChannel := None |})))
    None = "bob".
Proof.
  apply (resolveUser_resolved_again (Some familyMap) "default"
           (Some {| agentId := None;
                    sessionKey := Some "agent:main:telegram:1";
                    workspaceDir := None; messageProvider := None;
                    messageChannel := None |})).
  - discriminate.
  - intros m [= <-]. split.
    + intros e e' a He He' Ha ->. cbn in He, He'.
      repeat (apply elem_of_cons in He as [->|He]);
        try (now apply elem_of_nil in He);
        repeat (apply elem_of_cons in He' as [->|He']);
        try (now apply elem_of_nil in He');
        cbn in Ha;
        repeat (apply elem_of_cons in Ha as [Ha|Ha]; [discriminate Ha|]);
        now apply elem_of_nil in Ha.
    + intros e He. cbn in He.
      repeat (apply elem_of_cons in He as [->|He]); try discriminate.
      now apply elem_of_nil in He.
Defined.

(** X4: the eight digits [simpleHash] returns are the absolute value of
    the polynomial hash with the multiplier 31 over the code units,
    wrapped to a signed 32-bit integer: padding and the slice to eight
    characters lose nothing of it. *)
Theorem simpleHash_value (str : string) :
  JS.hexValue (simpleHash str) =
    Z.abs (JS.toInt32 (polyHash (charCodes str))).
Proof.
  unfold simpleHash, hashCodes, polyHash.
  change 0 with (JS.toInt32 0) at 1.
  rewrite ResolverMoreFacts.hashCodes_poly.
  set (h := JS.toInt32 _).
  pose proof (JSFacts.toInt32_range (fold_left (fun h c => 31 * h + c)
                                               (charCodes str) 0)) as Hh.
  fold h in Hh.
  unfold renderHash, JS.padStart.
  set (ds := JS.toString16 (Z.abs h)).
  assert (Hlen : (String.length ds <= 8)%nat).
  { unfold ds, JS.toString16.
    pose proof (JSFacts.hexDigits_length
                  (Z.to_nat (Z.log2 (Z.abs h))) 7 (Z.abs h) EmptyString) as H.
    simpl String.length in H.
    assert (0 <= Z.abs h < 16 ^ Z.of_nat 8)
      by (change (16 ^ Z.of_nat 8) with (2 ^ 32); lia).
    specialize (H ltac:(assumption)). lia. }
  assert (Htake : forall s, (String.length s <= 8)%nat -> JS.take 8 s = s).
  { intros s Hs. rewrite <- (JSFacts.take_drop_str 8 s) at 2.
    assert (JS.drop 8 s = EmptyString) as ->.
    { pose proof (JSFacts.length_drop_str 8 s).
      destruct (JS.drop 8 s); [reflexivity|simpl in *; lia]. }
    now rewrite JSFacts.append_empty_r. }
  rewrite Htake
    by (rewrite JSFacts.length_append, JSFacts.length_repeatChar; lia).
  unfold JS.hexValue. rewrite JSFacts.hexValueFrom_append.
  assert (Hz : forall n, JS.hexValueFrom (JS.repeatChar "0" n) 0 = 0)
    by (induction n; [reflexivity|exact IHn]).
  rewrite Hz. apply JSFacts.toString16_value. lia.
Qed.

End ResolverExtras.

Module AliasRelationFacts.
Import UserResolver.

Lemma owns_insert (ids : list IdentityEntry) (j : nat) (t t' : IdentityEntry)
    (c' b : string) :
  ids !! j = Some t ->
  canonical t' = canonical t ->
  owns (<[j := t']> ids) c' b <->
    (exists i e, i <> j /\ ids !! i = Some e /\ canonical e = c' /\
                 b ∈ aliases e) \/
    (canonical t = c' /\ b ∈ aliases t').
Proof.
  intros Hj Hc. unfold owns. split.
  - intros (e & He & Hce & Hb).
    apply list_elem_of_lookup in He as [i Hi].
    apply list_lookup_insert_Some in Hi as [(-> & -> & _)|[Hne Hi]].
    + right. split; [congruence|done].
    + left. exists i, e. done.
  - intros [(i & e & Hne & Hi & Hce & Hb)|[Hce Hb]].
    + exists e. split; [|done]. apply list_elem_of_lookup. exists i.
      now rewrite list_lookup_insert_ne.
    + exists t'. split; [|split; [congruence|done]].
      apply list_elem_of_lookup. exists j.
      apply list_lookup_insert_Some. left.
      split; [done|]. split; [done|]. now apply lookup_lt_Some in Hj.
Qed.

Lemma owns_lookup (ids : list IdentityEntry) (c' b : string) :
  owns ids c' b <->
  exists i e, ids !! i = Some e /\ canonical e = c' /\ b ∈ aliases e.
Proof.
  unfold owns. split.
  - intros (e & He & H). apply list_elem_of_lookup in He as [i Hi]. eauto.
  - intros (i & e & Hi & H). exists e. split; [|done].
    apply list_elem_of_lookup. eauto.
Qed.

(** The code after the loop adds the pair [(c, a)] and nothing else. *)
Lemma attachAlias_owns (ids1 : list IdentityEntry) (c a : string)
    (l : option string) (c' b : string) :
  owns (identities (attachAlias ids1 c a l).2) c' b <->
    owns ids1 c' b \/ (b = a /\ c' = c).
Proof.
  unfold attachAlias.
  destruct (list_find (fun e => canonical e = c) ids1) as [[j t]|] eqn:Hf.
  - apply list_find_Some in Hf as (Hj & Hct & _).
    rewrite Hj. cbn [from_option]. unfold id.
    destruct (bool_decide (a ∈ aliases t)) eqn:Hin; cbn [snd identities].
    + apply bool_decide_eq_true in Hin. split; [now left|].
      intros [H|[-> ->]]; [done|]. exists t. split; [|done].
      apply list_elem_of_lookup. eauto.
    + apply bool_decide_eq_false in Hin.
      rewrite (owns_insert ids1 j t (withAliases t (aliases t ++ [a])) c' b
                 Hj eq_refl).
      cbn [aliases withAliases]. rewrite owns_lookup. split.
      * intros [(i & e & _ & Hi & H)|[Hc Hb]]; [left; eauto|].
        apply elem_of_app in Hb as [Hb|Hb].
        -- left. exists j, t. done.
        -- apply list_elem_of_singleton in Hb. right. split; congruence.
      * intros [(i & e & Hi & Hc & Hb)|[-> ->]].
        -- destruct (decide (i = j)) as [->|Hne].
           ++ right. rewrite Hj in Hi. injection Hi as <-.
              split; [done|]. apply elem_of_app. now left.
           ++ left. exists i, e. done.
        -- right. split; [done|]. apply elem_of_app. right. left.
  - apply list_find_None in Hf.
    rewrite lookup_app_r by done. rewrite Nat.sub_diag. cbn [lookup list_lookup from_option]. unfold id.
    cbn [aliases]. rewrite bool_decide_eq_false_2
      by apply not_elem_of_nil.
    cbn [snd identities withAliases aliases canonical label app].
    rewrite insert_app_r_alt by done. rewrite Nat.sub_diag.
    cbn [insert list_insert]. unfold owns. split.
    + intros (e & He & Hc & Hb). apply elem_of_app in He as [He|He].
      * left. eauto.
      * apply list_elem_of_singleton in He as ->. cbn in Hc, Hb.
        apply list_elem_of_singleton in Hb. right. done.
    + intros [(e & He & H)|[-> ->]].
      * exists e. split; [|done]. apply elem_of_app. now left.
      * eexists. split; [apply elem_of_app; right; left|].
        cbn. split; [done|]. left.
Qed.

Lemma identityOf_insert (ids : list IdentityEntry) (i : nat)
    (e e' : IdentityEntry) :
  ids !! i = Some e -> identityOf e' = identityOf e ->
  identityOf <$> <[i := e']> ids = identityOf <$> ids.
Proof.
  intros Hi He. rewrite list_fmap_insert, He.
  apply list_insert_id. now rewrite list_lookup_fmap, Hi.
Qed.

Lemma attachAlias_identities (ids1 : list IdentityEntry) (c a : string)
    (l : option string) :
  identityOf <$> identities (attachAlias ids1 c a l).2 =
    (identityOf <$> ids1)
    ++ (if decide (c ∈ canonical <$> ids1) then [] else [(c, l)]).
Proof.
  unfold attachAlias.
  destruct (list_find (fun e => canonical e = c) ids1) as [[j t]|] eqn:Hf.
  - apply list_find_Some in Hf as (Hj & Hct & _).
    rewrite decide_True
      by (apply list_elem_of_fmap; exists t; split; [done|];
          apply list_elem_of_lookup; eauto).
    rewrite app_nil_r, Hj. cbn [from_option]. unfold id.
    destruct (bool_decide (a ∈ aliases t)); cbn [snd identities]; [done|].
    now apply (identityOf_insert ids1 j t).
  - apply list_find_None in Hf.
    rewrite decide_False.
    2:{ intros Hin. apply list_elem_of_fmap in Hin as (e & -> & He).
        rewrite Forall_forall in Hf. now apply (Hf e). }
    rewrite lookup_app_r by done. rewrite Nat.sub_diag. cbn [lookup list_lookup from_option]. unfold id.
    cbn [aliases]. rewrite bool_decide_eq_false_2
      by apply not_elem_of_nil.
    cbn [snd identities withAliases aliases canonical label app].
    rewrite insert_app_r_alt by done. rewrite Nat.sub_diag.
    cbn [insert list_insert]. now rewrite fmap_app.
Qed.

End AliasRelationFacts.

Section AliasRelation.
Import UserResolver.

(** X5: in a map where an alias belongs to one entry at most,
    [addAliasToIdentityMap] changes the alias relation by the requested
    pair alone: afterwards the alias is listed under the requested
    canonical ID and under no other, and every other alias is listed
    under the canonical IDs it was listed under before. *)
Theorem addAliasToIdentityMap_relation
    (m : IdentityMap) (c a : string) (l : option string) :
  aliasInOneEntry m ->
  let m1 := (addAliasToIdentityMap m c a l).2 in
  forall c' b,
    owns (identities m1) c' b <->
      (b = a /\ c' = c) \/ (b <> a /\ owns (identities m) c' b).
Proof.
  intros Hone m1 c' b. unfold m1, addAliasToIdentityMap.
  destruct (list_find (fun e => a ∈ aliases e) (identities m))
    as [[i e]|] eqn:Hf.
  - apply list_find_Some in Hf as (Hi & Hae & _).
    destruct (String.eqb (canonical e) c) eqn:Ec.
    + apply String.eqb_eq in Ec. cbn [snd]. split.
      * intros Ho. destruct (decide (b = a)) as [->|Hne]; [|now right].
        left. split; [done|].
        apply AliasRelationFacts.owns_lookup in Ho as (i2 & e2 & Hi2 & Hc2 & Hb).
        pose proof (Hone i2 i e2 e a Hi2 Hi Hb Hae) as ->.
        congruence.
      * intros [[-> ->]|[_ Ho]]; [|done].
        exists e. split; [|done]. apply list_elem_of_lookup. eauto.
    + apply String.eqb_neq in Ec.
      rewrite AliasRelationFacts.attachAlias_owns.
      rewrite (AliasRelationFacts.owns_insert _ i e
                 (withAliases e (filter (fun a0 => a0 ≠ a) (aliases e)))
                 c' b Hi eq_refl).
      cbn [aliases withAliases].
      rewrite list_elem_of_filter, AliasRelationFacts.owns_lookup. split.
      * intros [[(i2 & e2 & Hne & Hi2 & Hc2 & Hb)|(Hc2 & Hba & Hb)]|[-> ->]].
        -- right. split; [|eauto]. intros ->.
           now pose proof (Hone i2 i e2 e a Hi2 Hi Hb Hae).
        -- right. split; [done|]. eauto.
        -- now left.
      * intros [[-> ->]|(Hba & i2 & e2 & Hi2 & Hc2 & Hb)]; [now right|].
        left. destruct (decide (i2 = i)) as [->|Hne].
        -- right. rewrite Hi in Hi2. injection Hi2 as <-. done.
        -- left. exists i2, e2. done.
  - apply list_find_None in Hf. rewrite Forall_forall in Hf.
    rewrite AliasRelationFacts.attachAlias_owns. split.
    + intros [Ho|[-> ->]]; [|now left]. right. split; [|done].
      intros ->. destruct Ho as (e & He & _ & Ha). now apply (Hf e).
    + intros [[-> ->]|[_ Ho]]; [now right|now left].
Qed.

Lemma addAliasToIdentityMap_relation_witness :
  owns (identities (addAliasToIdentityMap familyMap "alice" "telegram:1"
                      None).2) "alice" "telegram:1" /\
  ~ owns (identities (addAliasToIdentityMap familyMap "alice" "telegram:1"
                        None).2) "bob" "telegram:1" /\
  owns (identities (addAliasToIdentityMap familyMap "alice" "telegram:1"
                      None).2) "bob" "discord:7".
Proof.
  assert (Hone : aliasInOneEntry familyMap).
  { intros i j e e' a Hi Hj Ha Ha'.
    destruct i as [|[|i]], j as [|[|j]]; cbn in Hi, Hj; try done;
      simplify_eq; cbn in Ha, Ha'; exfalso;
      repeat (apply elem_of_cons in Ha as [->|Ha]);
      try (now apply elem_of_nil in Ha);
      repeat (apply elem_of_cons in Ha' as [Ha'|Ha']; [discriminate Ha'|]);
      now apply elem_of_nil in Ha'. }
  pose proof (addAliasToIdentityMap_relation familyMap "alice" "telegram:1"
                None Hone) as T.
  cbn zeta in T. split; [|split].
  - apply T. now left.
  - intros H. apply T in H as [[_ H]|[H _]]; done.
  - apply T. right. split; [done|].
    exists (entryOf "bob" ["telegram:1"; "discord:7"]).
    split; [left|]. split; [done|]. right. left.
Defined.

(** X6: [addAliasToIdentityMap] removes no identity and reorders none:
    the canonical IDs and labels are those of before, in order, followed
    by the requested canonical ID with the given label exactly when no
    entry had that canonical ID; an entry left without aliases stays. *)
Theorem addAliasToIdentityMap_identities
    (m : IdentityMap) (c a : string) (l : option string) :
  identityOf <$> identities (addAliasToIdentityMap m c a l).2 =
    (identityOf <$> identities m)
    ++ (if decide (c ∈ canonical <$> identities m) then [] else [(c, l)]).
Proof.
  unfold addAliasToIdentityMap.
  destruct (list_find (fun e => a ∈ aliases e) (identities m))
    as [[i e]|] eqn:Hf.
  - apply list_find_Some in Hf as (Hi & Hae & _).
    destruct (String.eqb (canonical e) c) eqn:Ec.
    + apply String.eqb_eq in Ec. cbn [snd].
      rewrite decide_True, app_nil_r; [done|].
      apply list_elem_of_fmap. exists e. split; [done|].
      apply list_elem_of_lookup. eauto.
    + rewrite AliasRelationFacts.attachAlias_identities.
      rewrite (AliasRelationFacts.identityOf_insert _ i e) by done.
      assert (Hsame : canonical <$>
                <[i:=withAliases e (filter (fun a0 => a0 ≠ a) (aliases e))]>
                  (identities m) = canonical <$> identities m).
      { rewrite list_fmap_insert. apply list_insert_id.
        now rewrite list_lookup_fmap, Hi. }
      now rewrite Hsame.
  - apply AliasRelationFacts.attachAlias_identities.
Qed.

End AliasRelation.
(** ** The chunker: [chunkForAnalysis] *)

Module ChunkerFacts.
Import JSFacts SleepMode.
Local Arguments String.append : simpl nomatch.

Lemma len_append (a b : string) : JS.len (a +:+ b) = JS.len a + JS.len b.
Proof. unfold JS.len. rewrite length_append. lia. Qed.

Lemma len_pos (s : string) : s <> EmptyString -> 0 < JS.len s.
Proof. destruct s; [congruence|]. unfold JS.len. simpl. lia. Qed.

(** Every rendering starts with the dash of its header line. *)
Lemma renderEntry_head (entry : LogEntry) :
  exists s, renderEntry entry = String "-" s.
Proof.
  unfold renderEntry.
  destruct (map renderMessage (messages entry)) as [|m ms];
    simpl; eexists; reflexivity.
Qed.

Lemma renderEntry_nonempty (entry : LogEntry) :
  renderEntry entry <> EmptyString.
Proof. destruct (renderEntry_head entry) as [s ->]. discriminate. Qed.

Lemma renderGroup_snoc (group : list LogEntry) (entry : LogEntry) :
  renderGroup (group ++ [entry]) = renderGroup group +:+ renderEntry entry.
Proof.
  unfold renderGroup. induction group as [|e g IH]; simpl.
  - apply append_empty_r.
  - rewrite IH. now rewrite append_assoc.
Qed.

Lemma renderGroup_single (entry : LogEntry) :
  renderGroup [entry] = renderEntry entry.
Proof. unfold renderGroup. simpl. apply append_empty_r. Qed.

Lemma renderGroup_head (group : list LogEntry) :
  group <> [] -> exists s, renderGroup group = String "-" s.
Proof.
  destruct group as [|e g]; [congruence|]. intros _.
  unfold renderGroup. simpl.
  destruct (renderEntry_head e) as [s ->]. simpl. eexists; reflexivity.
Qed.

Lemma renderGroup_empty (group : list LogEntry) :
  renderGroup group = EmptyString -> group = [].
Proof.
  destruct group as [|e g]; [reflexivity|]. intros H.
  destruct (renderGroup_head (e :: g)) as [s Hs]; [discriminate|]. congruence.
Qed.

(** A buffer that holds an entry survives [trim]. *)
Lemma trim_renderGroup (group : list LogEntry) :
  group <> [] -> JS.truthy (JS.trim (renderGroup group)) = true.
Proof.
  intros H. destruct (renderGroup_head group H) as [s ->].
  unfold JS.trim. simpl. destruct (JS.trimEnd s); reflexivity.
Qed.

Lemma concatStrings_app (l1 l2 : list string) :
  concatStrings (l1 ++ l2) = concatStrings l1 +:+ concatStrings l2.
Proof.
  induction l1 as [|x l IH]; simpl; [reflexivity|].
  now rewrite IH, append_assoc.
Qed.

Lemma renderGroup_concat (groups : list (list LogEntry)) :
  concatStrings (map renderGroup groups) = renderGroup (concat groups).
Proof.
  induction groups as [|g gs IH]; simpl; [reflexivity|].
  rewrite IH. unfold renderGroup. now rewrite map_app, concatStrings_app.
Qed.

(** The loop cuts the entries into groups of whole entries. *)
Lemma chunkLoop_groups (maxChunkChars : Z) (entries : list LogEntry) :
  forall (done : list (list LogEntry)) (group : list LogEntry),
    chunkInv maxChunkChars done group ->
    exists done' group',
      chunkLoop maxChunkChars entries (map renderGroup done) (renderGroup group)
        = (map renderGroup done', renderGroup group') /\
      concat done' ++ group' = concat done ++ group ++ entries /\
      chunkInv maxChunkChars done' group' /\
      (group' = [] -> entries = [] /\ group = []).
Proof.
  induction entries as [|e rest IH]; intros done group (Hne & Hlim & Hcur).
  - exists done, group. rewrite app_nil_r. repeat split; auto.
  - cbn [chunkLoop].
    destruct ((JS.len (renderGroup group) + JS.len (renderEntry e) >? maxChunkChars)
              && (JS.len (renderGroup group) >? 0)) eqn:Hcond.
    + apply andb_true_iff in Hcond as [_ Hpos].
      assert (Hg : group <> []).
      { intros ->. discriminate Hpos. }
      destruct (IH (done ++ [group]) [e]) as (done' & group' & Hrun & Hcat & Hinv & Hlast).
      { repeat split.
        - apply Forall_app. split; [assumption|]. now constructor.
        - apply Forall_app. split; [assumption|]. now constructor.
        - intros Hlen. simpl in Hlen. lia. }
      exists done', group'. split; [|split; [|split]].
      * rewrite <- Hrun. now rewrite map_app, renderGroup_single.
      * rewrite Hcat, concat_app. simpl. rewrite app_nil_r.
        now rewrite <- !app_assoc.
      * assumption.
      * intros Hnil. destruct (Hlast Hnil) as [_ Habs]. discriminate.
    + destruct (IH done (group ++ [e])) as (done' & group' & Hrun & Hcat & Hinv & Hlast).
      { repeat split; try assumption.
        intros Hlen. rewrite renderGroup_snoc, len_append.
        apply andb_false_iff in Hcond as [Hc|Hc].
        - rewrite Z.gtb_ltb in Hc. apply Z.ltb_ge in Hc. lia.
        - destruct group as [|x g]; [simpl in Hlen; lia|].
          destruct (renderGroup_head (x :: g)) as [s Hs]; [discriminate|].
          rewrite Hs in Hc. discriminate Hc. }
      exists done', group'. split; [|split; [|split]].
      * rewrite <- Hrun. now rewrite renderGroup_snoc.
      * rewrite Hcat. now rewrite <- !app_assoc.
      * assumption.
      * intros Hnil. destruct (Hlast Hnil) as [_ Habs].
        now destruct group.
Qed.

End ChunkerFacts.

Import SleepMode.

(** C2: [chunkForAnalysis] cuts the entries into consecutive groups of
    whole entries and returns the rendering of each group: no entry is cut
    by a chunk boundary, the chunks concatenated are the renderings of all
    entries in order, a chunk of more than one entry is at most
    [maxChunkChars] long, and no entries give no chunks. *)
Theorem chunkForAnalysis_whole_entries
    (entries : list LogEntry) (maxChunkChars : Z) :
  (exists groups : list (list LogEntry),
      concat groups = entries /\
      Forall (fun g => g <> []) groups /\
      chunkForAnalysis entries maxChunkChars = map renderGroup groups /\
      Forall (fun g => (1 < length g)%nat ->
                       JS.len (renderGroup g) <= maxChunkChars) groups) /\
  concatStrings (chunkForAnalysis entries maxChunkChars)
    = concatStrings (map renderEntry entries) /\
  chunkForAnalysis [] maxChunkChars = [].
Proof.
  assert (Hgroups : exists groups : list (list LogEntry),
      concat groups = entries /\
      Forall (fun g => g <> []) groups /\
      chunkForAnalysis entries maxChunkChars = map renderGroup groups /\
      Forall (withinLimit maxChunkChars) groups).
  { destruct (ChunkerFacts.chunkLoop_groups maxChunkChars entries [] [])
      as (done & group & Hrun & Hcat & (Hne & Hlim & Hcur) & Hlast).
    { repeat split; try constructor. intros H. simpl in H. lia. }
    change (map renderGroup []) with (@nil string) in Hrun.
    change (renderGroup []) with EmptyString in Hrun.
    simpl in Hcat. unfold chunkForAnalysis. rewrite Hrun.
    destruct group as [|x g].
    - exists done. rewrite app_nil_r in Hcat. repeat split; assumption.
    - rewrite ChunkerFacts.trim_renderGroup by discriminate.
      exists (done ++ [x :: g]). repeat split.
      + rewrite concat_app. simpl. now rewrite app_nil_r.
      + apply Forall_app. split; [assumption|]. now constructor.
      + now rewrite map_app.
      + apply Forall_app. split; [assumption|]. now constructor. }
  split; [exact Hgroups|]. split; [|reflexivity].
  destruct Hgroups as (groups & Hcat & _ & -> & _).
  rewrite ChunkerFacts.renderGroup_concat. now rewrite Hcat.
Qed.

(** ** The chunker fills its chunks greedily *)

Module GreedyFacts.
Import JSFacts SleepMode ChunkerFacts.
Local Arguments String.append : simpl nomatch.

Lemma renderGroup_app (a b : list LogEntry) :
  renderGroup (a ++ b) = renderGroup a +:+ renderGroup b.
Proof. unfold renderGroup. now rewrite map_app, concatStrings_app. Qed.

Lemma len_nonneg (s : string) : 0 <= JS.len s.
Proof. unfold JS.len. lia. Qed.

(** Entries that fit the limit together stay in the buffer. *)
Lemma chunkLoop_fits (maxChunkChars : Z) (rest pre : list LogEntry) :
  JS.len (renderGroup (pre ++ rest)) <= maxChunkChars ->
  chunkLoop maxChunkChars rest [] (renderGroup pre)
    = ([], renderGroup (pre ++ rest)).
Proof.
  revert pre; induction rest as [|e rest IH]; intros pre Hfit.
  - now rewrite app_nil_r.
  - cbn [chunkLoop].
    replace (pre ++ e :: rest) with ((pre ++ [e]) ++ rest) in *
      by now rewrite <- app_assoc.
    assert (Hle : JS.len (renderGroup pre) + JS.len (renderEntry e)
                  <= maxChunkChars).
    { rewrite renderGroup_app, len_append, renderGroup_snoc, len_append in Hfit.
      pose proof (len_nonneg (renderGroup rest)). lia. }
    replace (JS.len (renderGroup pre) + JS.len (renderEntry e)
             >? maxChunkChars) with false
      by (symmetry; rewrite Z.gtb_ltb; apply Z.ltb_ge; lia).
    cbn [andb]. rewrite <- renderGroup_snoc. now apply IH.
Qed.

(** The loop closes a chunk only when the next entry does not fit. *)
Lemma chunkLoop_greedy (maxChunkChars : Z) (entries : list LogEntry) :
  forall (done : list (list LogEntry)) (group : list LogEntry),
    (group = [] -> done = []) ->
    Forall (fun g => g <> []) done ->
    (forall i g1 x tail,
        (done ++ [group]) !! i = Some g1 ->
        (done ++ [group]) !! S i = Some (x :: tail) ->
        maxChunkChars < JS.len (renderGroup g1) + JS.len (renderEntry x)) ->
    exists done' group',
      chunkLoop maxChunkChars entries (map renderGroup done) (renderGroup group)
        = (map renderGroup done', renderGroup group') /\
      concat done' ++ group' = concat done ++ group ++ entries /\
      (group' = [] -> done' = []) /\
      Forall (fun g => g <> []) done' /\
      (forall i g1 x tail,
          (done' ++ [group']) !! i = Some g1 ->
          (done' ++ [group']) !! S i = Some (x :: tail) ->
          maxChunkChars < JS.len (renderGroup g1) + JS.len (renderEntry x)).
Proof.
  induction entries as [|e rest IH]; intros done group Hempty Hne Hgreedy.
  - exists done, group. now rewrite app_nil_r.
  - cbn [chunkLoop].
    destruct ((JS.len (renderGroup group) + JS.len (renderEntry e)
               >? maxChunkChars)
              && (JS.len (renderGroup group) >? 0)) eqn:Hcond.
    + apply andb_true_iff in Hcond as [Hover Hpos].
      rewrite Z.gtb_ltb in Hover. apply Z.ltb_lt in Hover.
      assert (Hg : group <> []) by (intros ->; discriminate Hpos).
      destruct (IH (done ++ [group]) [e])
        as (done' & group' & Hrun & Hcat & He' & Hne' & Hgr').
      * discriminate.
      * apply Forall_app. split; [done|]. now constructor.
      * intros i g1 x tail H1 H2.
        destruct (decide (S i < length (done ++ [group]))%nat) as [Hlt|Hge].
        -- rewrite lookup_app_l in H1 by lia.
           rewrite lookup_app_l in H2 by lia. now apply (Hgreedy i g1 x tail).
        -- rewrite lookup_app_r in H2 by lia.
           destruct (S i - length (done ++ [group]))%nat eqn:Ei;
             [|now destruct n].
           cbn in H2. injection H2 as -> <-.
           assert (i = length done)
             by (rewrite length_app in Ei, Hge; cbn in Ei, Hge; lia).
           subst i. rewrite lookup_app_l in H1
             by (rewrite length_app; cbn; lia).
           rewrite lookup_app_r, Nat.sub_diag in H1 by lia.
           cbn in H1. injection H1 as <-. lia.
      * exists done', group'. split; [|split; [|done]].
        -- rewrite <- Hrun. now rewrite map_app, renderGroup_single.
        -- rewrite Hcat, concat_app. simpl. rewrite app_nil_r.
           now rewrite <- !app_assoc.
    + destruct (IH done (group ++ [e]))
        as (done' & group' & Hrun & Hcat & He' & Hne' & Hgr').
      * intros H. now destruct group.
      * done.
      * intros i g1 x tail H1 H2.
        destruct (decide (S i < length done)%nat) as [Hlt|Hge].
        -- rewrite lookup_app_l in H1 by lia.
           rewrite lookup_app_l in H2 by lia.
           apply (Hgreedy i g1 x tail); now rewrite lookup_app_l by lia.
        -- rewrite lookup_app_r in H2 by lia.
           destruct (S i - length done)%nat eqn:Ei; [|now destruct n].
           cbn in H2. assert (S i = length done) by lia.
           rewrite lookup_app_l in H1 by lia.
           destruct group as [|x0 t0].
           ++ rewrite (Hempty eq_refl) in H. discriminate H.
           ++ cbn in H2. injection H2 as Hx Ht. subst x tail.
              apply (Hgreedy i g1 x0 t0).
              ** now rewrite lookup_app_l by lia.
              ** rewrite lookup_app_r by lia. now rewrite Ei.
      * exists done', group'. split; [|split; [|done]].
        -- rewrite <- Hrun. now rewrite renderGroup_snoc.
        -- rewrite Hcat. now rewrite <- !app_assoc.
Qed.

End GreedyFacts.

Section Chunker.
Import SleepMode.

(** X15: [chunkForAnalysis] fills its chunks greedily: the chunks are the
    renderings of consecutive non-empty groups of whole entries, and a
    chunk is closed only when the first entry of the next chunk would
    take it over [maxChunkChars]. *)
Theorem chunkForAnalysis_greedy (entries : list LogEntry) (maxChunkChars : Z) :
  exists groups : list (list LogEntry),
    concat groups = entries /\
    Forall (fun g => g <> []) groups /\
    chunkForAnalysis entries maxChunkChars = map renderGroup groups /\
    forall i g1 x tail,
      groups !! i = Some g1 ->
      groups !! S i = Some (x :: tail) ->
      maxChunkChars < JS.len (renderGroup g1) + JS.len (renderEntry x).
Proof.
  destruct (GreedyFacts.chunkLoop_greedy maxChunkChars entries [] [])
    as (done & group & Hrun & Hcat & Hempty & Hne & Hgreedy).
  - done.
  - constructor.
  - intros i g1 x tail H1 H2. now destruct i.
  - change (map renderGroup []) with (@nil string) in Hrun.
    change (renderGroup []) with EmptyString in Hrun.
    simpl in Hcat. unfold chunkForAnalysis. rewrite Hrun.
    destruct group as [|x g].
    + rewrite (Hempty eq_refl) in *. exists [].
      rewrite app_nil_r in Hcat. repeat split; try done.
    + rewrite ChunkerFacts.trim_renderGroup by discriminate.
      exists (done ++ [x :: g]). split; [|split; [|split]].
      * rewrite concat_app. simpl. now rewrite app_nil_r.
      * apply Forall_app. split; [done|]. now constructor.
      * now rewrite map_app.
      * exact Hgreedy.
Qed.

(** X16: entries whose renderings fit [maxChunkChars] together are
    returned as one chunk, the renderings one after the other. *)
Theorem chunkForAnalysis_single (entries : list LogEntry) (maxChunkChars : Z) :
  entries <> [] ->
  JS.len (renderGroup entries) <= maxChunkChars ->
  chunkForAnalysis entries maxChunkChars = [renderGroup entries].
Proof.
  intros Hne Hfit. unfold chunkForAnalysis.
  change EmptyString with (renderGroup []).
  rewrite (GreedyFacts.chunkLoop_fits maxChunkChars entries []) by exact Hfit.
  cbn [app]. now rewrite ChunkerFacts.trim_renderGroup.
Qed.

Lemma chunkForAnalysis_single_witness :
  chunkForAnalysis [sampleEntry "s1" "Hello"; sampleEntry "s2" "World"] 4000
    = [renderGroup [sampleEntry "s1" "Hello"; sampleEntry "s2" "World"]].
Proof.
  apply chunkForAnalysis_single.
  - discriminate.
  - vm_compute. discriminate.
Defined.

End Chunker.
(** ** The result parser: [parseSleepAnalysis] *)

Module ParserFacts.
Import JSFacts Json SleepMode.
Local Arguments String.append : simpl nomatch.

Lemma drop_append (x y : string) : JS.drop (String.length x) (x +:+ y) = y.
Proof. induction x as [|a x IH]; simpl; [now destruct y|exact IH]. Qed.

Lemma take_append (x y : string) : JS.take (String.length x) (x +:+ y) = x.
Proof. induction x as [|a x IH]; simpl; [now destruct y|now rewrite IH]. Qed.

Lemma endsWith_append (x p : string) : JS.endsWith p (x +:+ p) = true.
Proof.
  unfold JS.endsWith. rewrite length_append.
  apply andb_true_iff. split.
  - apply Nat.leb_le. lia.
  - replace (String.length x + String.length p - String.length p)%nat
      with (String.length x) by lia.
    rewrite drop_append. apply String.eqb_refl.
Qed.

Lemma trimEnd_append (x y : string) :
  y <> EmptyString -> JS.trimEnd y = y -> JS.trimEnd (x +:+ y) = x +:+ y.
Proof.
  intros Hne Hy. induction x as [|a x IH]; simpl; [exact Hy|].
  rewrite IH. destruct (x +:+ y) eqn:E; [|reflexivity].
  destruct x; simpl in E; congruence.
Qed.

(** A fenced text is handed to [JSON.parse] without its fences. *)
Lemma stripFences_fenced (tag s : string) :
  tag = "json" \/ tag = EmptyString ->
  stripFences (fenced tag s) = s.
Proof.
  intros Htag. unfold stripFences.
  assert (Htrim : JS.trim (fenced tag s) = fenced tag s).
  { assert (Hsplit : fenced tag s
                      = (FENCE +:+ tag +:+ LF +:+ s) +:+ (LF +:+ FENCE)).
    { unfold fenced. now rewrite !append_assoc. }
    unfold JS.trim.
    change (JS.trimStart (fenced tag s)) with (fenced tag s).
    rewrite Hsplit. apply trimEnd_append; [discriminate|reflexivity]. }
  rewrite Htrim.
  assert (Hlead : stripLeadingFence (fenced tag s) = s +:+ LF +:+ FENCE).
  { destruct Htag as [-> | ->]; reflexivity. }
  change (JS.startsWith FENCE (fenced tag s)) with true. cbn iota.
  rewrite Hlead. unfold stripTrailingFence.
  rewrite (endsWith_append s (LF +:+ FENCE)).
  rewrite length_append.
  replace (String.length s + String.length (LF +:+ FENCE) - 4)%nat
    with (String.length s) by (simpl; lia).
  apply take_append.
Qed.

Lemma parseSleepAnalysis_fenced (JSON_parse : string -> option JSON)
    (tag s : string) :
  tag = "json" \/ tag = EmptyString ->
  JS.trim s = s -> JS.startsWith FENCE s = false ->
  parseSleepAnalysis JSON_parse (fenced tag s) = parseSleepAnalysis JSON_parse s.
Proof.
  intros Htag Htrim Hstart. unfold parseSleepAnalysis.
  rewrite stripFences_fenced by exact Htag.
  unfold stripFences. now rewrite Htrim, Hstart.
Qed.

(** A text that is not JSON raises the [SyntaxError]. *)
Lemma parseSleepAnalysis_invalid (JSON_parse : string -> option JSON)
    (response : string) :
  JSON_parse (stripFences response) = None ->
  parseSleepAnalysis JSON_parse response = inl SyntaxError.
Proof. intros H. unfold parseSleepAnalysis. now rewrite H. Qed.

Lemma consolidationOf_ok (c : JSON) :
  c <> JNull ->
  exists ids target,
    getProp c "merge_ids" = inr ids /\ getProp c "into" = inr target /\
    consolidationOf c = inr {| merge_ids := arrayOr ids; into := stringOr target |}.
Proof.
  intros Hc. unfold consolidationOf.
  destruct c; try congruence; simpl; eauto.
Qed.

Lemma mapExn_consolidations (items : list JSON) :
  Forall (fun c => c <> JNull) items ->
  exists cs, mapExn consolidationOf items = inr cs /\
             length cs = length items.
Proof.
  induction 1 as [|c items Hc _ (cs & IH & Hlen)]; simpl; [eauto|].
  destruct (consolidationOf_ok c Hc) as (ids & target & _ & _ & ->).
  rewrite IH. eexists. split; [reflexivity|]. simpl. now rewrite Hlen.
Qed.

(** On a value other than [null] whose consolidation entries are not
    [null], every field is read with its default and nothing is raised. *)
Lemma analysisOf_defaults (parsed : JSON) :
  parsed <> JNull ->
  (forall p, getProp parsed "consolidations" = inr p ->
             Forall (fun c => c <> JNull) (arrayOr p)) ->
  exists hot pats refl conso dig cs,
    getProp parsed "hot_facts" = inr hot /\
    getProp parsed "patterns" = inr pats /\
    getProp parsed "reflections" = inr refl /\
    getProp parsed "consolidations" = inr conso /\
    getProp parsed "digest" = inr dig /\
    mapExn consolidationOf (arrayOr conso) = inr cs /\
    analysisOf parsed =
      inr {| hot_facts := arrayOr hot; patterns := arrayOr pats;
             reflections := arrayOr refl; consolidations := cs;
             digest := stringOr dig |}.
Proof.
  intros Hne Hcons. unfold analysisOf.
  destruct (getProp parsed "hot_facts") as [e|hot] eqn:E1;
    [destruct parsed; simpl in E1; congruence|].
  destruct (getProp parsed "patterns") as [e|pats] eqn:E2;
    [destruct parsed; simpl in E2; congruence|].
  destruct (getProp parsed "reflections") as [e|refl] eqn:E3;
    [destruct parsed; simpl in E3; congruence|].
  destruct (getProp parsed "consolidations") as [e|conso] eqn:E4;
    [destruct parsed; simpl in E4; congruence|].
  destruct (getProp parsed "digest") as [e|dig] eqn:E5;
    [destruct parsed; simpl in E5; congruence|].
  destruct (mapExn_consolidations (arrayOr conso) (Hcons conso eq_refl))
    as (cs & Hcs & _).
  rewrite Hcs. exists hot, pats, refl, conso, dig, cs. repeat split. exact Hcs.
Qed.

Lemma analysisOf_null : analysisOf JNull = inl TypeError.
Proof. reflexivity. Qed.

End ParserFacts.

Import Json.

(** C4 at the inputs where the code departs from it: the texts [null] and
    [{"consolidations":[null]}] are valid JSON, and [parseSleepAnalysis]
    raises a [TypeError] on both. *)
Theorem parseSleepAnalysis_null_raises :
  let text := "{" +:+ quoted "consolidations" +:+ ":[null]}" in
  (Json.parse (stripFences "null") = Some JNull /\
   parseSleepAnalysis Json.parse "null" = inl TypeError) /\
  (Json.parse (stripFences text)
     = Some (JObject [("consolidations", JArray [JNull])]) /\
   parseSleepAnalysis Json.parse text = inl TypeError).
Proof. vm_compute. repeat split. Qed.

(** ** The result parser on fenced and on incomplete replies *)

Module FenceFacts.
Import JSFacts Json SleepMode.
Local Arguments String.append : simpl nomatch.

Lemma trimStart_spaces (ws x : string) :
  JS.allChars JS.isSpace ws = true ->
  JS.trimStart (ws +:+ x) = JS.trimStart x.
Proof.
  induction ws as [|a ws IH]; [reflexivity|]. cbn [JS.allChars].
  intros H. apply andb_true_iff in H as [Ha Hws].
  cbn [String.append JS.trimStart]. rewrite Ha. now apply IH.
Qed.

Lemma trimEnd_all_spaces (ws : string) :
  JS.allChars JS.isSpace ws = true -> JS.trimEnd ws = EmptyString.
Proof.
  induction ws as [|a ws IH]; [reflexivity|]. cbn [JS.allChars].
  intros H. apply andb_true_iff in H as [Ha Hws].
  cbn [JS.trimEnd]. now rewrite (IH Hws), Ha.
Qed.

Lemma trimEnd_spaces (x ws : string) :
  JS.allChars JS.isSpace ws = true ->
  JS.trimEnd (x +:+ ws) = JS.trimEnd x.
Proof.
  intros H. induction x as [|a x IH].
  - cbn [String.append]. now apply trimEnd_all_spaces.
  - cbn [String.append JS.trimEnd]. now rewrite IH.
Qed.

(** White space around a fenced text is dropped. *)
Lemma trim_fenced (ws1 ws2 tag s : string) :
  JS.allChars JS.isSpace ws1 = true ->
  JS.allChars JS.isSpace ws2 = true ->
  JS.trim (ws1 +:+ fenced tag s +:+ ws2) = fenced tag s.
Proof.
  intros H1 H2. unfold JS.trim.
  rewrite trimStart_spaces by exact H1.
  assert (Hstart : forall x, JS.trimStart (fenced tag s +:+ x)
                             = fenced tag s +:+ x) by reflexivity.
  rewrite Hstart, trimEnd_spaces by exact H2.
  assert (Hsplit : fenced tag s
                   = (FENCE +:+ tag +:+ LF +:+ s) +:+ (LF +:+ FENCE)).
  { unfold fenced. now rewrite !append_assoc. }
  rewrite Hsplit. apply ParserFacts.trimEnd_append; [discriminate|reflexivity].
Qed.

Lemma stripFences_padded (ws1 ws2 tag s : string) :
  tag = "json" \/ tag = EmptyString ->
  JS.allChars JS.isSpace ws1 = true ->
  JS.allChars JS.isSpace ws2 = true ->
  stripFences (ws1 +:+ fenced tag s +:+ ws2) = s.
Proof.
  intros Htag H1 H2.
  rewrite <- (ParserFacts.stripFences_fenced tag s Htag) at 2.
  unfold stripFences. rewrite trim_fenced by assumption.
  pose proof (trim_fenced EmptyString EmptyString tag s eq_refl eq_refl)
    as Htrim.
  cbn [String.append] in Htrim. rewrite append_empty_r in Htrim.
  now rewrite Htrim.
Qed.

End FenceFacts.

Section ParserExtras.
Import Json SleepMode.

Variable JSON_parse : string -> option JSON.

(** X26: a reply inside a code fence, with or without the tag [json] and
    with white space around the fences or not, is parsed as the text
    between the fences, whatever that text is: it is the text handed to
    [JSON.parse], and a text that is not JSON raises the [SyntaxError]. *)
Theorem parseSleepAnalysis_fences (ws1 ws2 tag s : string) :
  tag = "json" \/ tag = EmptyString ->
  JS.allChars JS.isSpace ws1 = true ->
  JS.allChars JS.isSpace ws2 = true ->
  parseSleepAnalysis JSON_parse (ws1 +:+ fenced tag s +:+ ws2) =
    match JSON_parse s with
    | None => inl SyntaxError
    | Some parsed => analysisOf parsed
    end.
Proof.
  intros Htag H1 H2. unfold parseSleepAnalysis.
  now rewrite FenceFacts.stripFences_padded.
Qed.

(** X27: when the reply parses to an object whose consolidation entries
    are not [null], nothing is raised: each list field is the array of
    that name, or empty when the member is missing or not an array, the
    digest is the string of that name or empty, and there is one
    consolidation for each entry; a reply that parses to a number, a
    string, a boolean or an array gives the analysis with every field
    empty. *)
Theorem parseSleepAnalysis_defaults
    (response : string) (parsed : JSON) :
  JSON_parse (stripFences response) = Some parsed ->
  (forall members,
     parsed = JObject members ->
     Forall (fun c => c <> JNull)
            (arrayOr (lastMember "consolidations" members)) ->
     exists cs,
       parseSleepAnalysis JSON_parse response =
         inr {| hot_facts := arrayOr (lastMember "hot_facts" members);
                patterns := arrayOr (lastMember "patterns" members);
                reflections := arrayOr (lastMember "reflections" members);
                consolidations := cs;
                digest := stringOr (lastMember "digest" members) |} /\
       mapExn consolidationOf
         (arrayOr (lastMember "consolidations" members)) = inr cs /\
       length cs = length (arrayOr (lastMember "consolidations" members))) /\
  (parsed <> JNull -> (forall members, parsed <> JObject members) ->
   parseSleepAnalysis JSON_parse response = inr emptyAnalysis).
Proof.
  intros Hparse. unfold parseSleepAnalysis. rewrite Hparse. split.
  - intros members -> Hcons.
    destruct (ParserFacts.mapExn_consolidations _ Hcons) as (cs & Hcs & Hlen).
    exists cs. split; [|done].
    unfold analysisOf. cbn [getProp]. now rewrite Hcs.
  - intros Hnull Hobj.
    destruct parsed; try reflexivity; [done|now destruct (Hobj members)].
Qed.

End ParserExtras.

Section ParserExtrasExamples.
Import Json SleepMode Samples.

Lemma parseSleepAnalysis_fences_witness :
  parseSleepAnalysis Json.parse
    ((LF +:+ " ") +:+ fenced "json" doneText +:+ LF)
  = inr doneAnalysis.
Proof.
  rewrite (parseSleepAnalysis_fences Json.parse (LF +:+ " ") LF "json"
             doneText); [vm_compute; reflexivity|now left|reflexivity..].
Defined.

Lemma parseSleepAnalysis_defaults_witness :
  parseSleepAnalysis Json.parse "[1, 2]" = inr emptyAnalysis.
Proof.
  refine (proj2 (parseSleepAnalysis_defaults Json.parse "[1, 2]"
                   (JArray [JNumber "1"; JNumber "2"]) _) _ _).
  - vm_compute. reflexivity.
  - discriminate.
  - discriminate.
Defined.

End ParserExtrasExamples.
(** ** The log store: [findUnprocessedLogs] *)

Module LogStoreFacts.
Import Json SleepMode LogStore.

Lemma ltb_leb (s t : string) : String.ltb s t = true -> String.leb s t = true.
Proof.
  unfold String.ltb, String.leb. now destruct (String.compare s t).
Qed.

Lemma ltb_false_leb (s t : string) :
  String.ltb s t = false -> String.leb t s = true.
Proof.
  unfold String.ltb, String.leb. rewrite (String.compare_antisym t s).
  now destruct (String.compare s t).
Qed.

Section Sorting.

Variable compareFn : LogFile -> LogFile -> Z.

Lemma insertSorted_perm (x : LogFile) (l : list LogFile) :
  insertSorted compareFn x l ≡ₚ x :: l.
Proof.
  induction l as [|y l IH]; simpl; [done|].
  destruct (compareFn x y <? 0); [done|].
  rewrite IH. apply Permutation_swap.
Qed.

Lemma sortFiles_acc_perm (l acc : list LogFile) :
  fold_left (fun sorted x => insertSorted compareFn x sorted) l acc ≡ₚ acc ++ l.
Proof.
  revert acc; induction l as [|x l IH]; intros acc; simpl.
  - now rewrite app_nil_r.
  - rewrite IH, insertSorted_perm. simpl. apply Permutation_middle.
Qed.

Lemma sortFiles_perm (l : list LogFile) : sortFiles compareFn l ≡ₚ l.
Proof. unfold sortFiles. now rewrite sortFiles_acc_perm. Qed.

Lemma elem_of_sortFiles (x : LogFile) (l : list LogFile) :
  x ∈ sortFiles compareFn l <-> x ∈ l.
Proof. now rewrite sortFiles_perm. Qed.

Lemma insertSorted_HdRel (y x : LogFile) (l : list LogFile) :
  dateLe y x -> HdRel dateLe y l -> HdRel dateLe y (insertSorted compareFn x l).
Proof.
  intros Hyx Hl. destruct l as [|z l]; simpl; [now constructor|].
  destruct (compareFn x z <? 0); constructor; [done|].
  now inversion Hl.
Qed.

Lemma insertSorted_sorted (x : LogFile) (l : list LogFile) :
  (forall y, y ∈ l -> agrees compareFn x y) ->
  Sorted dateLe l -> Sorted dateLe (insertSorted compareFn x l).
Proof.
  induction l as [|y l IH]; intros Hag Hs; simpl.
  - repeat constructor.
  - inversion Hs as [|? ? Hs' Hhd]; subst.
    assert (Hy : agrees compareFn x y) by (apply Hag; left).
    unfold agrees in Hy. rewrite Hy.
    destruct (String.ltb (date x) (date y)) eqn:E.
    + constructor; [done|]. constructor. now apply ltb_leb.
    + constructor.
      * apply IH; [|done]. intros z Hz. apply Hag. now right.
      * apply insertSorted_HdRel; [|done]. now apply ltb_false_leb.
Qed.

Lemma sortFiles_acc_sorted (l acc : list LogFile) :
  (forall x y, x ∈ acc ++ l -> y ∈ acc ++ l -> agrees compareFn x y) ->
  Sorted dateLe acc ->
  Sorted dateLe
    (fold_left (fun sorted x => insertSorted compareFn x sorted) l acc).
Proof.
  revert acc; induction l as [|x l IH]; intros acc Hag Hs; simpl; [done|].
  apply IH.
  - intros a b Ha Hb. apply Hag.
    + rewrite insertSorted_perm in Ha. simpl in Ha.
      now rewrite Permutation_middle in Ha.
    + rewrite insertSorted_perm in Hb. simpl in Hb.
      now rewrite Permutation_middle in Hb.
  - apply insertSorted_sorted; [|done].
    intros y Hy. apply Hag; apply elem_of_app; [right; left|now left].
Qed.

Lemma sortFiles_sorted (l : list LogFile) :
  (forall x y, x ∈ l -> y ∈ l -> agrees compareFn x y) ->
  Sorted dateLe (sortFiles compareFn l).
Proof.
  intros Hag. apply sortFiles_acc_sorted; [exact Hag|constructor].
Qed.

End Sorting.

Lemma elem_of_logFilesOf (logDir : string) (names : list string) (f : LogFile) :
  f ∈ logFilesOf logDir names <->
  exists name, name ∈ names /\ JS.endsWith ".jsonl" name = true /\
               f = logFileOf logDir name.
Proof.
  unfold logFilesOf. rewrite list_elem_of_fmap. split.
  - intros (name & -> & Hin). apply list_elem_of_filter in Hin as [He Hin]. eauto.
  - intros (name & Hin & He & ->). exists name. split; [done|].
    now apply list_elem_of_filter.
Qed.

Lemma findUnprocessedLogs_missing (localeCompare : string -> string -> Z)
    (now : string) (fs : FS) (logDir : string) :
  fs !! logDir = None ->
  findUnprocessedLogs localeCompare now fs logDir = inr [].
Proof.
  intros H. unfold findUnprocessedLogs, existsSync. now rewrite H.
Qed.

(** What [findUnprocessedLogs] returns for a directory that lists [names]. *)
Lemma findUnprocessedLogs_dir (localeCompare : string -> string -> Z)
    (now : string) (fs : FS) (logDir : string) (names : list string) :
  fs !! logDir = Some (Dir names) ->
  findUnprocessedLogs localeCompare now fs logDir =
    inr (sortFiles
           (fun a b => localeCompare (date a) (date b))
           (filter (fun f => date f ≠ todayOf now /\
                             date f ∉ getProcessedDates fs logDir)
                   (logFilesOf logDir names))).
Proof.
  intros H. unfold findUnprocessedLogs, existsSync, readdirSync. now rewrite H.
Qed.

Lemma codeUnitCompare_ltb (a b : string) :
  (codeUnitCompare a b <? 0) = String.ltb a b.
Proof.
  unfold codeUnitCompare, String.ltb. now destruct (String.compare a b).
Qed.

End LogStoreFacts.

Section FindUnprocessedLogs.
Import SleepMode LogStore.

(** C5: for a log directory, [findUnprocessedLogs] returns one file for
    each listed name that ends with [.jsonl] and whose date is neither the
    current UTC date nor in the processed set, and no other; the files
    are in ascending order of their date strings where [localeCompare]
    orders the dates of the listed [.jsonl] names as the code units do,
    as it does for dates of the form YYYY-MM-DD; a directory that does
    not exist gives the empty list. *)
Theorem findUnprocessedLogs_spec
    (localeCompare : string -> string -> Z) (now : string)
    (fs : FS) (logDir : string) (names : list string) :
  fs !! logDir = Some (Dir names) ->
  (exists files,
      findUnprocessedLogs localeCompare now fs logDir = inr files /\
      (forall f, f ∈ files <->
         exists name, name ∈ names /\ JS.endsWith ".jsonl" name = true /\
                      f = logFileOf logDir name /\
                      date f ≠ todayOf now /\
                      date f ∉ getProcessedDates fs logDir) /\
      ((forall n1 n2, n1 ∈ names -> n2 ∈ names ->
          JS.endsWith ".jsonl" n1 = true -> JS.endsWith ".jsonl" n2 = true ->
          (localeCompare (basename n1 ".jsonl") (basename n2 ".jsonl") <? 0)
          = String.ltb (basename n1 ".jsonl") (basename n2 ".jsonl")) ->
       Sorted dateLe files)) /\
  (forall fs' dir, fs' !! dir = None ->
     findUnprocessedLogs localeCompare now fs' dir = inr []).
Proof.
  intros Hdir. split.
  - rewrite (LogStoreFacts.findUnprocessedLogs_dir _ _ _ _ _ Hdir).
    eexists. split; [reflexivity|]. split.
    + intros f. rewrite LogStoreFacts.elem_of_sortFiles, list_elem_of_filter.
      rewrite LogStoreFacts.elem_of_logFilesOf. split.
      * intros ((Ht & Hp) & name & Hin & He & ->). exists name. done.
      * intros (name & Hin & He & -> & Ht & Hp). split; [done|]. eauto.
    + intros Hagree. apply LogStoreFacts.sortFiles_sorted. intros x y Hx Hy.
      apply list_elem_of_filter in Hx as [_ Hx], Hy as [_ Hy].
      apply LogStoreFacts.elem_of_logFilesOf in Hx as (n1 & H1 & E1 & ->).
      apply LogStoreFacts.elem_of_logFilesOf in Hy as (n2 & H2 & E2 & ->).
      now apply Hagree.
  - intros fs' dir. apply LogStoreFacts.findUnprocessedLogs_missing.
Qed.

(** With names that are no dates the order of the result is the one of
    the collation: [a] goes before [B], which the code units order the
    other way. *)
Lemma findUnprocessedLogs_spec_counterexample :
  findUnprocessedLogs caseBlindCompare sampleNow collationFs "logs"
    = inr [logFileOf "logs" "a.jsonl"; logFileOf "logs" "B.jsonl"] /\
  ~ Sorted dateLe [logFileOf "logs" "a.jsonl"; logFileOf "logs" "B.jsonl"].
Proof.
  split; [vm_compute; reflexivity|].
  intros H. inversion H as [|? ? _ Hhd]; subst.
  inversion Hhd as [|? ? Hle]; subst.
  vm_compute in Hle. discriminate.
Qed.

Lemma findUnprocessedLogs_spec_witness :
  findUnprocessedLogs caseBlindCompare sampleNow sampleLogFs "logs" =
    inr [logFileOf "logs" "2026-02-03.jsonl";
         logFileOf "logs" "2026-02-05.jsonl"] /\
  Sorted dateLe [logFileOf "logs" "2026-02-03.jsonl";
                 logFileOf "logs" "2026-02-05.jsonl"].
Proof.
  destruct (findUnprocessedLogs_spec
              caseBlindCompare sampleNow sampleLogFs "logs"
              ["2026-02-10.jsonl"; "2026-02-05.jsonl"; ".processed";
               "2026-02-01.jsonl"; "2026-02-03.jsonl"; "notes.txt"])
    as [(files & Hrun & _ & Hsorted) _].
  - reflexivity.
  - assert (Hfiles : files = [logFileOf "logs" "2026-02-03.jsonl";
                              logFileOf "logs" "2026-02-05.jsonl"]).
    { assert (E : findUnprocessedLogs caseBlindCompare sampleNow sampleLogFs
                    "logs"
                  = inr [logFileOf "logs" "2026-02-03.jsonl";
                         logFileOf "logs" "2026-02-05.jsonl"])
        by (vm_compute; reflexivity).
      congruence. }
    rewrite <- Hfiles. split; [exact Hrun|]. apply Hsorted.
    intros n1 n2 H1 H2 _ _.
    repeat (apply elem_of_cons in H1 as [->|H1]);
      [..|now apply elem_of_nil in H1];
      (repeat (apply elem_of_cons in H2 as [->|H2]);
       [..|now apply elem_of_nil in H2]); reflexivity.
Defined.

End FindUnprocessedLogs.

(** ** The file system *)

Module FsFacts.
Import JSFacts StringFacts Json SleepMode LogStore.
Local Arguments String.append : simpl nomatch.

(** *** Paths *)

Lemma dirOf_plain (name : string) :
  JS.hasChar "/" name = false -> dirOf name = None.
Proof.
  induction name as [|c name IH]; [reflexivity|].
  cbn [JS.hasChar dirOf]. intros H. apply orb_false_iff in H as [Hc Hn].
  now rewrite (IH Hn), Hc.
Qed.

Lemma dirOf_join (dir name : string) :
  JS.hasChar "/" name = false -> dirOf (pathJoin dir name) = Some dir.
Proof.
  intros Hn. unfold pathJoin. induction dir as [|c dir IH].
  - change (EmptyString +:+ "/" +:+ name) with (String "/" name).
    cbn [dirOf]. now rewrite (dirOf_plain name Hn).
  - change (String c dir +:+ "/" +:+ name)
      with (String c (dir +:+ "/" +:+ name)).
    cbn [dirOf]. now rewrite IH.
Qed.

Lemma parentOf_join (dir name : string) :
  JS.hasChar "/" name = false ->
  parentOf (pathJoin dir name) = if JS.truthy dir then Some dir else None.
Proof. intros Hn. unfold parentOf. now rewrite (dirOf_join dir name Hn). Qed.

Lemma nameOf_join (dir name : string) :
  JS.hasChar "/" name = false -> nameOf (pathJoin dir name) = name.
Proof.
  intros Hn. unfold nameOf. rewrite (dirOf_join dir name Hn).
  unfold pathJoin. cbn [JS.drop].
  induction dir as [|c dir IH]; [reflexivity|]. exact IH.
Qed.

(** A path is its directory, a slash and its name. *)
Lemma dirOf_split (path dir : string) :
  dirOf path = Some dir -> exists name, path = dir +:+ String "/" name.
Proof.
  revert dir; induction path as [|c path IH]; intros dir; [discriminate|].
  cbn [dirOf]. destruct (dirOf path) as [d|].
  - intros [= <-]. destruct (IH d eq_refl) as [name ->]. now exists name.
  - destruct (Ascii.eqb_spec c "/") as [->|]; [|discriminate].
    intros [= <-]. now exists path.
Qed.

Lemma parentOf_split (path dir : string) :
  parentOf path = Some dir -> exists name, path = dir +:+ String "/" name.
Proof.
  unfold parentOf. destruct (dirOf path) as [d|] eqn:E; [|discriminate].
  destruct (JS.truthy d); [|discriminate]. intros [= <-].
  now apply dirOf_split.
Qed.

Lemma parentOf_ne (path : string) : parentOf path <> Some path.
Proof.
  intros H. apply parentOf_split in H as [name H].
  apply (f_equal String.length) in H. rewrite length_append in H.
  simpl in H. lia.
Qed.

Lemma startsWith_trans (a b c : string) :
  JS.startsWith a b = true -> JS.startsWith b c = true ->
  JS.startsWith a c = true.
Proof.
  rewrite !startsWith_spec. intros [x ->] [y ->].
  exists (x +:+ y). apply append_assoc.
Qed.

Lemma startsWith_refl (a : string) : JS.startsWith a a = true.
Proof. apply startsWith_spec. exists EmptyString. now rewrite append_empty_r. Qed.

Lemma parentOf_prefix (path dir : string) :
  parentOf path = Some dir -> JS.startsWith dir path = true.
Proof.
  intros H. apply parentOf_split in H as [name ->]. apply startsWith_append.
Qed.

(** The directory of a path under [dir] is [dir] or lies under it. *)
Lemma parentOf_under (dir rest p : string) :
  parentOf (dir +:+ String "/" rest) = Some p ->
  p = dir \/ JS.startsWith (dir +:+ "/") p = true.
Proof.
  unfold parentOf.
  destruct (dirOf (dir +:+ String "/" rest)) as [d|] eqn:E; [|discriminate].
  destruct (JS.truthy d); [|discriminate]. intros [= <-].
  revert d E. induction dir as [|c dir IH]; intros d E.
  - change (EmptyString +:+ String "/" rest) with (String "/" rest) in E.
    cbn [dirOf] in E. destruct (dirOf rest) as [d'|].
    + injection E as <-. right. reflexivity.
    + injection E as <-. now left.
  - change (String c dir +:+ String "/" rest)
      with (String c (dir +:+ String "/" rest)) in E.
    cbn [dirOf] in E.
    destruct (dirOf (dir +:+ String "/" rest)) as [d'|] eqn:E'.
    + injection E as <-. destruct (IH d' eq_refl) as [->|H]; [now left|].
      right. change (String c dir +:+ "/") with (String c (dir +:+ "/")).
      cbn [JS.startsWith]. now rewrite Ascii.eqb_refl.
    + exfalso. clear -E'. induction dir as [|a dir IH].
      * change (EmptyString +:+ String "/" rest) with (String "/" rest) in E'.
        cbn [dirOf] in E'. now destruct (dirOf rest).
      * change (String a dir +:+ String "/" rest)
          with (String a (dir +:+ String "/" rest)) in E'.
        cbn [dirOf] in E'.
        destruct (dirOf (dir +:+ String "/" rest)); [discriminate|].
        now apply IH.
Qed.

Lemma ancestorsFrom_prefix (seen rest a : string) :
  a ∈ ancestorsFrom seen rest -> JS.startsWith a (seen +:+ rest) = true.
Proof.
  revert seen; induction rest as [|c r IH]; intros seen.
  - cbn [ancestorsFrom]. intros H. apply list_elem_of_singleton in H as ->.
    rewrite append_empty_r. apply startsWith_refl.
  - cbn [ancestorsFrom]. intros H. apply elem_of_app in H as [H|H].
    + destruct (Ascii.eqb c "/" && JS.truthy seen);
        [|now apply elem_of_nil in H].
      apply list_elem_of_singleton in H as ->. apply startsWith_append.
    + apply IH in H. rewrite append_assoc in H. exact H.
Qed.

Lemma ancestorsFrom_last (seen rest : string) :
  exists front, ancestorsFrom seen rest = front ++ [seen +:+ rest].
Proof.
  revert seen; induction rest as [|c r IH]; intros seen.
  - exists []. cbn. now rewrite append_empty_r.
  - cbn [ancestorsFrom].
    destruct (IH (seen +:+ String c EmptyString)) as [front ->].
    rewrite append_assoc. cbn [String.append].
    eexists. rewrite app_assoc. reflexivity.
Qed.

Lemma ancestors_prefix (path a : string) :
  a ∈ ancestors path -> JS.startsWith a path = true.
Proof. apply (ancestorsFrom_prefix EmptyString). Qed.

Lemma ancestors_self (path : string) : path ∈ ancestors path.
Proof.
  unfold ancestors. destruct (ancestorsFrom_last EmptyString path) as [f ->].
  apply elem_of_app. right. now left.
Qed.

(** *** What a call does to one path *)

Lemma contentAt_eq (fs fs' : FS) (p : string) :
  fs' !! p = fs !! p -> contentAt fs' p = contentAt fs p.
Proof. unfold contentAt. now intros ->. Qed.

Lemma contentAt_grows (fs fs' : FS) (p : string) :
  grows (fs !! p) (fs' !! p) -> contentAt fs' p = contentAt fs p.
Proof. unfold contentAt. now intros (n & n' & -> & ->). Qed.

Lemma enter_lookup (path : string) (fs : FS) (p : string) :
  enter path fs !! p = fs !! p \/
  (parentOf path = Some p /\
   exists names, fs !! p = Some (Dir names) /\
     enter path fs !! p = Some (Dir (listed (nameOf path) names))).
Proof.
  unfold enter. destruct (parentOf path) as [d|] eqn:E; [|now left].
  destruct (fs !! d) as [[c|names]|] eqn:Ed; try now left.
  destruct (decide (p = d)) as [->|Hne].
  - right. split; [done|]. exists names. now rewrite lookup_insert_eq.
  - left. now rewrite lookup_insert_ne.
Qed.

Lemma enter_other (path : string) (fs : FS) (p : string) :
  parentOf path <> Some p -> enter path fs !! p = fs !! p.
Proof. intros H. now destruct (enter_lookup path fs p) as [?|[? _]]. Qed.

Lemma enter_self (path : string) (fs : FS) :
  enter path fs !! path = fs !! path.
Proof. apply enter_other, parentOf_ne. Qed.

(** What a call leaves at [p], for a call that writes at [target]: what
    was there, or a new node in the place of nothing, or a directory in
    the place of a directory. *)
Lemma makeDir_lookup (dir : string) (fs : FS) (p : string) :
  (makeDir dir fs).2 !! p = fs !! p \/
  (p = dir /\ fs !! p = None /\ (makeDir dir fs).2 !! p = Some (Dir [])) \/
  (parentOf dir = Some p /\ grows (fs !! p) ((makeDir dir fs).2 !! p)).
Proof.
  unfold makeDir. destruct (fs !! dir) as [[c|names]|] eqn:E; try now left.
  cbn [snd]. destruct (decide (p = dir)) as [->|Hne].
  - right. left. now rewrite lookup_insert_eq.
  - rewrite lookup_insert_ne by done.
    destruct (enter_lookup dir fs p) as [H|(Hp & names & H1 & H2)];
      [now left|].
    right. right. split; [done|]. now exists names, (listed (nameOf dir) names).
Qed.

Lemma makeDirs_lookup (dirs : list string) (fs : FS) (p : string) :
  (makeDirs dirs fs).2 !! p = fs !! p \/
  (p ∈ dirs /\ fs !! p = None /\ isDir (makeDirs dirs fs).2 p) \/
  ((exists a, a ∈ dirs /\ parentOf a = Some p) /\
   grows (fs !! p) ((makeDirs dirs fs).2 !! p)).
Proof.
  revert fs; induction dirs as [|d dirs IH]; intros fs; [now left|].
  cbn [makeDirs]. unfold bind.
  pose proof (makeDir_lookup d fs p) as H1.
  destruct (makeDir d fs) as [[e|[]] fs1]; cbn [fst snd] in *.
  - destruct H1 as [H1|[(-> & H1 & H2)|(H1 & H2)]]; [now left| |].
    + right. left. split; [left|]. split; [done|]. now exists [].
    + right. right. split; [|done]. exists d. split; [left|done].
  - destruct (IH fs1) as [H2|[(Hin & Hn & Hd)|((a & Hin & Ha) & Hg)]].
    + destruct H1 as [H1|[(-> & H1 & H1')|(H1 & H1')]].
      * left. congruence.
      * right. left. split; [left|]. split; [done|]. exists []. congruence.
      * right. right. split; [|now rewrite H2]. exists d. split; [left|done].
    + destruct H1 as [H1|[(-> & H1 & H1')|(H1 & (n & n' & H1' & H1''))]].
      * right. left. split; [now right|]. split; [congruence|done].
      * congruence.
      * congruence.
    + destruct H1 as [H1|[(-> & H1 & H1')|(H1 & (n & n' & H1' & H1''))]].
      * right. right. split; [exists a; split; [now right|done]|].
        now rewrite <- H1.
      * right. left. split; [left|]. split; [done|].
        destruct Hg as (m & m' & _ & Hm). now exists m'.
      * right. right. split; [exists a; split; [now right|done]|].
        destruct Hg as (m & m' & _ & Hm). now exists n, m'.
Qed.

Lemma makeDirs_contentAt (dirs : list string) (fs : FS) (p : string) :
  contentAt (makeDirs dirs fs).2 p = contentAt fs p.
Proof.
  destruct (makeDirs_lookup dirs fs p) as [H|[(_ & H1 & [n H2])|[_ H]]].
  - now apply contentAt_eq.
  - unfold contentAt. now rewrite H1, H2.
  - now apply contentAt_grows.
Qed.

Lemma makeDirs_isDir (dirs : list string) (fs : FS) (p : string) :
  isDir fs p -> isDir (makeDirs dirs fs).2 p.
Proof.
  intros [n Hn].
  destruct (makeDirs_lookup dirs fs p) as [H|[(_ & H1 & _)|[_ H]]].
  - exists n. congruence.
  - congruence.
  - destruct H as (m & m' & _ & Hm). now exists m'.
Qed.

Lemma makeDirs_ok (dirs : list string) (fs : FS) :
  (forall a, a ∈ dirs -> contentAt fs a = None) ->
  (makeDirs dirs fs).1 = inr tt /\
  forall a, a ∈ dirs -> isDir (makeDirs dirs fs).2 a.
Proof.
  revert fs; induction dirs as [|d dirs IH]; intros fs Hfs.
  - split; [reflexivity|]. intros a Ha. now apply elem_of_nil in Ha.
  - cbn [makeDirs]. unfold bind.
    assert (Hd : contentAt fs d = None) by (apply Hfs; left).
    pose proof (makeDirs_contentAt [d] fs) as Hc.
    pose proof (makeDirs_isDir [d] fs) as Hk.
    assert (Hnew : (makeDir d fs).1 = inr tt /\ isDir (makeDir d fs).2 d).
    { unfold makeDir, contentAt, isDir in *.
      destruct (fs !! d) as [[c|names]|] eqn:E; [discriminate| |]; cbn.
      - split; [done|]. now exists names.
      - split; [done|]. exists []. now rewrite lookup_insert_eq. }
    cbn [makeDirs] in Hc, Hk. unfold bind, ret in Hc, Hk.
    destruct (makeDir d fs) as [[e|[]] fs1]; cbn [fst snd] in *;
      [now destruct Hnew|].
    destruct (IH fs1) as [H1 H2].
    { intros a Ha. rewrite Hc. apply Hfs. now right. }
    split; [exact H1|]. intros a Ha.
    apply elem_of_cons in Ha as [->|Ha]; [|now apply H2].
    apply makeDirs_isDir. now destruct Hnew.
Qed.

(** The recursive [mkdirSync] changes no path that is not on the way to
    the directory. *)
Lemma mkdirSync_other (path : string) (fs : FS) (p : string) :
  JS.startsWith p path = false -> (mkdirSync path fs).2 !! p = fs !! p.
Proof.
  intros Hp. unfold mkdirSync.
  destruct (makeDirs_lookup (ancestors path) fs p)
    as [H|[(Hin & _)|[(a & Hin & Ha) _]]]; [done| |].
  - apply ancestors_prefix in Hin. congruence.
  - apply ancestors_prefix in Hin. apply parentOf_prefix in Ha.
    rewrite (startsWith_trans _ _ _ Ha Hin) in Hp. discriminate.
Qed.

Lemma ensureDir_lookup (dir : string) (fs : FS) (p : string) :
  (ensureDir dir fs).2 !! p = fs !! p \/
  (JS.startsWith p dir = true /\ fs !! p = None /\
   isDir (ensureDir dir fs).2 p) \/
  (JS.startsWith p dir = true /\
   grows (fs !! p) ((ensureDir dir fs).2 !! p)).
Proof.
  unfold ensureDir. destruct (negb (existsSync fs dir)); [|now left].
  unfold mkdirSync.
  destruct (makeDirs_lookup (ancestors dir) fs p)
    as [H|[(Hin & H)|[(a & Hin & Ha) H]]]; [now left| |].
  - right. left. split; [now apply ancestors_prefix|done].
  - right. right. split; [|done].
    apply ancestors_prefix in Hin. apply parentOf_prefix in Ha.
    now apply (startsWith_trans _ _ _ Ha Hin).
Qed.

Lemma ensureDir_other (dir : string) (fs : FS) (p : string) :
  JS.startsWith p dir = false -> (ensureDir dir fs).2 !! p = fs !! p.
Proof.
  intros Hp.
  destruct (ensureDir_lookup dir fs p) as [H|[(H & _)|(H & _)]];
    [done|congruence|congruence].
Qed.

Lemma ensureDir_contentAt (dir : string) (fs : FS) (p : string) :
  contentAt (ensureDir dir fs).2 p = contentAt fs p.
Proof.
  unfold ensureDir. destruct (negb (existsSync fs dir)); [|reflexivity].
  apply makeDirs_contentAt.
Qed.

Lemma ensureDir_isDir (dir : string) (fs : FS) (p : string) :
  isDir fs p -> isDir (ensureDir dir fs).2 p.
Proof.
  unfold ensureDir. destruct (negb (existsSync fs dir)); [|done].
  apply makeDirs_isDir.
Qed.

(** Where no regular file stands on the way, the directory is there
    after [ensureDir]. *)
Lemma ensureDir_ok (dir : string) (fs : FS) :
  (forall a, a ∈ ancestors dir -> contentAt fs a = None) ->
  (ensureDir dir fs).1 = inr tt /\ isDir (ensureDir dir fs).2 dir.
Proof.
  intros Hfs. unfold ensureDir, existsSync.
  pose proof (Hfs dir (ancestors_self dir)) as Hd. unfold contentAt in Hd.
  destruct (fs !! dir) as [[c|names]|] eqn:E; [discriminate| |]; cbn.
  - split; [done|]. now exists names.
  - destruct (makeDirs_ok (ancestors dir) fs Hfs) as [H1 H2].
    split; [exact H1|]. apply H2, ancestors_self.
Qed.

(** *** Writing a file *)

Lemma inDirectory_join (fs : FS) (dir name : string) :
  JS.hasChar "/" name = false -> isDir fs dir ->
  inDirectory fs (pathJoin dir name) = true.
Proof.
  intros Hn [names Hd]. unfold inDirectory.
  rewrite (parentOf_join dir name Hn).
  destruct (JS.truthy dir); [now rewrite Hd|reflexivity].
Qed.

Section Write.

(** [appendFileSync] and [writeFileSync] differ in the content they
    leave in a file that is there. *)
Variable write : string -> string -> M FS unit.
Variable merge : string -> string -> string.
Hypothesis write_def : forall path data fs,
  write path data fs =
    if negb (inDirectory fs path) then (inl (FsError path), fs)
    else
      match fs !! path with
      | Some (File content) => (inr tt, <[path := File (merge content data)]> fs)
      | Some (Dir _) => (inl (FsError path), fs)
      | None => (inr tt, <[path := File data]> (enter path fs))
      end.

Lemma write_failed (path data : string) (fs : FS) (e : Exn) :
  (write path data fs).1 = inl e -> (write path data fs).2 = fs.
Proof.
  rewrite write_def. destruct (negb (inDirectory fs path)); [done|].
  destruct (fs !! path) as [[c|names]|]; cbn; done.
Qed.

Lemma write_lookup (path data : string) (fs : FS) (p : string) :
  (write path data fs).2 !! p = fs !! p \/
  (p = path /\ (forall names, fs !! p <> Some (Dir names)) /\
   exists content, (write path data fs).2 !! p = Some (File content)) \/
  (parentOf path = Some p /\ grows (fs !! p) ((write path data fs).2 !! p)).
Proof.
  rewrite write_def. destruct (negb (inDirectory fs path)); [now left|].
  destruct (fs !! path) as [[c|names]|] eqn:E; cbn [snd]; try now left.
  - destruct (decide (p = path)) as [->|Hne].
    + right. left. split; [done|]. split; [congruence|].
      eexists. apply lookup_insert_eq.
    + left. now rewrite lookup_insert_ne.
  - destruct (decide (p = path)) as [->|Hne].
    + right. left. split; [done|]. split; [congruence|].
      eexists. apply lookup_insert_eq.
    + rewrite lookup_insert_ne by done.
      destruct (enter_lookup path fs p) as [H|(Hp & names & H1 & H2)];
        [now left|].
      right. right. split; [done|].
      now exists names, (listed (nameOf path) names).
Qed.

Lemma write_other (path data : string) (fs : FS) (p : string) :
  p <> path -> parentOf path <> Some p ->
  (write path data fs).2 !! p = fs !! p.
Proof.
  intros H1 H2.
  destruct (write_lookup path data fs p) as [H|[(H & _)|(H & _)]]; done.
Qed.

Lemma write_contentAt (path data : string) (fs : FS) (p : string) :
  p <> path -> contentAt (write path data fs).2 p = contentAt fs p.
Proof.
  intros H1.
  destruct (write_lookup path data fs p) as [H|[(H & _)|(_ & H)]];
    [now apply contentAt_eq|done|now apply contentAt_grows].
Qed.

Lemma write_isDir (path data : string) (fs : FS) (p : string) :
  isDir fs p -> isDir (write path data fs).2 p.
Proof.
  intros [n Hn].
  destruct (write_lookup path data fs p) as [H|[(_ & H & _)|(_ & H)]].
  - exists n. congruence.
  - now destruct (H n).
  - destruct H as (m & m' & _ & Hm). now exists m'.
Qed.

(** In a directory that is there, a write to a path that is no directory
    succeeds. *)
Lemma write_ok (path data : string) (fs : FS) :
  inDirectory fs path = true ->
  (forall names, fs !! path <> Some (Dir names)) ->
  (write path data fs).1 = inr tt /\
  (write path data fs).2 !! path =
    Some (File (match contentAt fs path with
                | Some content => merge content data
                | None => data
                end)).
Proof.
  intros Hin Hnd. rewrite write_def, Hin. unfold contentAt. cbn [negb].
  destruct (fs !! path) as [[c|names]|] eqn:E; cbn [fst snd].
  - now rewrite lookup_insert_eq.
  - now destruct (Hnd names).
  - now rewrite lookup_insert_eq.
Qed.

End Write.

Lemma appendFileSync_def (path data : string) (fs : FS) :
  appendFileSync path data fs =
    if negb (inDirectory fs path) then (inl (FsError path), fs)
    else
      match fs !! path with
      | Some (File content) =>
          (inr tt, <[path := File (content +:+ data)]> fs)
      | Some (Dir _) => (inl (FsError path), fs)
      | None => (inr tt, <[path := File data]> (enter path fs))
      end.
Proof. reflexivity. Qed.

Lemma writeFileSync_def (path data : string) (fs : FS) :
  writeFileSync path data fs =
    if negb (inDirectory fs path) then (inl (FsError path), fs)
    else
      match fs !! path with
      | Some (File content) => (inr tt, <[path := File data]> fs)
      | Some (Dir _) => (inl (FsError path), fs)
      | None => (inr tt, <[path := File data]> (enter path fs))
      end.
Proof. reflexivity. Qed.

End FsFacts.

(** ** The cold search: [searchLogs] *)

Module SearchFacts.
Import JSFacts Json SleepMode LogStore.
Local Arguments String.append : simpl nomatch.

Section Search.

Variable parseLogEntry : string -> option LogEntry.
Variables (query queryLower : string).

Abbreviation resultOf := (resultOf query queryLower).

(** The loop over the entries appends the results of the entries until
    the limit is reached. *)
Lemma searchEntries_take (limit : Z) (entries : list LogEntry)
    (results : list SearchResult) :
  searchEntries query queryLower limit entries results =
    results ++ take (Z.to_nat limit - length results)
                    (flat_map resultOf entries).
Proof.
  revert results; induction entries as [|e rest IH]; intros results;
    cbn [searchEntries flat_map].
  - now rewrite take_nil, app_nil_r.
  - destruct (Z.of_nat (length results) >=? limit) eqn:Hfull.
    + apply Z.geb_le in Hfull.
      replace (Z.to_nat limit - length results)%nat with 0%nat by lia.
      now rewrite take_0, app_nil_r.
    + rewrite Z.geb_leb in Hfull. apply Z.leb_gt in Hfull.
      unfold LogStore.resultOf at 1.
      destruct (firstMatch query queryLower (messages e)) as [ctx|].
      * rewrite IH, length_app. cbn [length app].
        rewrite <- app_assoc. cbn [app]. f_equal.
        replace (Z.to_nat limit - length results)%nat
          with (S (Z.to_nat limit - (length results + 1)))%nat by lia.
        reflexivity.
      * now rewrite IH.
Qed.

Lemma take_take_app {A : Type} (n k : nat) (X Y : list A) :
  k = length (take n X) ->
  take n X ++ take (n - k) Y = take n (X ++ Y).
Proof.
  intros ->. rewrite take_app, length_take. f_equal. f_equal. lia.
Qed.

(** The loop over the files, when every file can be read. *)
Lemma searchFiles_take (fs : FS) (limit : Z) (files : list LogFile)
    (results : list SearchResult) :
  (forall f, f ∈ files ->
     exists entries, readDailyLog parseLogEntry fs (path f) = inr entries) ->
  searchFiles parseLogEntry fs query queryLower limit files results =
    inr (results ++ take (Z.to_nat limit - length results)
                         (allResults parseLogEntry fs query queryLower files)).
Proof.
  revert results; induction files as [|f rest IH]; intros results Hread;
    cbn [searchFiles allResults flat_map].
  - now rewrite take_nil, app_nil_r.
  - destruct (Z.of_nat (length results) >=? limit) eqn:Hfull.
    + apply Z.geb_le in Hfull.
      replace (Z.to_nat limit - length results)%nat with 0%nat by lia.
      now rewrite take_0, app_nil_r.
    + destruct (Hread f) as [entries Hf]; [left|].
      rewrite Hf, searchEntries_take.
      rewrite IH by (intros g Hg; apply Hread; now right).
      unfold entriesAt at 1. rewrite Hf.
      fold (allResults parseLogEntry fs query queryLower rest).
      rewrite <- app_assoc. do 2 f_equal.
      rewrite length_app.
      set (n := (Z.to_nat limit - length results)%nat).
      replace (Z.to_nat limit
               - (length results + length (take n (flat_map resultOf entries))))%nat
        with (n - length (take n (flat_map resultOf entries)))%nat by lia.
      now apply take_take_app.
Qed.

(** An entry contributes a result exactly when it matches. *)
Lemma resultOf_length (e : LogEntry) :
  length (resultOf e) = if matchesQuery queryLower e then 1%nat else 0%nat.
Proof.
  unfold LogStore.resultOf, matchesQuery.
  induction (messages e) as [|m ms IH]; cbn [firstMatch existsb]; [done|].
  destruct (JS.includes queryLower (JS.toLowerCase (content m))); [done|].
  exact IH.
Qed.

Lemma results_length (entries : list LogEntry) :
  length (flat_map resultOf entries) =
  length (filter (fun e => matchesQuery queryLower e = true) entries).
Proof.
  induction entries as [|e rest IH]; cbn [flat_map]; [done|].
  rewrite length_app, resultOf_length, filter_cons.
  destruct (matchesQuery queryLower e); case_decide; try done.
  cbn. now rewrite IH.
Qed.

Lemma allResults_length (fs : FS) (files : list LogFile) :
  length (allResults parseLogEntry fs query queryLower files) =
  length (filter (fun e => matchesQuery queryLower e = true)
                 (flat_map (fun f => entriesAt parseLogEntry fs (path f)) files)).
Proof.
  unfold allResults.
  induction files as [|f rest IH]; cbn [flat_map]; [done|].
  now rewrite length_app, filter_app, length_app, results_length, IH.
Qed.

Lemma matching_length_perm (fs : FS) (files files' : list LogFile) :
  files ≡ₚ files' ->
  length (filter (fun e => matchesQuery queryLower e = true)
                 (flat_map (fun f => entriesAt parseLogEntry fs (path f)) files)) =
  length (filter (fun e => matchesQuery queryLower e = true)
                 (flat_map (fun f => entriesAt parseLogEntry fs (path f)) files')).
Proof.
  intros Hp. apply Permutation_length.
  apply filter_Permutation. now apply Permutation_flat_map.
Qed.

(** The first matching message of an entry. *)
Lemma firstMatch_Some (msgs : list Message) (ctx : string) :
  firstMatch query queryLower msgs = Some ctx ->
  exists before msg after,
    msgs = before ++ msg :: after /\
    (forall m, m ∈ before ->
       JS.includes queryLower (JS.toLowerCase (content m)) = false) /\
    JS.includes queryLower (JS.toLowerCase (content msg)) = true /\
    ctx = contextOf query queryLower (content msg).
Proof.
  induction msgs as [|m ms IH]; cbn [firstMatch]; [discriminate|].
  destruct (JS.includes queryLower (JS.toLowerCase (content m))) eqn:Hm.
  - intros [= <-]. exists [], m, ms. repeat split; try done.
    intros x Hx. now apply elem_of_nil in Hx.
  - intros H. destruct (IH H) as (before & msg & after & -> & Hb & Hin & Hc).
    exists (m :: before), msg, after. repeat split; try done.
    intros x Hx. apply elem_of_cons in Hx as [->|Hx]; [done|now apply Hb].
Qed.

End Search.

(** A file that passes the filter is within the bounds. *)
Lemma inRange_bounds (dateFrom dateTo : option string) (f : LogFile) :
  inRange dateFrom dateTo f = true -> withinBounds dateFrom dateTo (date f).
Proof.
  unfold inRange, withinBounds. intros H.
  apply andb_true_iff in H as [H1 H2].
  apply negb_true_iff in H1, H2. split.
  - intros from -> Hne. apply truthy_true in Hne. rewrite Hne in H1.
    now apply LogStoreFacts.ltb_false_leb.
  - intros to -> Hne. apply truthy_true in Hne. rewrite Hne in H2.
    now apply LogStoreFacts.ltb_false_leb.
Qed.

Lemma length_toLowerCase (s : string) :
  String.length (JS.toLowerCase s) = String.length s.
Proof. induction s; simpl; congruence. Qed.

(** [indexOf] returns the first position at which the query starts. *)
Lemma indexOf_from_first (q s : string) (i : Z) :
  JS.includes q s = true ->
  exists n : nat,
    JS.indexOf_from q s i = i + Z.of_nat n /\
    (n <= String.length s)%nat /\
    JS.startsWith q (JS.drop n s) = true /\
    (forall j, (j < n)%nat -> JS.startsWith q (JS.drop j s) = false).
Proof.
  revert i; induction s as [|a s IH]; intros i; cbn [JS.includes JS.indexOf_from].
  - rewrite orb_false_r. intros H. rewrite H. exists 0%nat.
    repeat split; [lia|done|done|lia].
  - destruct (JS.startsWith q (String a s)) eqn:Hs.
    + intros _. exists 0%nat. repeat split; [lia|simpl; lia|done|lia].
    + cbn [orb]. intros H. destruct (IH (i + 1) H) as (n & Hi & Hn & Hst & Hfirst).
      exists (S n). repeat split.
      * rewrite Hi. lia.
      * simpl. lia.
      * exact Hst.
      * intros [|j] Hj; [exact Hs|]. cbn [JS.drop]. apply Hfirst. lia.
Qed.

(** The snippet: up to 100 code units on each side of the match, with the
    dots where the text goes on. *)
Lemma contextOf_window (query text : string) :
  let queryLower := JS.toLowerCase query in
  JS.includes queryLower (JS.toLowerCase text) = true ->
  exists n : nat,
    let idx := Z.of_nat n in
    let start := Z.max 0 (idx - 100) in
    let stop := Z.min (JS.len text) (idx + JS.len query + 100) in
    JS.indexOf queryLower (JS.toLowerCase text) = idx /\
    JS.startsWith queryLower (JS.drop n (JS.toLowerCase text)) = true /\
    (forall j, (j < n)%nat ->
       JS.startsWith queryLower (JS.drop j (JS.toLowerCase text)) = false) /\
    0 <= start <= idx /\ idx - start <= 100 /\
    stop <= JS.len text /\ stop - (idx + JS.len query) <= 100 /\
    contextOf query queryLower text =
      (if 0 <? start then "..." else EmptyString)
      +:+ JS.substring start stop text
      +:+ (if stop <? JS.len text then "..." else EmptyString).
Proof.
  intros queryLower Hin.
  destruct (indexOf_from_first queryLower (JS.toLowerCase text) 0 Hin)
    as (n & Hidx & Hn & Hst & Hfirst).
  exists n. cbn zeta. unfold JS.indexOf. rewrite Hidx, Z.add_0_l.
  repeat split; try done; try lia.
  unfold contextOf, JS.indexOf. rewrite Hidx, Z.add_0_l.
  now rewrite Z.gtb_ltb.
Qed.

End SearchFacts.

Section SearchLogs.
Import SleepMode LogStore.



End SearchLogs.

(** ** Files written a line at a time: the sentinel and the daily logs *)

Module LogFileFacts.
Import JSFacts StringFacts Json SleepMode LogStore.
Local Arguments String.append : simpl nomatch.

(** Appending a line to closed lines adds that line to the split. *)
Lemma lines_append (content line : string) :
  linesClosed content -> JS.hasChar "010" line = false ->
  exists P, JS.split "010" content = P ++ [EmptyString] /\
            JS.split "010" (content +:+ line +:+ LF)
              = P ++ [line; EmptyString].
Proof.
  intros [->|Hend] Hline.
  - exists []. split; [reflexivity|]. cbn [String.append app].
    unfold LF. now rewrite split_cut.
  - apply endsWith_spec in Hend as [x ->].
    destruct (split_append "010" x) as (p & pre & Hp).
    exists (p :: pre). unfold LF at 1. rewrite Hp. split; [reflexivity|].
    rewrite append_assoc.
    change (LF +:+ line +:+ LF) with (String "010" (line +:+ LF)).
    rewrite Hp. f_equal. unfold LF. now rewrite split_cut.
Qed.

(** Closed lines in front of a text are split off it. *)
Lemma split_closed (content : string) :
  linesClosed content ->
  exists P, forall rest,
    JS.split "010" (content +:+ rest) = P ++ JS.split "010" rest.
Proof.
  intros [->|Hend].
  - now exists [].
  - apply endsWith_spec in Hend as [x ->].
    destruct (split_append "010" x) as (p & pre & Hp).
    exists (p :: pre). intros rest. rewrite append_assoc.
    change (LF +:+ rest) with (String "010" rest). apply Hp.
Qed.

Lemma linesClosed_append (content line : string) :
  linesClosed (content +:+ line +:+ LF).
Proof.
  right. apply endsWith_spec. exists (content +:+ line).
  now rewrite append_assoc.
Qed.

Lemma pathJoin_ne (dir name : string) : pathJoin dir name <> dir.
Proof.
  unfold pathJoin. intros H.
  apply (f_equal String.length) in H.
  rewrite !length_append in H. simpl in H. lia.
Qed.

Lemma getProcessedDates_file (fs : FS) (logDir content : string) :
  fs !! processedFile logDir = Some (File content) ->
  getProcessedDates fs logDir = datesOf (JS.split "010" content).
Proof.
  intros H. unfold getProcessedDates, existsSync, readFileSync.
  now rewrite H.
Qed.

Lemma getProcessedDates_none (fs : FS) (logDir : string) :
  fs !! processedFile logDir = None -> getProcessedDates fs logDir = ∅.
Proof.
  intros H. unfold getProcessedDates, existsSync. now rewrite H.
Qed.

Lemma datesOf_app (l1 l2 : list string) :
  datesOf (l1 ++ l2) = datesOf l1 ∪ datesOf l2.
Proof.
  unfold datesOf. now rewrite map_app, filter_app, list_to_set_app_L.
Qed.

Lemma datesOf_line (line : string) :
  datesOf [line; EmptyString] =
    if JS.truthy (JS.trim line) then {[JS.trim line]} else ∅.
Proof.
  unfold datesOf. cbn [map]. rewrite filter_cons.
  destruct (JS.truthy (JS.trim line)) eqn:E.
  - rewrite decide_True by done. cbn [JS.trim JS.trimStart JS.trimEnd].
    rewrite filter_cons, decide_False by (cbn; discriminate).
    rewrite filter_nil. cbn [list_to_set]. apply union_empty_r_L.
  - rewrite decide_False by congruence. cbn [JS.trim JS.trimStart JS.trimEnd].
    rewrite filter_cons, decide_False by (cbn; discriminate).
    reflexivity.
Qed.

Lemma datesOf_blank : datesOf [EmptyString] = ∅.
Proof. reflexivity. Qed.

(** A date of the form YYYY-MM-DD has no white space and no line feed. *)
Lemma isDateFormat_plain (d : string) :
  Cli.isDateFormat d = true ->
  JS.trim d = d /\ JS.truthy d = true /\ JS.hasChar "010" d = false.
Proof.
  intros H.
  assert (Hdigit : forall a, isDigit a = true ->
            JS.isSpace a = false /\ Ascii.eqb a "010" = false).
  { intros a Ha. unfold isDigit in Ha. unfold JS.isSpace.
    apply andb_true_iff in Ha as [H1 H2].
    apply Nat.leb_le in H1, H2.
    set (n := nat_of_ascii a) in *.
    split.
    - destruct (Nat.leb_spec 9 n), (Nat.leb_spec n 13),
        (Nat.eqb_spec n 32), (Nat.eqb_spec n 160); try lia; reflexivity.
    - apply Ascii.eqb_neq. intros ->. subst n. vm_compute in H1. lia. }
  do 10 (destruct d as [|? d]; [discriminate H|]).
  destruct d; [|discriminate H].
  cbn [Cli.isDateFormat] in H.
  remember isDigit as dg eqn:Edg in H.
  repeat (apply andb_true_iff in H as [H ?]).
  subst dg.
  repeat match goal with
         | Hd : isDigit _ = true |- _ =>
             apply Hdigit in Hd; destruct Hd
         | He : Ascii.eqb _ "-" = true |- _ =>
             apply Ascii.eqb_eq in He; subst
         end.
  split; [|split; [reflexivity|]].
  - unfold JS.trim. cbn [JS.trimStart JS.trimEnd].
    change (JS.isSpace "-") with false.
    repeat (match goal with Hs : JS.isSpace _ = false |- _ => rewrite Hs end;
            cbn [JS.trimStart JS.trimEnd]).
    reflexivity.
  - cbn [JS.hasChar]. change (Ascii.eqb "-" "010") with false.
    repeat match goal with Hs : Ascii.eqb _ "010" = false |- _ =>
             rewrite Hs end.
    reflexivity.
Qed.

Lemma isDateFormat_no_slash (d : string) :
  Cli.isDateFormat d = true -> JS.hasChar "/" (d +:+ ".jsonl") = false /\
                               JS.hasChar "/" (d +:+ ".md") = false.
Proof.
  intros H.
  assert (Hdigit : forall a, isDigit a = true -> Ascii.eqb a "/" = false).
  { intros a Ha. unfold isDigit in Ha.
    apply andb_true_iff in Ha as [H1 H2]. apply Nat.leb_le in H1, H2.
    apply Ascii.eqb_neq. intros ->. vm_compute in H1. lia. }
  do 10 (destruct d as [|? d]; [discriminate H|]).
  destruct d; [|discriminate H].
  cbn [Cli.isDateFormat] in H.
  remember isDigit as dg eqn:Edg in H.
  repeat (apply andb_true_iff in H as [H ?]).
  subst dg.
  repeat match goal with
         | Hd : isDigit _ = true |- _ => apply Hdigit in Hd
         | He : Ascii.eqb _ "-" = true |- _ =>
             apply Ascii.eqb_eq in He; subst
         end.
  cbn [String.append JS.hasChar]. change (Ascii.eqb "-" "/") with false.
  repeat match goal with Hs : Ascii.eqb _ "/" = false |- _ =>
           rewrite Hs; clear Hs end.
  split; reflexivity.
Qed.

Lemma getProcessedDates_content (fs : FS) (logDir : string) :
  getProcessedDates fs logDir =
    match contentAt fs (processedFile logDir) with
    | Some content => datesOf (JS.split "010" content)
    | None => ∅
    end.
Proof.
  unfold getProcessedDates, existsSync, readFileSync, contentAt.
  now destruct (fs !! processedFile logDir) as [[c|names]|].
Qed.

(** The processed dates are read from the content of the sentinel. *)
Lemma getProcessedDates_same (fs fs' : FS) (logDir : string) :
  contentAt fs' (processedFile logDir) = contentAt fs (processedFile logDir) ->
  getProcessedDates fs' logDir = getProcessedDates fs logDir.
Proof. intros H. now rewrite !getProcessedDates_content, H. Qed.

Lemma parentOf_processedFile (logDir : string) :
  parentOf (processedFile logDir) =
    if JS.truthy logDir then Some logDir else None.
Proof. now apply FsFacts.parentOf_join. Qed.

(** [markProcessed] touches the sentinel and the listing of the log
    directory, and nothing else. *)
Lemma markProcessed_other (logDir date p : string) (fs : FS) :
  p ≠ processedFile logDir -> p ≠ logDir ->
  (markProcessed logDir date fs).2 !! p = fs !! p.
Proof.
  intros H1 H2. unfold markProcessed.
  apply (FsFacts.write_other _ _ FsFacts.appendFileSync_def); [done|].
  rewrite parentOf_processedFile. destruct (JS.truthy logDir); congruence.
Qed.

Lemma markProcessed_isDir (logDir date p : string) (fs : FS) :
  isDir fs p -> isDir (markProcessed logDir date fs).2 p.
Proof. apply (FsFacts.write_isDir _ _ FsFacts.appendFileSync_def). Qed.

(** The listing of the log directory after a date is marked: the one of
    before, with the name of the sentinel in it or not. *)
Lemma markProcessed_listing (logDir date : string) (fs : FS)
    (names : list string) :
  fs !! logDir = Some (Dir names) ->
  exists names',
    (markProcessed logDir date fs).2 !! logDir = Some (Dir names') /\
    (names' = names \/ names' = names ++ [".processed"]).
Proof.
  intros Hdir. unfold markProcessed.
  destruct (FsFacts.write_lookup _ _ FsFacts.appendFileSync_def
              (processedFile logDir) (date +:+ LF) fs logDir)
    as [H|[(H & _)|(_ & H)]].
  - exists names. split; [congruence|now left].
  - symmetry in H. now apply pathJoin_ne in H.
  - revert H. unfold appendFileSync.
    destruct (negb (inDirectory fs (processedFile logDir)));
      [intros _; exists names; split; [done|now left]|].
    destruct (fs !! processedFile logDir) as [[c|n]|] eqn:E; cbn [snd];
      intros _.
    + exists names. rewrite lookup_insert_ne by apply pathJoin_ne.
      split; [done|now left].
    + exists names. split; [done|now left].
    + rewrite lookup_insert_ne by apply pathJoin_ne.
      unfold enter. rewrite parentOf_processedFile.
      destruct (JS.truthy logDir); [|exists names; split; [done|now left]].
      rewrite Hdir, lookup_insert_eq.
      pose proof (FsFacts.nameOf_join logDir ".processed" eq_refl) as Hn.
      fold (processedFile logDir) in Hn. rewrite Hn.
      unfold listed. destruct (decide _); eexists; split; eauto.
Qed.

(** Where the log directory is there and the sentinel is no directory,
    marking appends the date and a line feed to the sentinel. *)
Lemma markProcessed_appends (logDir date : string) (fs : FS) :
  isDir fs logDir ->
  (forall names, fs !! processedFile logDir ≠ Some (Dir names)) ->
  (markProcessed logDir date fs).1 = inr tt /\
  (markProcessed logDir date fs).2 !! processedFile logDir =
    Some (File (match contentAt fs (processedFile logDir) with
                | Some content => content +:+ date +:+ LF
                | None => date +:+ LF
                end)).
Proof.
  intros Hdir Hfile. unfold markProcessed.
  apply (FsFacts.write_ok _ _ FsFacts.appendFileSync_def); [|done].
  now apply FsFacts.inDirectory_join.
Qed.

(** In a log directory that is missing, marking fails and writes
    nothing. *)
Lemma markProcessed_missing (logDir date : string) (fs : FS) :
  logDir <> EmptyString -> fs !! logDir = None ->
  markProcessed logDir date fs = (inl (FsError (processedFile logDir)), fs).
Proof.
  intros Hne Hnone. unfold markProcessed, appendFileSync, inDirectory.
  rewrite parentOf_processedFile.
  destruct logDir; [done|]. cbn [JS.truthy]. now rewrite Hnone.
Qed.

(** What marking a date does to the sentinel and to the dates read from
    it. *)
Lemma markProcessed_dates (fs : FS) (logDir d : string) :
  markable fs logDir ->
  JS.hasChar "010" d = false ->
  let r := markProcessed logDir d fs in
  r.1 = inr tt /\
  markable r.2 logDir /\
  getProcessedDates r.2 logDir =
    getProcessedDates fs logDir
    ∪ (if JS.truthy (JS.trim d) then {[JS.trim d]} else ∅).
Proof.
  intros [Hdir Happ] Hd r.
  assert (Hfile : forall names, fs !! processedFile logDir ≠ Some (Dir names)).
  { intros names H. unfold appendable in Happ. now rewrite H in Happ. }
  destruct (markProcessed_appends logDir d fs Hdir Hfile) as [Hok Hnew].
  fold r in Hok, Hnew. split; [exact Hok|].
  rewrite !getProcessedDates_content.
  unfold markable, appendable, contentAt in *. rewrite Hnew.
  split; [split; [now apply markProcessed_isDir|]|].
  - destruct (fs !! processedFile logDir) as [[content|names]|];
      [apply linesClosed_append| done |
       apply (linesClosed_append EmptyString d)].
  - destruct (fs !! processedFile logDir) as [[content|names]|] eqn:E;
      [| done |].
    + destruct (lines_append content d Happ Hd) as (P & H1 & H2).
      rewrite H1, H2, !datesOf_app.
      rewrite datesOf_line, datesOf_blank.
      now rewrite union_empty_r_L.
    + destruct (lines_append EmptyString d (or_introl eq_refl) Hd)
        as (P & H1 & H2).
      change (d +:+ LF) with (EmptyString +:+ d +:+ LF).
      rewrite H2. destruct P as [|x [|y P]]; cbn in H1; try done.
      cbn [app]. rewrite datesOf_line.
      now rewrite union_empty_l_L.
Qed.

End LogFileFacts.

(** ** The maintenance run: the [mem0-sleep] command *)

Module SchedulerFacts.
Import Json SleepMode LogStore Digest Cli.

(** *** The file system calls *)

(** A failed [saveDigest] has written no file: at most it has made
    directories on the way to the one of the digests. *)
Lemma saveDigest_failed (digestDir date : string)
    (analysis : SleepAnalysis string) (stats : option Stats)
    (fs0 : FS) (e : Exn) :
  (saveDigest digestDir date analysis stats fs0).1 = inl e ->
  forall p,
    contentAt (saveDigest digestDir date analysis stats fs0).2 p
      = contentAt fs0 p.
Proof.
  unfold saveDigest, bind. intros He p.
  pose proof (FsFacts.ensureDir_contentAt digestDir fs0 p) as Hdir.
  destruct (ensureDir digestDir fs0) as [[e1|[]] fs1]; cbn [fst snd] in *;
    [exact Hdir|].
  rewrite (FsFacts.write_failed _ _ FsFacts.writeFileSync_def _ _ _ e He).
  exact Hdir.
Qed.

Section Action.

Variable localeCompare : string -> string -> Z.
Variable parseLogEntry : string -> option LogEntry.
Variable Provider : Type.
Variable AddOptions : Type.
Variable provider_getAll :
  string -> Provider -> (Exn + list string) * Provider.
Variable provider_add :
  list ChatMessage -> AddOptions -> Provider -> (Exn + AddResult) * Provider.
Variables (userId logDir digestDir : string) (maxChunkChars : Z)
          (digestEnabled : bool) (addOptions : AddOptions) (now : string).

Abbreviation tryBlock :=
  (tryBlock Provider AddOptions provider_add digestDir digestEnabled addOptions).
Abbreviation processDay :=
  (processDay parseLogEntry Provider AddOptions provider_add logDir digestDir
              maxChunkChars digestEnabled addOptions).
Abbreviation runDays :=
  (runDays parseLogEntry Provider AddOptions provider_add logDir digestDir
           maxChunkChars digestEnabled addOptions).
Abbreviation markProcessedM := (markProcessedM Provider logDir).
Abbreviation add := (add Provider AddOptions provider_add addOptions).
Abbreviation saveDigestM := (saveDigestM Provider digestDir).
Abbreviation getAll := (getAll Provider provider_getAll userId).

(** *** The calls of the run *)

Lemma add_effect (messages : list ChatMessage) (w : World Provider) :
  fs (add messages w).2 = fs w /\
  journal (add messages w).2 = journal w ++ [CallAdd messages].
Proof.
  unfold Cli.add. now destruct (provider_add messages addOptions (provider w)).
Qed.

Lemma getAll_effect (w : World Provider) :
  fs (getAll w).2 = fs w /\
  journal (getAll w).2 = journal w ++ [CallGetAll].
Proof.
  unfold Cli.getAll. now destruct (provider_getAll userId (provider w)).
Qed.

Lemma callFs_effect (call : Call) (op : M FS unit) (w : World Provider) :
  (callFs call op w).1 = (op (fs w)).1 /\
  fs (callFs call op w).2 = (op (fs w)).2 /\
  provider (callFs call op w).2 = provider w /\
  journal (callFs call op w).2 = journal w ++ [call].
Proof. unfold callFs. now destruct (op (fs w)). Qed.

(** The [try] block calls the store and the digest writer only, and when
    it throws it has changed the content of no file. *)
Lemma tryBlock_effect (log : LogFile) (entries : list LogEntry)
    (w : World Provider) :
  (exists calls, journal (tryBlock log entries w).2 = journal w ++ calls /\
                 Forall tryCall calls) /\
  (forall e, (tryBlock log entries w).1 = inl e ->
     forall p, contentAt (fs (tryBlock log entries w).2) p
               = contentAt (fs w) p).
Proof.
  unfold Cli.tryBlock.
  destruct (0 <? length (chatMessagesOf entries))%nat.
  2:{ cbn. split; [exists []; now rewrite app_nil_r|]. discriminate. }
  unfold bind.
  pose proof (add_effect (lastN 20 (chatMessagesOf entries)) w) as [Hfs Hj].
  destruct (add (lastN 20 (chatMessagesOf entries)) w) as [[e|result] w1];
    cbn in *.
  { split; [|intros; now rewrite Hfs].
    exists [CallAdd (lastN 20 (chatMessagesOf entries))].
    split; [done|]. constructor; [left; eauto|constructor]. }
  destruct digestEnabled.
  - set (analysis := simpleAnalysisOf (date log) entries result).
    pose proof (callFs_effect (CallSaveDigest (date log))
                  (saveDigest digestDir (date log) analysis None) w1)
      as (Hr & Hf & _ & Hj').
    fold (saveDigestM (date log) analysis) in Hr, Hf, Hj'. split.
    + exists [CallAdd (lastN 20 (chatMessagesOf entries));
              CallSaveDigest (date log)].
      split; [rewrite Hj', Hj; now rewrite <- app_assoc|].
      constructor; [left; eauto|]. constructor; [right; eauto|constructor].
    + intros e He p. rewrite Hr in He. rewrite Hf, <- Hfs.
      now apply (saveDigest_failed _ _ _ _ _ e).
  - cbn. split; [|intros; now rewrite Hfs].
    exists [CallAdd (lastN 20 (chatMessagesOf entries))].
    split; [done|]. constructor; [left; eauto|constructor].
Qed.

(** *** One day *)

(** A day without entries is marked at once. *)
Lemma processDay_empty (log : LogFile) (w : World Provider) :
  readDailyLog parseLogEntry (fs w) (path log) = inr [] ->
  processDay log w = markProcessedM (date log) w.
Proof.
  intros H. unfold Cli.processDay, bind, readFs, reading. now rewrite H.
Qed.

(** A day whose [try] block throws is left as it is, and the loop body
    ends without an exception. *)
Lemma processDay_failed (log : LogFile) (w : World Provider)
    (entries : list LogEntry) (e : Exn) :
  readDailyLog parseLogEntry (fs w) (path log) = inr entries ->
  entries <> [] ->
  (tryBlock log entries w).1 = inl e ->
  processDay log w = (inr tt, (tryBlock log entries w).2).
Proof.
  intros Hread Hne Hthrow.
  unfold Cli.processDay, bind, readFs, reading, tryCatch. rewrite Hread.
  destruct entries as [|x entries]; [done|].
  destruct (tryBlock log (x :: entries) w) as [[e'|[]] w1]; cbn in *; done.
Qed.

(** A day whose [try] block completes is marked after it. *)
Lemma processDay_finished (log : LogFile) (w : World Provider)
    (entries : list LogEntry) :
  readDailyLog parseLogEntry (fs w) (path log) = inr entries ->
  entries <> [] ->
  (tryBlock log entries w).1 = inr tt ->
  processDay log w = markProcessedM (date log) (tryBlock log entries w).2.
Proof.
  intros Hread Hne Hdone.
  unfold Cli.processDay, bind, readFs, reading, tryCatch. rewrite Hread.
  destruct entries as [|x entries]; [done|].
  destruct (tryBlock log (x :: entries) w) as [[e'|[]] w1]; cbn in *; done.
Qed.

Lemma processDay_unreadable (log : LogFile) (w : World Provider) (e : Exn) :
  readDailyLog parseLogEntry (fs w) (path log) = inl e ->
  processDay log w = (inl e, w).
Proof.
  intros H. unfold Cli.processDay, bind, readFs, reading. now rewrite H.
Qed.

Lemma runDays_cons (log : LogFile) (rest : list LogFile) (w : World Provider) :
  (processDay log w).1 = inr tt ->
  runDays (log :: rest) w = runDays rest (processDay log w).2.
Proof.
  intros H. cbn [Cli.runDays]. unfold bind.
  destruct (processDay log w) as [[e|[]] w1]; cbn in *; done.
Qed.

End Action.

End SchedulerFacts.

Section MaintenanceRun.
Import Json SleepMode LogStore Digest Cli.

Variable localeCompare : string -> string -> Z.
Variable parseLogEntry : string -> option LogEntry.
Variable Provider : Type.
Variable AddOptions : Type.
Variable provider_getAll :
  string -> Provider -> (Exn + list string) * Provider.
Variable provider_add :
  list ChatMessage -> AddOptions -> Provider -> (Exn + AddResult) * Provider.
Variables (userId logDir digestDir : string) (maxChunkChars : Z)
          (digestEnabled : bool) (addOptions : AddOptions) (now : string).

Abbreviation tryBlock :=
  (tryBlock Provider AddOptions provider_add digestDir digestEnabled addOptions).
Abbreviation processDay :=
  (processDay parseLogEntry Provider AddOptions provider_add logDir digestDir
              maxChunkChars digestEnabled addOptions).
Abbreviation runDays :=
  (runDays parseLogEntry Provider AddOptions provider_add logDir digestDir
           maxChunkChars digestEnabled addOptions).
Abbreviation markProcessedM := (markProcessedM Provider logDir).
Abbreviation getAll := (getAll Provider provider_getAll userId).
Abbreviation discover := (discover localeCompare Provider logDir now).
Abbreviation sleepAction :=
  (sleepAction localeCompare parseLogEntry Provider AddOptions provider_getAll
               provider_add userId logDir digestDir maxChunkChars
               digestEnabled addOptions now).

(** C1: when the extract, promote and digest steps of a date throw, the
    loop body ends without an exception, the loop goes on with the next
    candidate from the state the steps left, the processed dates are what
    they were, and no call of [markProcessed] was made; and a day for
    which [markProcessed] is called has no entries or has completed its
    steps without an exception. *)
Theorem day_failure_isolated
    (log : LogFile) (rest : list LogFile) (w : World Provider)
    (entries : list LogEntry) (e : Exn) :
  readDailyLog parseLogEntry (fs w) (path log) = inr entries ->
  entries <> [] ->
  (tryBlock log entries w).1 = inl e ->
  let w1 := (tryBlock log entries w).2 in
  processDay log w = (inr tt, w1) /\
  runDays (log :: rest) w = runDays rest w1 /\
  getProcessedDates (fs w1) logDir = getProcessedDates (fs w) logDir /\
  (exists calls, journal w1 = journal w ++ calls /\
                 forall d, CallMarkProcessed d ∉ calls) /\
  (forall log' w' calls,
     journal (processDay log' w').2 = journal w' ++ calls ->
     CallMarkProcessed (date log') ∈ calls ->
     exists entries',
       readDailyLog parseLogEntry (fs w') (path log') = inr entries' /\
       (entries' = [] \/ (tryBlock log' entries' w').1 = inr tt)).
Proof.
  intros Hread Hne Hthrow w1.
  pose proof (SchedulerFacts.processDay_failed parseLogEntry Provider
                AddOptions provider_add logDir digestDir maxChunkChars
                digestEnabled
                addOptions log w entries e Hread Hne Hthrow) as Hday.
  destruct (SchedulerFacts.tryBlock_effect Provider AddOptions provider_add
              digestDir digestEnabled addOptions log entries w)
    as [(calls & Hcalls & Hkind) Hfs].
  split; [exact Hday|]. split; [|split; [|split]].
  - rewrite SchedulerFacts.runDays_cons; now rewrite Hday.
  - unfold w1. apply LogFileFacts.getProcessedDates_same.
    now apply (Hfs e).
  - exists calls. split; [exact Hcalls|]. intros d Hd.
    rewrite Forall_forall in Hkind.
    destruct (Hkind _ Hd) as [[m Hm]|[d' Hd']]; discriminate.
  - clear. intros log' w' calls Hj Hin.
    destruct (readDailyLog parseLogEntry (fs w') (path log')) as [e'|entries']
      eqn:Hread'.
    + rewrite (SchedulerFacts.processDay_unreadable parseLogEntry Provider
                 AddOptions provider_add logDir digestDir maxChunkChars
                digestEnabled
                 addOptions log' w' e' Hread') in Hj.
      cbn in Hj. rewrite <- (app_nil_r (journal w')) in Hj at 1.
      apply app_inv_head in Hj. subst calls. now apply elem_of_nil in Hin.
    + exists entries'. split; [reflexivity|].
      destruct entries' as [|x entries']; [now left|right].
      destruct ((tryBlock log' (x :: entries') w').1) as [e'|[]] eqn:Htry;
        [|reflexivity].
      exfalso.
      rewrite (SchedulerFacts.processDay_failed parseLogEntry Provider
                 AddOptions provider_add logDir digestDir maxChunkChars
                digestEnabled
                 addOptions log' w' (x :: entries') e' Hread' ltac:(done) Htry)
        in Hj.
      destruct (SchedulerFacts.tryBlock_effect Provider AddOptions provider_add
                  digestDir digestEnabled addOptions log' (x :: entries') w')
        as [(calls' & Hcalls' & Hkind') _].
      cbn in Hj. rewrite Hcalls' in Hj. apply app_inv_head in Hj. subst calls'.
      rewrite Forall_forall in Hkind'.
      destruct (Hkind' _ Hin) as [[m Hm]|[d' Hd']]; discriminate.
Qed.

(** C6: a candidate whose daily log has no entries is handed to
    [markProcessed] at once: the loop body is that call, the only call
    made; the store is as it was, and no path is touched but the
    sentinel and the log directory, whose listing gains it.  Where the
    log directory is there and the sentinel is no directory, the call
    succeeds and appends the date and a line feed; and where the sentinel
    is absent or made of closed lines and the date holds no line feed,
    the processed dates are afterwards those of before and the date,
    without the white space around it. *)
Theorem empty_day_marked_at_once (log : LogFile) (w : World Provider) :
  readDailyLog parseLogEntry (fs w) (path log) = inr [] ->
  let r := processDay log w in
  r = markProcessedM (date log) w /\
  journal r.2 = journal w ++ [CallMarkProcessed (date log)] /\
  provider r.2 = provider w /\
  (forall p, p ≠ processedFile logDir -> p ≠ logDir ->
             fs r.2 !! p = fs w !! p) /\
  (isDir (fs w) logDir ->
   (forall names, fs w !! processedFile logDir ≠ Some (Dir names)) ->
   r.1 = inr tt /\
   fs r.2 !! processedFile logDir =
     Some (File (match contentAt (fs w) (processedFile logDir) with
                 | Some content => content +:+ date log +:+ LF
                 | None => date log +:+ LF
                 end))) /\
  (markable (fs w) logDir ->
   JS.hasChar "010" (date log) = false ->
   markable (fs r.2) logDir /\
   getProcessedDates (fs r.2) logDir =
     getProcessedDates (fs w) logDir
     ∪ (if JS.truthy (JS.trim (date log))
        then {[JS.trim (date log)]} else ∅)).
Proof.
  intros Hread r.
  assert (Hr : r = markProcessedM (date log) w)
    by now apply SchedulerFacts.processDay_empty.
  destruct (SchedulerFacts.callFs_effect Provider
              (CallMarkProcessed (date log))
              (markProcessed logDir (date log)) w) as (H1 & H2 & H3 & H4).
  fold (markProcessedM (date log)) in H1, H2, H3, H4.
  rewrite <- Hr in H1, H2, H3, H4.
  split; [exact Hr|]. split; [exact H4|]. split; [exact H3|].
  split; [|split].
  - intros p Hp Hq. rewrite H2. now apply LogFileFacts.markProcessed_other.
  - intros Hdir Hfile. rewrite H1, H2.
    now apply LogFileFacts.markProcessed_appends.
  - intros Hmark Hlf. rewrite H2.
    now apply (LogFileFacts.markProcessed_dates (fs w) logDir (date log)).
Qed.

(** C9: with an explicit date of the form YYYY-MM-DD the candidate list
    is that date alone, whatever the processed dates and the clock are;
    and when the log file of the date does not exist, the run fetches the
    memories, calls [markProcessed] for the date and nothing else: no call
    of the store's [add], no digest, no path touched but the sentinel and
    the log directory, whose listing gains it.  Where the log directory
    is there and the sentinel is no directory, the run succeeds and the
    date and a line feed are appended to the sentinel; and where the
    sentinel is absent or made of closed lines, the processed dates are
    afterwards those of before and the date. *)
Theorem explicit_date_run (d : string) (dry : bool) (w : World Provider) :
  isDateFormat d = true ->
  discover {| optDate := Some d; dryRun := dry |} w
    = inr [{| date := d; path := logDir +:+ "/" +:+ d +:+ ".jsonl" |}] /\
  (existsSync (fs w) (logDir +:+ "/" +:+ d +:+ ".jsonl") = false ->
   let r := sleepAction {| optDate := Some d; dryRun := false |} w in
   r = markProcessedM d (getAll w).2 /\
   journal r.2 = journal w ++ [CallGetAll; CallMarkProcessed d] /\
   (forall p, p ≠ processedFile logDir -> p ≠ logDir ->
              fs r.2 !! p = fs w !! p) /\
   (isDir (fs w) logDir ->
    (forall names, fs w !! processedFile logDir ≠ Some (Dir names)) ->
    r.1 = inr tt /\
    fs r.2 !! processedFile logDir =
      Some (File (match contentAt (fs w) (processedFile logDir) with
                  | Some content => content +:+ d +:+ LF
                  | None => d +:+ LF
                  end))) /\
   (markable (fs w) logDir ->
    markable (fs r.2) logDir /\
    getProcessedDates (fs r.2) logDir
      = getProcessedDates (fs w) logDir ∪ {[d]})).
Proof.
  intros Hdate.
  assert (Htruthy : JS.truthy d = true) by (destruct d; [discriminate|reflexivity]).
  assert (Hdisc : forall dry', discover {| optDate := Some d; dryRun := dry' |} w
            = inr [{| date := d; path := logDir +:+ "/" +:+ d +:+ ".jsonl" |}]).
  { intros dry'. unfold Cli.discover. cbn [optDate]. now rewrite Htruthy. }
  split; [apply Hdisc|].
  intros Hmissing r.
  destruct (SchedulerFacts.getAll_effect Provider provider_getAll userId w)
    as [Hfs0 Hj0].
  set (w0 := (getAll w).2) in *.
  set (log := {| date := d; path := logDir +:+ "/" +:+ d +:+ ".jsonl" |}).
  assert (Hread : readDailyLog parseLogEntry (fs w0) (path log) = inr []).
  { unfold readDailyLog. cbn [path log]. rewrite Hfs0. now rewrite Hmissing. }
  assert (Hr : r = markProcessedM d w0).
  { unfold r, Cli.sleepAction, invalidDate. cbn [optDate dryRun].
    rewrite Htruthy, Hdate. cbn [negb andb].
    unfold bind at 1, reading. rewrite Hdisc.
    unfold bind at 1, tryCatch, bind at 1.
    fold w0.
    assert (Hget : exists x, getAll w = (x, w0))
      by (unfold w0; destruct (getAll w); eauto).
    destruct Hget as [x ->].
    assert (Hloop : runDays [log] w0 = markProcessedM d w0).
    { cbn [Cli.runDays]. unfold bind.
      rewrite (SchedulerFacts.processDay_empty parseLogEntry Provider
                 AddOptions provider_add logDir digestDir maxChunkChars
                digestEnabled
                 addOptions log w0 Hread).
      cbn [date log]. now destruct (markProcessedM d w0) as [[e|[]] w2]. }
    destruct x as [e|l]; cbn; exact Hloop. }
  destruct (SchedulerFacts.callFs_effect Provider (CallMarkProcessed d)
              (markProcessed logDir d) w0) as (H1 & H2 & H3 & H4).
  fold (markProcessedM d) in H1, H2, H3, H4.
  rewrite <- Hr in H1, H2, H3, H4.
  split; [exact Hr|]. split; [|split; [|split]].
  - rewrite H4, Hj0. now rewrite <- app_assoc.
  - intros p Hp Hq. rewrite H2, <- Hfs0.
    now apply LogFileFacts.markProcessed_other.
  - intros Hdir Hfile. rewrite H1, H2. rewrite <- Hfs0 in Hdir, Hfile |- *.
    now apply LogFileFacts.markProcessed_appends.
  - intros Hmark. rewrite H2. rewrite <- Hfs0 in Hmark |- *.
    destruct (LogFileFacts.isDateFormat_plain d Hdate) as (Htrim & _ & Hlf).
    destruct (LogFileFacts.markProcessed_dates (fs w0) logDir d Hmark Hlf)
      as (_ & Hm & Hset).
    rewrite Htrim, Htruthy in Hset. done.
Qed.

End MaintenanceRun.

Section MaintenanceRunExamples.
Import Json SleepMode LogStore Digest Cli.

Lemma day_failure_isolated_witness :
  readDailyLog parseEntryLine (fs schedulerWorld) (path boomDay)
    = inr [dayEntry "2026-02-02" "s1" "boom"] /\
  (sampleTryBlock boomDay [dayEntry "2026-02-02" "s1" "boom"] schedulerWorld).1
    = inl (ProviderError "rejected") /\
  (sampleProcessDay boomDay schedulerWorld).1 = inr tt /\
  sampleRunDays [boomDay; teaDay] schedulerWorld
    = sampleRunDays [teaDay] (sampleProcessDay boomDay schedulerWorld).2 /\
  getProcessedDates (fs (sampleProcessDay boomDay schedulerWorld).2) "logs"
    = getProcessedDates (fs schedulerWorld) "logs".
Proof.
  assert (Hread : readDailyLog parseEntryLine (fs schedulerWorld) (path boomDay)
                  = inr [dayEntry "2026-02-02" "s1" "boom"])
    by (vm_compute; reflexivity).
  assert (Hthrow : (sampleTryBlock boomDay [dayEntry "2026-02-02" "s1" "boom"]
                      schedulerWorld).1 = inl (ProviderError "rejected"))
    by (vm_compute; reflexivity).
  destruct (day_failure_isolated parseEntryLine (list (list ChatMessage)) unit
              sampleAdd "logs" "digests" 4000 true tt boomDay [teaDay]
              schedulerWorld [dayEntry "2026-02-02" "s1" "boom"]
              (ProviderError "rejected") Hread ltac:(discriminate) Hthrow)
    as (Hday & Hrun & Hdates & _).
  split; [exact Hread|]. split; [exact Hthrow|].
  unfold sampleProcessDay, sampleRunDays. rewrite Hday.
  split; [reflexivity|]. split; [exact Hrun|exact Hdates].
Defined.

Lemma empty_day_marked_at_once_witness :
  readDailyLog parseEntryLine (fs schedulerWorld) (path emptyDay) = inr [] /\
  journal (sampleProcessDay emptyDay schedulerWorld).2
    = [CallMarkProcessed "2026-02-01"] /\
  provider (sampleProcessDay emptyDay schedulerWorld).2 = [] /\
  (sampleProcessDay emptyDay schedulerWorld).1 = inr tt /\
  getProcessedDates (fs (sampleProcessDay emptyDay schedulerWorld).2) "logs"
    = getProcessedDates (fs schedulerWorld) "logs" ∪ {["2026-02-01"]}.
Proof.
  assert (Hread : readDailyLog parseEntryLine (fs schedulerWorld) (path emptyDay)
                  = inr [])
    by (vm_compute; reflexivity).
  assert (Hmark : markable (fs schedulerWorld) "logs").
  { split; [eexists; reflexivity|]. vm_compute. exact I. }
  destruct (empty_day_marked_at_once parseEntryLine (list (list ChatMessage))
              unit sampleAdd "logs" "digests" 4000 true tt emptyDay schedulerWorld
              Hread)
    as (_ & Hj & Hp & _ & Hok & Hdates).
  split; [exact Hread|]. split; [exact Hj|]. split; [exact Hp|]. split.
  - apply Hok; [apply Hmark|]. intros names. vm_compute. discriminate.
  - exact (proj2 (Hdates Hmark eq_refl)).
Defined.

(** Without a log directory the call of [markProcessed] throws and no
    date is marked; and after a sentinel whose last line is not closed
    the date is read as the end of that line. *)
Lemma empty_day_marked_at_once_counterexample :
  (readDailyLog parseEntryLine (fs bareWorld) (path emptyDay) = inr [] /\
   (sampleProcessDay emptyDay bareWorld).1
     = inl (FsError "logs/.processed") /\
   getProcessedDates (fs (sampleProcessDay emptyDay bareWorld).2) "logs"
     = ∅) /\
  (readDailyLog parseEntryLine (fs openLineWorld) (path emptyDay) = inr [] /\
   (sampleProcessDay emptyDay openLineWorld).1 = inr tt /\
   getProcessedDates (fs (sampleProcessDay emptyDay openLineWorld).2) "logs"
     = {["2026-01-312026-02-01"]} /\
   "2026-02-01" ∉
     getProcessedDates (fs (sampleProcessDay emptyDay openLineWorld).2)
       "logs").
Proof.
  assert (H : getProcessedDates
                (fs (sampleProcessDay emptyDay openLineWorld).2) "logs"
              = {["2026-01-312026-02-01"]}) by (vm_compute; reflexivity).
  split; [repeat split; vm_compute; reflexivity|].
  split; [vm_compute; reflexivity|]. split; [vm_compute; reflexivity|].
  split; [exact H|]. rewrite H. apply not_elem_of_singleton. discriminate.
Qed.

Lemma explicit_date_run_witness :
  isDateFormat "2026-03-01" = true /\
  existsSync (fs schedulerWorld) "logs/2026-03-01.jsonl" = false /\
  journal (sampleSleepAction {| optDate := Some "2026-03-01"; dryRun := false |}
             schedulerWorld).2
    = [CallGetAll; CallMarkProcessed "2026-03-01"] /\
  getProcessedDates
    (fs (sampleSleepAction {| optDate := Some "2026-03-01"; dryRun := false |}
           schedulerWorld).2) "logs"
    = getProcessedDates (fs schedulerWorld) "logs" ∪ {["2026-03-01"]}.
Proof.
  assert (Hdate : isDateFormat "2026-03-01" = true) by reflexivity.
  assert (Hmissing : existsSync (fs schedulerWorld) "logs/2026-03-01.jsonl"
                     = false) by reflexivity.
  assert (Hmark : markable (fs schedulerWorld) "logs").
  { split; [eexists; reflexivity|]. vm_compute. exact I. }
  destruct (explicit_date_run codeUnitCompare parseEntryLine
              (list (list ChatMessage)) unit sampleGetAll sampleAdd
              "default" "logs" "digests" 4000 true tt sampleNow
              "2026-03-01" false schedulerWorld Hdate)
    as [_ Hrun].
  destruct (Hrun Hmissing) as (_ & Hj & _ & _ & Hdates).
  split; [exact Hdate|]. split; [exact Hmissing|]. split; [exact Hj|].
  exact (proj2 (Hdates Hmark)).
Defined.

(** With an explicit date and no log directory the run ends with the
    exception of [markProcessed] and the date is not marked; and after a
    sentinel whose last line is not closed the run succeeds and the date
    is read as the end of that line. *)
Lemma explicit_date_run_counterexample :
  (isDateFormat "2026-03-01" = true /\
   existsSync (fs bareWorld) "logs/2026-03-01.jsonl" = false /\
   (sampleSleepAction {| optDate := Some "2026-03-01"; dryRun := false |}
      bareWorld).1 = inl (FsError "logs/.processed") /\
   getProcessedDates
     (fs (sampleSleepAction
            {| optDate := Some "2026-03-01"; dryRun := false |}
            bareWorld).2) "logs" = ∅) /\
  (existsSync (fs openLineWorld) "logs/2026-03-01.jsonl" = false /\
   (sampleSleepAction {| optDate := Some "2026-03-01"; dryRun := false |}
      openLineWorld).1 = inr tt /\
   "2026-03-01" ∉
     getProcessedDates
       (fs (sampleSleepAction
              {| optDate := Some "2026-03-01"; dryRun := false |}
              openLineWorld).2) "logs").
Proof.
  assert (H : getProcessedDates
                (fs (sampleSleepAction
                       {| optDate := Some "2026-03-01"; dryRun := false |}
                       openLineWorld).2) "logs"
              = {["2026-01-312026-03-01"]}) by (vm_compute; reflexivity).
  split; [repeat split; vm_compute; reflexivity|].
  split; [reflexivity|]. split; [vm_compute; reflexivity|].
  rewrite H. apply not_elem_of_singleton. discriminate.
Qed.

End MaintenanceRunExamples.

(** ** The sentinel and the daily logs: further properties *)

Section ProcessedDates.
Import Json SleepMode LogStore.

(** X7: where the log directory is there and the sentinel names no
    file yet or a file of lines each closed by a line feed, marking a
    date that contains no line feed succeeds, leaves the directory and
    the sentinel in that state, and adds the date, without the white
    space around it, to the processed dates and nothing else; a date of
    white space alone adds nothing. *)
Theorem markProcessed_recorded (fs : FS) (logDir d : string) :
  markable fs logDir ->
  JS.hasChar "010" d = false ->
  let r := markProcessed logDir d fs in
  r.1 = inr tt /\
  markable r.2 logDir /\
  getProcessedDates r.2 logDir =
    getProcessedDates fs logDir
    ∪ (if JS.truthy (JS.trim d) then {[JS.trim d]} else ∅).
Proof. apply LogFileFacts.markProcessed_dates. Qed.

Lemma markProcessed_recorded_witness :
  getProcessedDates (markProcessed "logs" "2026-02-03" sampleLogFs).2 "logs" =
    getProcessedDates sampleLogFs "logs" ∪ {["2026-02-03"]}.
Proof.
  refine (proj2 (proj2 (markProcessed_recorded sampleLogFs "logs"
                          "2026-02-03" _ _))).
  - split; [eexists; reflexivity|]. right. vm_compute. reflexivity.
  - reflexivity.
Defined.

(** X8: in a log directory whose sentinel is absent or made of closed
    lines, once a date of the form YYYY-MM-DD is marked the candidates of
    [findUnprocessedLogs] are those of before without the files of that
    date. *)
Theorem findUnprocessedLogs_after_markProcessed
    (localeCompare : string -> string -> Z) (now : string)
    (fs : FS) (logDir d : string) (names : list string)
    (files : list LogFile) :
  fs !! logDir = Some (Dir names) ->
  appendable fs (processedFile logDir) ->
  Cli.isDateFormat d = true ->
  findUnprocessedLogs localeCompare now fs logDir = inr files ->
  exists files',
    findUnprocessedLogs localeCompare now
      (markProcessed logDir d fs).2 logDir = inr files' /\
    forall f, f ∈ files' <-> f ∈ files /\ date f ≠ d.
Proof.
  intros Hdir Happ Hd Hfiles.
  destruct (LogFileFacts.isDateFormat_plain d Hd) as (Htrim & Htruthy & Hlf).
  assert (Hmark : markable fs logDir) by (split; [now exists names|done]).
  destruct (LogFileFacts.markProcessed_dates fs logDir d Hmark Hlf)
    as (_ & _ & Hset).
  rewrite Htrim, Htruthy in Hset.
  destruct (LogFileFacts.markProcessed_listing logDir d fs names Hdir)
    as (names' & Hdir' & Hnames).
  rewrite (LogStoreFacts.findUnprocessedLogs_dir _ _ _ _ _ Hdir) in Hfiles.
  injection Hfiles as <-.
  rewrite (LogStoreFacts.findUnprocessedLogs_dir _ _ _ _ _ Hdir').
  eexists. split; [reflexivity|]. intros f.
  rewrite !LogStoreFacts.elem_of_sortFiles, !list_elem_of_filter, Hset.
  rewrite not_elem_of_union, not_elem_of_singleton.
  assert (Hsame : f ∈ logFilesOf logDir names' <-> f ∈ logFilesOf logDir names).
  { rewrite !LogStoreFacts.elem_of_logFilesOf.
    destruct Hnames as [->| ->]; [done|]. split.
    - intros (name & Hin & He & ->). exists name. split; [|done].
      apply elem_of_app in Hin as [Hin|Hin]; [done|].
      apply list_elem_of_singleton in Hin as ->. discriminate He.
    - intros (name & Hin & He & ->). exists name. split; [|done].
      apply elem_of_app. now left. }
  rewrite Hsame. tauto.
Qed.

Lemma findUnprocessedLogs_after_markProcessed_witness :
  exists files',
    findUnprocessedLogs codeUnitCompare sampleNow
      (markProcessed "logs" "2026-02-03" sampleLogFs).2 "logs" = inr files' /\
    forall f, f ∈ files' <->
      f ∈ [logFileOf "logs" "2026-02-03.jsonl";
           logFileOf "logs" "2026-02-05.jsonl"] /\ date f ≠ "2026-02-03".
Proof.
  eapply (findUnprocessedLogs_after_markProcessed codeUnitCompare sampleNow
            sampleLogFs "logs" "2026-02-03").
  - reflexivity.
  - right. vm_compute. reflexivity.
  - reflexivity.
  - vm_compute. reflexivity.
Defined.

End ProcessedDates.

Module DailyLogFacts.
Import JSFacts StringFacts Json SleepMode LogStore.
Local Arguments String.append : simpl nomatch.

(** [JSON.stringify] writes no raw line feed. *)
Lemma escapeChars_no_LF (s : string) :
  JS.hasChar "010" (escapeChars s) = false.
Proof.
  induction s as [|c s IH]; [reflexivity|].
  cbn [escapeChars]. rewrite ResolverFacts.hasChar_append, IH, orb_false_r.
  destruct c as [[] [] [] [] [] [] [] []]; reflexivity.
Qed.

Lemma quoted_no_LF (s : string) :
  JS.hasChar "010" s = false -> JS.hasChar "010" (quoted s) = false.
Proof.
  intros H. unfold quoted. cbn [JS.hasChar].
  rewrite ResolverFacts.hasChar_append, H. reflexivity.
Qed.

Lemma stringifyString_no_LF (s : string) :
  JS.hasChar "010" (stringifyString s) = false.
Proof. apply quoted_no_LF, escapeChars_no_LF. Qed.

Lemma member_no_LF (key value : string) :
  JS.hasChar "010" key = false -> JS.hasChar "010" value = false ->
  JS.hasChar "010" (member key value) = false.
Proof.
  intros Hk Hv. unfold member.
  rewrite !ResolverFacts.hasChar_append, quoted_no_LF, Hv by exact Hk. reflexivity.
Qed.

Lemma join_no_LF (parts : list string) :
  Forall (fun p => JS.hasChar "010" p = false) parts ->
  JS.hasChar "010" (JS.join "," parts) = false.
Proof.
  induction 1 as [|p parts Hp _ IH]; [reflexivity|].
  destruct parts as [|q parts]; [exact Hp|].
  rewrite join_cons, !ResolverFacts.hasChar_append, Hp, IH. reflexivity.
Qed.

Lemma stringifyMessage_no_LF (m : Message) :
  JS.hasChar "010" (stringifyMessage m) = false.
Proof.
  unfold stringifyMessage.
  rewrite !ResolverFacts.hasChar_append, !member_no_LF;
    try apply stringifyString_no_LF; try reflexivity.
  destruct (tool_name m); [|reflexivity].
  rewrite ResolverFacts.hasChar_append, member_no_LF;
    try apply stringifyString_no_LF; reflexivity.
Qed.

Lemma stringifyEntry_no_LF (e : LogEntry) :
  JS.hasChar "010" (stringifyEntry e) = false.
Proof.
  unfold stringifyEntry.
  rewrite !ResolverFacts.hasChar_append, !member_no_LF;
    try apply stringifyString_no_LF; try reflexivity.
  rewrite !ResolverFacts.hasChar_append, join_no_LF; [reflexivity|].
  apply Forall_forall. intros p Hp.
  apply list_elem_of_fmap in Hp as (m & -> & _).
  apply stringifyMessage_no_LF.
Qed.

(** The text of an entry starts with a brace and ends with one: [trim]
    leaves it as it is. *)
Lemma trim_stringifyEntry (e : LogEntry) :
  JS.trim (stringifyEntry e) = stringifyEntry e /\
  JS.truthy (stringifyEntry e) = true.
Proof.
  split; [|reflexivity].
  assert (Hstart : forall x, JS.trimStart ("{" +:+ x) = "{" +:+ x)
    by reflexivity.
  unfold JS.trim, stringifyEntry. rewrite Hstart.
  rewrite <- !append_assoc.
  now apply ParserFacts.trimEnd_append.
Qed.

Section Lines.
Variable parseLogEntry : string -> option LogEntry.

Lemma parseLines_app (l1 l2 : list string) :
  parseLines parseLogEntry (l1 ++ l2) =
    parseLines parseLogEntry l1 ++ parseLines parseLogEntry l2.
Proof.
  induction l1 as [|x l1 IH]; [reflexivity|].
  cbn [app parseLines]. rewrite IH.
  destruct (negb _); [reflexivity|]. now destruct (parseLogEntry _).
Qed.

Lemma readDailyLog_file (fs : FS) (logPath content : string) :
  fs !! logPath = Some (File content) ->
  readDailyLog parseLogEntry fs logPath =
    inr (parseLines parseLogEntry (JS.split "010" content)).
Proof.
  intros H. unfold readDailyLog, existsSync, readFileSync. now rewrite H.
Qed.

Lemma readDailyLog_none (fs : FS) (logPath : string) :
  fs !! logPath = None -> readDailyLog parseLogEntry fs logPath = inr [].
Proof.
  intros H. unfold readDailyLog, existsSync. now rewrite H.
Qed.

End Lines.

Lemma startsWith_join (dir name : string) :
  JS.startsWith (pathJoin dir name) dir = false.
Proof.
  destruct (JS.startsWith (pathJoin dir name) dir) eqn:E; [|reflexivity].
  apply startsWith_spec in E as [b E].
  apply (f_equal String.length) in E. unfold pathJoin in E.
  rewrite !length_append in E. simpl in E. lia.
Qed.

Lemma elem_of_listed (name : string) (names : list string) :
  name ∈ listed name names.
Proof.
  unfold listed. destruct (decide (name ∈ names)); [done|].
  apply elem_of_app. right. now left.
Qed.

(** What [appendToLog] does to the daily file and to what is read from
    it. *)
Lemma appendToLog_read
    (parseLogEntry : string -> option LogEntry)
    (fs : FS) (logDir : string) (e : LogEntry) :
  (forall a, a ∈ ancestors logDir -> contentAt fs a = None) ->
  appendable fs (logPathOf logDir e) ->
  Cli.isDateFormat (hd EmptyString (JS.split "T" (ts e))) = true ->
  parseLogEntry (stringifyEntry e) = Some e ->
  let r := appendToLog logDir e fs in
  r.1 = inr tt /\
  (exists before,
      readDailyLog parseLogEntry fs (logPathOf logDir e) = inr before /\
      readDailyLog parseLogEntry r.2 (logPathOf logDir e)
        = inr (before ++ [e])) /\
  appendable r.2 (logPathOf logDir e) /\
  (exists names,
      r.2 !! logDir = Some (Dir names) /\
      (fs !! logPathOf logDir e = None -> logDir <> EmptyString ->
       hd EmptyString (JS.split "T" (ts e)) +:+ ".jsonl" ∈ names)) /\
  (forall p, p ≠ logPathOf logDir e -> JS.startsWith p logDir = false ->
             r.2 !! p = fs !! p) /\
  (forall p, p ≠ logPathOf logDir e -> contentAt r.2 p = contentAt fs p).
Proof.
  intros Hway Happ Hdate Hparse r.
  set (name := hd EmptyString (JS.split "T" (ts e)) +:+ ".jsonl") in *.
  set (p := logPathOf logDir e) in *.
  assert (Hp : p = pathJoin logDir name) by reflexivity.
  assert (Hplain : JS.hasChar "/" name = false)
    by apply (LogFileFacts.isDateFormat_no_slash _ Hdate).
  (* the directory *)
  destruct (FsFacts.ensureDir_ok logDir fs Hway) as [Hens Hdir].
  set (fs1 := (ensureDir logDir fs).2) in *.
  assert (Hp1 : fs1 !! p = fs !! p).
  { apply FsFacts.ensureDir_other. rewrite Hp. apply startsWith_join. }
  assert (Hin : inDirectory fs1 p = true)
    by (rewrite Hp; now apply FsFacts.inDirectory_join).
  assert (Hnd : forall names, fs1 !! p ≠ Some (Dir names)).
  { intros names H. rewrite Hp1 in H. unfold appendable in Happ.
    now rewrite H in Happ. }
  assert (Hr : r = appendFileSync p (stringifyEntry e +:+ LF) fs1).
  { unfold r, appendToLog, bind. fold p.
    destruct (ensureDir logDir fs) as [[e1|[]] fs1'] eqn:E;
      cbn [fst snd] in *; [discriminate|reflexivity]. }
  destruct (FsFacts.write_ok _ _ FsFacts.appendFileSync_def p
              (stringifyEntry e +:+ LF) fs1 Hin Hnd) as [Hok Hnew].
  rewrite <- Hr in Hok, Hnew.
  assert (Hc1 : contentAt fs1 p = contentAt fs p)
    by now apply FsFacts.contentAt_eq.
  rewrite Hc1 in Hnew.
  destruct (trim_stringifyEntry e) as [Htrim Htruthy].
  assert (Hline : parseLines parseLogEntry [stringifyEntry e; EmptyString]
                  = [e]).
  { cbn [parseLines]. rewrite Htrim, Htruthy. cbn [negb].
    rewrite Hparse. reflexivity. }
  split; [exact Hok|]. split; [|split; [|split; [|split]]].
  - unfold appendable, contentAt in *.
    destruct (fs !! p) as [[content|names]|] eqn:E; [| done |].
    + destruct (LogFileFacts.lines_append content (stringifyEntry e) Happ
                  (stringifyEntry_no_LF e)) as (P & HP1 & HP2).
      exists (parseLines parseLogEntry (JS.split "010" content)).
      split; [now apply readDailyLog_file|].
      rewrite (readDailyLog_file _ _ _ _ Hnew).
      rewrite HP1, HP2, !parseLines_app, Hline.
      cbn [parseLines JS.trim JS.trimStart JS.trimEnd JS.truthy negb].
      now rewrite app_nil_r.
    + destruct (LogFileFacts.lines_append EmptyString (stringifyEntry e)
                  (or_introl eq_refl) (stringifyEntry_no_LF e))
        as (P & HP1 & HP2).
      destruct P as [|x [|y P]]; cbn in HP1; try done.
      exists []. split; [now apply readDailyLog_none|].
      rewrite (readDailyLog_file _ _ _ _ Hnew).
      change (stringifyEntry e +:+ LF)
        with (EmptyString +:+ stringifyEntry e +:+ LF).
      rewrite HP2. cbn [app]. now rewrite Hline.
  - unfold appendable. rewrite Hnew.
    destruct (contentAt fs p);
      [apply LogFileFacts.linesClosed_append
      |apply (LogFileFacts.linesClosed_append EmptyString)].
  - destruct (FsFacts.write_isDir _ _ FsFacts.appendFileSync_def p
                (stringifyEntry e +:+ LF) fs1 logDir Hdir) as [names Hnames].
    rewrite <- Hr in Hnames. exists names. split; [exact Hnames|].
    intros Hnone Hne. revert Hnames. rewrite Hr. unfold appendFileSync.
    rewrite Hin, Hp1, Hnone. cbn [negb snd].
    rewrite lookup_insert_ne
      by (rewrite Hp; apply LogFileFacts.pathJoin_ne).
    unfold enter. rewrite Hp, (FsFacts.parentOf_join logDir name Hplain).
    destruct logDir as [|c logDir']; [done|]. cbn [JS.truthy].
    destruct Hdir as [names1 Hnames1]. rewrite Hnames1, lookup_insert_eq.
    rewrite (FsFacts.nameOf_join _ name Hplain).
    intros [= <-]. apply elem_of_listed.
  - intros q Hq1 Hq2. rewrite Hr.
    rewrite (FsFacts.write_other _ _ FsFacts.appendFileSync_def); [|done|].
    + now apply FsFacts.ensureDir_other.
    + rewrite Hp, (FsFacts.parentOf_join logDir name Hplain).
      destruct (JS.truthy logDir); [|done]. intros [= <-].
      now rewrite FsFacts.startsWith_refl in Hq2.
  - intros q Hq. rewrite Hr.
    rewrite (FsFacts.write_contentAt _ _ FsFacts.appendFileSync_def)
      by done.
    apply FsFacts.ensureDir_contentAt.
Qed.


End DailyLogFacts.

Section DailyLog.
Import Json SleepMode LogStore.

(** X9: where no regular file stands on the way to the log directory,
    so that it is there or can be made, the daily file is absent or made
    of closed lines, the time stamp of the entry starts with a date of
    the form YYYY-MM-DD, and the line parser reads the entry back from
    the text [JSON.stringify] writes for it, [appendToLog] succeeds and
    [readDailyLog] then returns the entries it returned before followed
    by the new entry; the log directory is there afterwards and lists a
    daily file that is new; no path is touched but the daily file and the
    directories on the way to the log directory, and no other file
    changes its content. *)
Theorem appendToLog_readDailyLog
    (parseLogEntry : string -> option LogEntry)
    (fs : FS) (logDir : string) (e : LogEntry) :
  (forall a, a ∈ ancestors logDir -> contentAt fs a = None) ->
  appendable fs (logPathOf logDir e) ->
  Cli.isDateFormat (hd EmptyString (JS.split "T" (ts e))) = true ->
  parseLogEntry (stringifyEntry e) = Some e ->
  let r := appendToLog logDir e fs in
  r.1 = inr tt /\
  (exists before,
      readDailyLog parseLogEntry fs (logPathOf logDir e) = inr before /\
      readDailyLog parseLogEntry r.2 (logPathOf logDir e)
        = inr (before ++ [e])) /\
  appendable r.2 (logPathOf logDir e) /\
  (exists names,
      r.2 !! logDir = Some (Dir names) /\
      (fs !! logPathOf logDir e = None -> logDir <> EmptyString ->
       hd EmptyString (JS.split "T" (ts e)) +:+ ".jsonl" ∈ names)) /\
  (forall p, p ≠ logPathOf logDir e -> JS.startsWith p logDir = false ->
             r.2 !! p = fs !! p) /\
  (forall p, p ≠ logPathOf logDir e -> contentAt r.2 p = contentAt fs p).
Proof. apply DailyLogFacts.appendToLog_read. Qed.

(** X28: a line of a daily log that is blank or does not parse costs
    nothing but itself: [readDailyLog] returns what it returns for the
    file without that line. *)
Theorem readDailyLog_skips_malformed
    (parseLogEntry : string -> option LogEntry)
    (fs : FS) (logPath before bad after : string) :
  linesClosed before ->
  JS.hasChar "010" bad = false ->
  (JS.truthy (JS.trim bad) = true -> parseLogEntry (JS.trim bad) = None) ->
  readDailyLog parseLogEntry
    (<[logPath := File (before +:+ bad +:+ LF +:+ after)]> fs) logPath
  = readDailyLog parseLogEntry
      (<[logPath := File (before +:+ after)]> fs) logPath.
Proof.
  intros Hclosed Hbad Hparse.
  rewrite !(DailyLogFacts.readDailyLog_file parseLogEntry _ logPath _
              (lookup_insert_eq _ _ _)).
  destruct (LogFileFacts.split_closed before Hclosed) as [P HP].
  rewrite !HP. unfold LF at 1.
  change (bad +:+ String "010" EmptyString +:+ after)
    with (bad +:+ String "010" after).
  rewrite JSFacts.split_cut by exact Hbad.
  rewrite !DailyLogFacts.parseLines_app. f_equal.
  cbn [parseLines].
  destruct (JS.truthy (JS.trim bad)) eqn:E; cbn [negb]; [|reflexivity].
  now rewrite (Hparse eq_refl).
Qed.

Lemma readDailyLog_skips_malformed_witness :
  readDailyLog parseEntryLine
    (<["logs/2026-02-07.jsonl" :=
         File (linesOf [dayEntry "2026-02-07" "s1" "first"]
               +:+ "{broken json" +:+ LF
               +:+ linesOf [dayEntry "2026-02-07" "s2" "second"])]> ∅)
    "logs/2026-02-07.jsonl"
  = readDailyLog parseEntryLine
      (<["logs/2026-02-07.jsonl" :=
           File (linesOf [dayEntry "2026-02-07" "s1" "first"]
                 +:+ linesOf [dayEntry "2026-02-07" "s2" "second"])]> ∅)
      "logs/2026-02-07.jsonl".
Proof.
  apply (readDailyLog_skips_malformed parseEntryLine ∅
           "logs/2026-02-07.jsonl"
           (linesOf [dayEntry "2026-02-07" "s1" "first"]) "{broken json"
           (linesOf [dayEntry "2026-02-07" "s2" "second"])).
  - right. vm_compute. reflexivity.
  - reflexivity.
  - intros _. vm_compute. reflexivity.
Defined.

Lemma appendToLog_readDailyLog_witness :
  exists before,
    readDailyLog parseEntryLine searchFs
      (logPathOf "logs" (dayEntry "2026-02-05" "s9" "One more")) = inr before /\
    readDailyLog parseEntryLine
      (appendToLog "logs" (dayEntry "2026-02-05" "s9" "One more") searchFs).2
      (logPathOf "logs" (dayEntry "2026-02-05" "s9" "One more"))
      = inr (before ++ [dayEntry "2026-02-05" "s9" "One more"]).
Proof.
  refine (proj1 (proj2 (appendToLog_readDailyLog parseEntryLine searchFs
            "logs" (dayEntry "2026-02-05" "s9" "One more") _ _ _ _))).
  - intros a Ha. apply list_elem_of_singleton in Ha as ->. reflexivity.
  - right. vm_compute. reflexivity.
  - reflexivity.
  - vm_compute. reflexivity.
Defined.

End DailyLog.

Module JsonRoundTripFacts.
Import JSFacts StringFacts Json SleepMode LogStore.
Local Arguments String.append : simpl nomatch.

(** The characters [JSON.stringify] writes for a string are read back as
    that string, up to the closing quote. *)
Lemma parseChars_escapeChars (s rest : string) :
  parseChars (escapeChars s +:+ String DQUOTE rest) = Some (s, rest).
Proof.
  induction s as [|c s IH].
  - cbn. reflexivity.
  - cbn [escapeChars]. rewrite append_assoc.
    set (tail := escapeChars s +:+ String DQUOTE rest) in *.
    transitivity (match parseChars tail with
                  | Some (str, r) => Some (String c str, r)
                  | None => None
                  end); [|now rewrite IH].
    clearbody tail. clear IH.
    destruct c as [[] [] [] [] [] [] [] []]; reflexivity.
Qed.

Lemma quoted_append (s rest : string) :
  quoted s +:+ rest = String DQUOTE (s +:+ String DQUOTE rest).
Proof. unfold quoted. cbn [String.append]. now rewrite append_assoc. Qed.

(** One step of the parser on a text that starts with a quote, a brace
    or a bracket. *)
Lemma parseValue_quote (F : nat) (r : string) :
  parseValue (S F) (String DQUOTE r) =
    match parseChars r with
    | Some (str, rest) => Some (JString str, rest)
    | None => None
    end.
Proof. reflexivity. Qed.

Lemma parseValue_brace (F : nat) (r : string) :
  parseValue (S F) (String "{" (String DQUOTE r)) =
    parseMembers F (String DQUOTE r) [].
Proof. reflexivity. Qed.

Lemma parseValue_bracket (F : nat) (r : string) :
  parseValue (S F) (String "[" (String "{" r)) =
    parseItems F (String "{" r) [].
Proof. reflexivity. Qed.

Lemma parseValue_empty_array (F : nat) (r : string) :
  parseValue (S F) (String "[" (String "]" r)) = Some (JArray [], r).
Proof. reflexivity. Qed.

Lemma parseMembers_quote (F : nat) (r : string) (acc : list (string * JSON)) :
  parseMembers (S F) (String DQUOTE r) acc =
    match parseChars r with
    | None => None
    | Some (key, r1) =>
        match skipWs r1 with
        | String ":" r2 =>
            match parseValue F r2 with
            | None => None
            | Some (v, r3) =>
                match skipWs r3 with
                | String "," r4 => parseMembers F r4 (acc ++ [(key, v)])
                | String "}" r4 => Some (JObject (acc ++ [(key, v)]), r4)
                | _ => None
                end
            end
        | _ => None
        end
    end.
Proof. reflexivity. Qed.

Lemma parseItems_step (F : nat) (s : string) (acc : list JSON) :
  parseItems (S F) s acc =
    match parseValue F s with
    | None => None
    | Some (v, r) =>
        match skipWs r with
        | String "," r' => parseItems F r' (acc ++ [v])
        | String "]" r' => Some (JArray (acc ++ [v]), r')
        | _ => None
        end
    end.
Proof. reflexivity. Qed.

Lemma parseValue_string (F : nat) (s rest : string) :
  parseValue (S F) (stringifyString s +:+ rest) = Some (JString s, rest).
Proof.
  unfold stringifyString. rewrite quoted_append, parseValue_quote.
  now rewrite parseChars_escapeChars.
Qed.

(** A member whose value is a string, followed by a comma or by the
    closing brace. *)
Lemma member_append (key value rest : string) :
  member key value +:+ rest =
    String DQUOTE (key +:+ String DQUOTE (String ":" (value +:+ rest))).
Proof.
  unfold member. rewrite append_assoc, quoted_append.
  now rewrite append_assoc.
Qed.

Lemma parseMembers_member (F : nat) (key value : string) (v : JSON)
    (acc : list (string * JSON)) (rest : string) :
  escapeChars key = key ->
  (forall rest', parseValue F (value +:+ rest') = Some (v, rest')) ->
  parseMembers (S F) (member key value +:+ String "," rest) acc
    = parseMembers F rest (acc ++ [(key, v)]) /\
  parseMembers (S F) (member key value +:+ String "}" rest) acc
    = Some (JObject (acc ++ [(key, v)]), rest).
Proof.
  intros Hkey Hv.
  assert (Hpc : forall r, parseChars (key +:+ String DQUOTE r) = Some (key, r)).
  { intros r. rewrite <- Hkey at 1. apply parseChars_escapeChars. }
  rewrite !member_append, !parseMembers_quote, !Hpc.
  change (skipWs (String ":" ?x)) with (String ":" x).
  cbv iota beta. rewrite !Hv. split; reflexivity.
Qed.

Lemma parseValue_object (F : nat) (key value r : string) :
  parseValue (S F) ("{" +:+ member key value +:+ r) =
    parseMembers F (member key value +:+ r) [].
Proof. rewrite member_append. reflexivity. Qed.

Lemma parseValue_message (G : nat) (m : Message) (rest : string) :
  (5 <= G)%nat ->
  parseValue G (stringifyMessage m +:+ rest) = Some (jsonOfMessage m, rest).
Proof.
  intros HG. do 5 (destruct G as [|G]; [lia|]). clear HG.
  unfold stringifyMessage, jsonOfMessage. rewrite !append_assoc.
  rewrite parseValue_object.
  change ("," +:+ ?x) with (String "," x).
  rewrite (proj1 (parseMembers_member _ "role" _ (JString (roleName (role m)))
                    _ _ eq_refl (parseValue_string _ _))).
  destruct (tool_name m) as [t|].
  - rewrite !append_assoc.
    change ("," +:+ ?x) with (String "," x).
    change ("}" +:+ ?x) with (String "}" x).
    rewrite (proj1 (parseMembers_member _ "content" _ (JString (content m))
                      _ _ eq_refl (parseValue_string _ _))).
    rewrite (proj2 (parseMembers_member _ "tool_name" _ (JString t)
                      _ _ eq_refl (parseValue_string _ _))).
    reflexivity.
  - change (EmptyString +:+ ?x) with x.
    change ("}" +:+ ?x) with (String "}" x).
    rewrite (proj2 (parseMembers_member _ "content" _ (JString (content m))
                      _ _ eq_refl (parseValue_string _ _))).
    reflexivity.
Qed.

Lemma length_join_messages (msgs : list Message) :
  (length msgs <= String.length (JS.join "," (map stringifyMessage msgs)))%nat.
Proof.
  induction msgs as [|m msgs IH]; [simpl; lia|].
  destruct msgs as [|m' msgs].
  - simpl. unfold stringifyMessage. rewrite length_append. simpl. lia.
  - cbn [map] in *. rewrite join_cons, !length_append.
    unfold stringifyMessage at 1. rewrite length_append. simpl in *. lia.
Qed.

Lemma parseItems_messages (msgs : list Message) :
  msgs <> [] ->
  forall (F : nat) (acc : list JSON) (rest : string),
    (length msgs + 5 <= F)%nat ->
    parseItems F (JS.join "," (map stringifyMessage msgs) +:+ String "]" rest)
               acc
      = Some (JArray (acc ++ map jsonOfMessage msgs), rest).
Proof.
  induction msgs as [|m msgs IH]; [done|]. intros _ F acc rest HF.
  destruct F as [|F]; [simpl in HF; lia|].
  rewrite parseItems_step.
  destruct msgs as [|m' msgs].
  - cbn [map JS.join].
    rewrite parseValue_message by (simpl in HF; lia). reflexivity.
  - cbn [map]. rewrite join_cons, !append_assoc.
    rewrite parseValue_message by (simpl in HF; lia).
    change ("," +:+ ?x) with (String "," x).
    change (skipWs (String "," ?x)) with (String "," x). cbv iota beta.
    rewrite (IH ltac:(done)) by (simpl in *; lia).
    cbn [map]. now rewrite <- app_assoc.
Qed.

Lemma decodeRole_roleName (r : Role) : decodeRole (roleName r) = Some r.
Proof. now destruct r. Qed.

Lemma decodeMessage_json (m : Message) :
  decodeMessage (jsonOfMessage m) = Some m.
Proof.
  destruct m as [r c [t|]]; unfold decodeMessage, jsonOfMessage, stringField;
    cbn; rewrite decodeRole_roleName; reflexivity.
Qed.

Lemma decodeAll_messages (msgs : list Message) :
  decodeAll decodeMessage (map jsonOfMessage msgs) = Some msgs.
Proof.
  induction msgs as [|m msgs IH]; [reflexivity|].
  cbn [map decodeAll]. now rewrite decodeMessage_json, IH.
Qed.

Lemma decodeLogEntry_json (e : LogEntry) : decodeLogEntry (jsonOfEntry e) = Some e.
Proof.
  destruct e as [t u c s msgs].
  unfold decodeLogEntry, jsonOfEntry, stringField. cbn.
  now rewrite decodeAll_messages.
Qed.

(** The text of an entry parses to the value of the entry. *)
Lemma parseValue_entry (F : nat) (e : LogEntry) (rest : string) :
  (length (messages e) + 12 <= F)%nat ->
  parseValue F (stringifyEntry e +:+ rest) = Some (jsonOfEntry e, rest).
Proof.
  intros HF. do 6 (destruct F as [|F]; [lia|]).
  assert (Hmsgs : forall rest',
            parseValue F
              (("[" +:+ JS.join "," (map stringifyMessage (messages e))
                    +:+ "]") +:+ rest')
            = Some (JArray (map jsonOfMessage (messages e)), rest')).
  { intros rest'. rewrite !append_assoc.
    destruct (messages e) as [|m msgs] eqn:Em.
    - destruct F as [|F]; [simpl in HF; lia|]. reflexivity.
    - destruct F as [|F]; [simpl in HF; lia|].
      change ("]" +:+ ?x) with (String "]" x).
      assert (Hhead : forall x,
                "[" +:+ JS.join "," (map stringifyMessage (m :: msgs)) +:+ x
                = String "[" (String "{"
                    (JS.drop 1 (JS.join "," (map stringifyMessage (m :: msgs))
                                +:+ x)))).
      { intros x. cbn [map]. destruct msgs; reflexivity. }
      assert (Hback : forall x,
                String "{"
                  (JS.drop 1 (JS.join "," (map stringifyMessage (m :: msgs))
                              +:+ x))
                = JS.join "," (map stringifyMessage (m :: msgs)) +:+ x).
      { intros x. cbn [map]. destruct msgs; reflexivity. }
      rewrite Hhead, parseValue_bracket, Hback.
      rewrite parseItems_messages by (simpl in *; try done; lia).
      reflexivity. }
  unfold stringifyEntry, jsonOfEntry. rewrite !append_assoc.
  rewrite parseValue_object.
  repeat change ("," +:+ ?x) with (String "," x).
  change ("}" +:+ ?x) with (String "}" x).
  rewrite (proj1 (parseMembers_member _ "ts" _ (JString (ts e))
                    _ _ eq_refl (parseValue_string _ _))).
  rewrite (proj1 (parseMembers_member _ "user_id" _ (JString (user_id e))
                    _ _ eq_refl (parseValue_string _ _))).
  rewrite (proj1 (parseMembers_member _ "channel" _ (JString (channel e))
                    _ _ eq_refl (parseValue_string _ _))).
  rewrite (proj1 (parseMembers_member _ "session_id" _
                    (JString (session_id e))
                    _ _ eq_refl (parseValue_string _ _))).
  rewrite (proj2 (parseMembers_member _ "messages" _
                    (JArray (map jsonOfMessage (messages e)))
                    _ _ eq_refl Hmsgs)).
  reflexivity.
Qed.

(** The parser reads back the text of an entry. *)
Lemma parseEntryLine_roundtrip (e : LogEntry) :
  parseEntryLine (stringifyEntry e) = Some e.
Proof.
  unfold parseEntryLine, parse.
  rewrite <- (append_empty_r (stringifyEntry e)) at 2.
  rewrite parseValue_entry.
  - cbn [skipWs]. apply decodeLogEntry_json.
  - pose proof (length_join_messages (messages e)) as Hlen.
    unfold stringifyEntry, member, stringifyString, quoted.
    repeat first [rewrite length_append
                 | progress cbn [String.length]].
    lia.
Qed.

End JsonRoundTripFacts.

Section JsonRoundTrip.
Import Json SleepMode LogStore.

(** X10: the line [appendToLog] writes for an entry is read back as that
    entry: [JSON.parse] of [JSON.stringify(entry)], with the cast to
    [LogEntry] checked, returns the entry, whatever characters its
    strings hold. *)
Theorem parseEntryLine_stringifyEntry (e : LogEntry) :
  parseEntryLine (stringifyEntry e) = Some e.
Proof. apply JsonRoundTripFacts.parseEntryLine_roundtrip. Qed.

End JsonRoundTrip.
(** ** The maintenance run as a whole *)

Module RunFacts.
Import JSFacts StringFacts Json SleepMode LogStore Digest Cli.
Local Arguments String.append : simpl nomatch.

Lemma drop_suffix (x y : string) :
  JS.drop (String.length (x +:+ y) - String.length y) (x +:+ y) = y.
Proof.
  rewrite length_append.
  replace (String.length x + String.length y - String.length y)%nat
    with (String.length x) by lia.
  apply ParserFacts.drop_append.
Qed.

(** The digest of a date is never the sentinel of a log directory. *)
Lemma digestPath_ne_processed (digestDir date logDir : string) :
  digestPath digestDir date ≠ processedFile logDir.
Proof.
  unfold digestPath, processedFile, pathJoin. intros H.
  pose proof (drop_suffix (digestDir +:+ "/" +:+ date) ".md") as H1.
  pose proof (drop_suffix (logDir +:+ "/.proces") "sed") as H2.
  rewrite !append_assoc in H1, H2.
  change ("/.proces" +:+ "sed") with ("/" +:+ ".processed") in H2.
  change (("/" +:+ date) +:+ ".md") with ("/" +:+ date +:+ ".md") in H1.
  rewrite H in H1. change (String.length ".md") with (String.length "sed") in H1.
  rewrite H2 in H1. discriminate.
Qed.

Lemma digestPath_under (digestDir date : string) :
  JS.startsWith (digestDir +:+ "/") (digestPath digestDir date) = true.
Proof.
  unfold digestPath, pathJoin. rewrite <- append_assoc.
  apply startsWith_append.
Qed.

(** [saveDigest] touches the directories on the way to the one of the
    digests and what lies under it, and nothing else. *)
Lemma saveDigest_other (digestDir date : string)
    (analysis : SleepAnalysis string) (stats : option Stats)
    (fs0 : FS) (p : string) :
  JS.startsWith p digestDir = false ->
  JS.startsWith (digestDir +:+ "/") p = false ->
  (saveDigest digestDir date analysis stats fs0).2 !! p = fs0 !! p.
Proof.
  intros H1 H2. unfold saveDigest, bind.
  pose proof (FsFacts.ensureDir_other digestDir fs0 p H1) as Hdir.
  destruct (ensureDir digestDir fs0) as [[e1|[]] fs1]; cbn [fst snd] in *;
    [exact Hdir|].
  rewrite (FsFacts.write_other _ _ FsFacts.writeFileSync_def); [done| |].
  - intros ->. now rewrite digestPath_under in H2.
  - intros Hp. unfold digestPath, pathJoin in Hp.
    change ("/" +:+ date +:+ ".md") with (String "/" (date +:+ ".md")) in Hp.
    apply FsFacts.parentOf_under in Hp as [->|Hp]; [|congruence].
    now rewrite FsFacts.startsWith_refl in H1.
Qed.

(** It changes the content of no file but the digest of the date. *)
Lemma saveDigest_contentAt (digestDir date : string)
    (analysis : SleepAnalysis string) (stats : option Stats)
    (fs0 : FS) (p : string) :
  p ≠ digestPath digestDir date ->
  contentAt (saveDigest digestDir date analysis stats fs0).2 p
    = contentAt fs0 p.
Proof.
  intros H1. unfold saveDigest, bind.
  pose proof (FsFacts.ensureDir_contentAt digestDir fs0 p) as Hdir.
  destruct (ensureDir digestDir fs0) as [[e1|[]] fs1]; cbn [fst snd] in *;
    [exact Hdir|].
  now rewrite (FsFacts.write_contentAt _ _ FsFacts.writeFileSync_def).
Qed.

Lemma saveDigest_isDir (digestDir date : string)
    (analysis : SleepAnalysis string) (stats : option Stats)
    (fs0 : FS) (p : string) :
  isDir fs0 p -> isDir (saveDigest digestDir date analysis stats fs0).2 p.
Proof.
  intros H. unfold saveDigest, bind.
  pose proof (FsFacts.ensureDir_isDir digestDir fs0 p H) as Hdir.
  destruct (ensureDir digestDir fs0) as [[e1|[]] fs1]; cbn [fst snd] in *;
    [exact Hdir|].
  now apply (FsFacts.write_isDir _ _ FsFacts.writeFileSync_def).
Qed.

(** A path that is no directory, no digest and not on the way to the
    directory of the digests is left as it is. *)
Lemma saveDigest_stable (digestDir date : string)
    (analysis : SleepAnalysis string) (stats : option Stats)
    (fs0 : FS) (p : string) :
  JS.startsWith p digestDir = false ->
  p ≠ digestPath digestDir date ->
  (forall names, fs0 !! p ≠ Some (Dir names)) ->
  (saveDigest digestDir date analysis stats fs0).2 !! p = fs0 !! p.
Proof.
  intros H1 H2 H3. unfold saveDigest, bind.
  pose proof (FsFacts.ensureDir_other digestDir fs0 p H1) as Hdir.
  destruct (ensureDir digestDir fs0) as [[e1|[]] fs1]; cbn [fst snd] in *;
    [exact Hdir|].
  destruct (FsFacts.write_lookup _ _ FsFacts.writeFileSync_def
              (digestPath digestDir date)
              (JS.join LF (digestLines date analysis stats)) fs1 p)
    as [H|[(H & _)|(_ & (n & n' & H & _))]]; [congruence|done|].
  rewrite Hdir in H. now destruct (H3 n).
Qed.

Lemma lastN_length {A : Type} (n : nat) (l : list A) :
  length (lastN n l) = Nat.min n (length l).
Proof. unfold lastN. rewrite length_skipn. lia. Qed.

Lemma lastN_subseteq {A : Type} (n : nat) (l : list A) (x : A) :
  x ∈ lastN n l -> x ∈ l.
Proof.
  unfold lastN. intros H. rewrite <- (firstn_skipn (length l - n) l).
  apply elem_of_app. now right.
Qed.

Lemma chatMessagesOf_roles (entries : list LogEntry) (m : ChatMessage) :
  m ∈ chatMessagesOf entries -> chatRole m = user \/ chatRole m = assistant.
Proof.
  unfold chatMessagesOf. intros H.
  apply list_elem_of_In in H. apply in_flat_map in H as (e & _ & H).
  apply list_elem_of_In in H. apply list_elem_of_fmap in H as (msg & -> & H).
  apply list_elem_of_filter in H as [H _]. exact H.
Qed.

Lemma markedDates_app (c1 c2 : list Call) :
  markedDates (c1 ++ c2) = markedDates c1 ++ markedDates c2.
Proof. unfold markedDates. apply flat_map_app. Qed.

Section Action.

Variable localeCompare : string -> string -> Z.
Variable parseLogEntry : string -> option LogEntry.
Variable Provider : Type.
Variable AddOptions : Type.
Variable provider_getAll :
  string -> Provider -> (Exn + list string) * Provider.
Variable provider_add :
  list ChatMessage -> AddOptions -> Provider -> (Exn + AddResult) * Provider.
Variables (userId logDir digestDir : string) (maxChunkChars : Z)
          (digestEnabled : bool) (addOptions : AddOptions) (now : string).

Abbreviation tryBlock :=
  (tryBlock Provider AddOptions provider_add digestDir digestEnabled addOptions).
Abbreviation processDay :=
  (processDay parseLogEntry Provider AddOptions provider_add logDir digestDir
              maxChunkChars digestEnabled addOptions).
Abbreviation runDays :=
  (runDays parseLogEntry Provider AddOptions provider_add logDir digestDir
           maxChunkChars digestEnabled addOptions).
Abbreviation markProcessedM := (markProcessedM Provider logDir).
Abbreviation add := (add Provider AddOptions provider_add addOptions).
Abbreviation saveDigestM := (saveDigestM Provider digestDir).
Abbreviation getAll := (getAll Provider provider_getAll userId).
Abbreviation discover := (discover localeCompare Provider logDir now).
Abbreviation sleepAction :=
  (sleepAction localeCompare parseLogEntry Provider AddOptions provider_getAll
               provider_add userId logDir digestDir maxChunkChars
               digestEnabled addOptions now).

Abbreviation effect := (@runEffect Provider logDir digestDir).

Lemma effect_refl (w : World Provider) : effect w w.
Proof.
  split; [|done].
  exists []. rewrite app_nil_r. split; [done|]. split; [constructor|].
  intros Hmark _ _. split; [done|]. cbn. now rewrite union_empty_r_L.
Qed.

Lemma effect_trans (w1 w2 w3 : World Provider) :
  effect w1 w2 -> effect w2 w3 -> effect w1 w3.
Proof.
  intros [(c1 & J1 & B1 & D1) [F1 C1]] [(c2 & J2 & B2 & D2) [F2 C2]].
  split; [|split].
  - exists (c1 ++ c2). split; [rewrite J2, J1; now rewrite app_assoc|].
    split; [now apply Forall_app|].
    intros Hmark Hne Hlf. rewrite markedDates_app in Hlf |- *.
    apply Forall_app in Hlf as [L1 L2].
    destruct (D1 Hmark Hne L1) as [A1 S1].
    destruct (D2 A1 Hne L2) as [A2 S2].
    split; [done|]. rewrite S2, S1, LogFileFacts.datesOf_app.
    now rewrite union_assoc_L.
  - intros p Hp. rewrite F2, F1; done.
  - intros p H1 H2. rewrite C2, C1; done.
Qed.

(** A step that marks nothing and touches, of the file system, the
    digests and the directories on the way to them only. *)
Lemma effect_quiet (w w' : World Provider) (calls : list Call) :
  journal w' = journal w ++ calls ->
  Forall batchOk calls ->
  markedDates calls = [] ->
  (forall p, JS.startsWith p digestDir = false ->
             JS.startsWith (digestDir +:+ "/") p = false ->
             fs w' !! p = fs w !! p) ->
  (forall p, (forall d, p ≠ digestPath digestDir d) ->
             contentAt (fs w') p = contentAt (fs w) p) ->
  (forall p, isDir (fs w) p -> isDir (fs w') p) ->
  (forall p, JS.startsWith p digestDir = false ->
             (forall d, p ≠ digestPath digestDir d) ->
             (forall names, fs w !! p ≠ Some (Dir names)) ->
             fs w' !! p = fs w !! p) ->
  effect w w'.
Proof.
  intros HJ HB HM HF HC HD HS. split; [|split].
  - exists calls. split; [done|]. split; [done|].
    intros [Hdir Happ] Hne _. rewrite HM.
    assert (Hs : fs w' !! processedFile logDir = fs w !! processedFile logDir).
    { apply HS; [done| |].
      - intros d H. symmetry in H. now apply digestPath_ne_processed in H.
      - intros names H. unfold appendable in Happ. now rewrite H in Happ. }
    split; [split|].
    + now apply HD.
    + unfold appendable in *. now rewrite Hs.
    + rewrite (LogFileFacts.getProcessedDates_same (fs w) (fs w'))
        by now apply FsFacts.contentAt_eq.
      cbn. now rewrite union_empty_r_L.
  - intros p (_ & _ & H1 & H2). now apply HF.
  - intros p _ H. now apply HC.
Qed.

Lemma effect_add (messages : list ChatMessage) (w : World Provider) :
  batchOk (CallAdd messages) -> effect w (add messages w).2.
Proof.
  intros HB.
  destruct (SchedulerFacts.add_effect Provider AddOptions provider_add
              addOptions messages w) as [Hfs Hj].
  apply (effect_quiet _ _ [CallAdd messages]); try done;
    try (intros; now rewrite Hfs).
  now constructor.
Qed.

Lemma effect_getAll (w : World Provider) : effect w (getAll w).2.
Proof.
  destruct (SchedulerFacts.getAll_effect Provider provider_getAll userId w)
    as [Hfs Hj].
  apply (effect_quiet _ _ [CallGetAll]); try done;
    try (intros; now rewrite Hfs).
  now constructor.
Qed.

Lemma effect_saveDigest (date : string) (analysis : SleepAnalysis string)
    (w : World Provider) :
  effect w (saveDigestM date analysis w).2.
Proof.
  destruct (SchedulerFacts.callFs_effect Provider (CallSaveDigest date)
              (saveDigest digestDir date analysis None) w)
    as (_ & Hfs & _ & Hj).
  apply (effect_quiet _ _ [CallSaveDigest date]); try done.
  - now constructor.
  - intros p H1 H2. unfold Cli.saveDigestM. rewrite Hfs.
    now apply saveDigest_other.
  - intros p H. unfold Cli.saveDigestM. rewrite Hfs.
    now apply saveDigest_contentAt.
  - intros p H. unfold Cli.saveDigestM. rewrite Hfs.
    now apply saveDigest_isDir.
  - intros p H1 H2 H3. unfold Cli.saveDigestM. rewrite Hfs.
    now apply saveDigest_stable.
Qed.

Lemma effect_markProcessed (date : string) (w : World Provider) :
  effect w (markProcessedM date w).2.
Proof.
  destruct (SchedulerFacts.callFs_effect Provider (CallMarkProcessed date)
              (markProcessed logDir date) w) as (_ & Hfs & _ & Hj).
  fold (markProcessedM date) in Hfs, Hj. split; [|split].
  - exists [CallMarkProcessed date]. split; [done|].
    split; [now constructor|].
    intros Hmark _ Hlf. cbn in Hlf. apply Forall_inv in Hlf.
    destruct (LogFileFacts.markProcessed_dates (fs w) logDir date Hmark Hlf)
      as (_ & Hmark' & Hset).
    rewrite Hfs. split; [done|]. rewrite Hset. f_equal.
    unfold datesOf. cbn [markedDates flat_map app map].
    rewrite filter_cons, filter_nil.
    destruct (JS.truthy (JS.trim date)) eqn:E.
    + rewrite decide_True by done. cbn. now rewrite union_empty_r_L.
    + rewrite decide_False by congruence. reflexivity.
  - intros p (Hp & Hq & _). rewrite Hfs.
    now apply LogFileFacts.markProcessed_other.
  - intros p Hp _. rewrite Hfs. unfold markProcessed.
    now apply (FsFacts.write_contentAt _ _ FsFacts.appendFileSync_def).
Qed.

Lemma effect_tryBlock (log : LogFile) (entries : list LogEntry)
    (w : World Provider) :
  effect w (tryBlock log entries w).2.
Proof.
  unfold Cli.tryBlock.
  destruct (0 <? length (chatMessagesOf entries))%nat eqn:Hlen;
    [|apply effect_refl].
  apply Nat.ltb_lt in Hlen.
  assert (HB : batchOk (CallAdd (lastN 20 (chatMessagesOf entries)))).
  { cbn. rewrite lastN_length. split; [lia|].
    apply Forall_forall. intros m Hm.
    apply lastN_subseteq in Hm. now apply chatMessagesOf_roles in Hm. }
  unfold bind.
  pose proof (effect_add _ w HB) as Hadd.
  destruct (add (lastN 20 (chatMessagesOf entries)) w) as [[e|result] w1];
    cbn in *; [exact Hadd|].
  destruct digestEnabled; [|exact Hadd].
  eapply effect_trans; [exact Hadd|]. apply effect_saveDigest.
Qed.

Lemma effect_processDay (log : LogFile) (w : World Provider) :
  effect w (processDay log w).2.
Proof.
  unfold Cli.processDay, bind, readFs, reading.
  destruct (readDailyLog parseLogEntry (fs w) (path log)) as [e|entries];
    [apply effect_refl|].
  destruct entries as [|x entries]; [apply effect_markProcessed|].
  unfold tryCatch, bind.
  pose proof (effect_tryBlock log (x :: entries) w) as Htry.
  destruct (tryBlock log (x :: entries) w) as [[e|[]] w1]; cbn in *;
    [exact Htry|].
  eapply effect_trans; [exact Htry|]. apply effect_markProcessed.
Qed.

Lemma effect_runDays (logs : list LogFile) (w : World Provider) :
  effect w (runDays logs w).2.
Proof.
  revert w; induction logs as [|log rest IH]; intros w; [apply effect_refl|].
  cbn [Cli.runDays]. unfold bind.
  pose proof (effect_processDay log w) as Hday.
  destruct (processDay log w) as [[e|[]] w1]; cbn in *; [exact Hday|].
  eapply effect_trans; [exact Hday|]. apply IH.
Qed.

Lemma effect_sleepAction (opts : Options) (w : World Provider) :
  effect w (sleepAction opts w).2.
Proof.
  unfold Cli.sleepAction.
  destruct (invalidDate opts); [apply effect_refl|].
  unfold bind at 1, reading.
  destruct (discover opts w) as [e|[|log rest]]; try apply effect_refl.
  destruct (dryRun opts); [apply effect_refl|].
  unfold bind at 1, tryCatch, bind at 1.
  pose proof (effect_getAll w) as Hget.
  destruct (getAll w) as [[e|l] w1]; cbn in *;
    (eapply effect_trans; [exact Hget|];
     apply (effect_runDays (log :: rest) w1)).
Qed.

(** The calls of [markProcessed] of a run are made for dates of its
    candidates. *)
Lemma marked_processDay (log : LogFile) (w : World Provider)
    (calls : list Call) :
  journal (processDay log w).2 = journal w ++ calls ->
  forall d, d ∈ markedDates calls -> d = date log.
Proof.
  intros HJ d Hd.
  revert HJ. unfold Cli.processDay, bind, readFs, reading.
  destruct (readDailyLog parseLogEntry (fs w) (path log)) as [e|entries].
  { cbn. intros HJ. rewrite <- (app_nil_r (journal w)) in HJ at 1.
    apply app_inv_head in HJ as <-. now apply elem_of_nil in Hd. }
  assert (Hmark : forall w0 calls0,
            journal (markProcessedM (date log) w0).2 = journal w0 ++ calls0 ->
            calls0 = [CallMarkProcessed (date log)]).
  { intros w0 calls0 H.
    destruct (SchedulerFacts.callFs_effect Provider
                (CallMarkProcessed (date log))
                (markProcessed logDir (date log)) w0) as (_ & _ & _ & Hj).
    fold (markProcessedM (date log)) in Hj. rewrite Hj in H.
    now apply app_inv_head in H. }
  destruct entries as [|x entries].
  { intros HJ. apply Hmark in HJ as ->. cbn in Hd.
    now apply list_elem_of_singleton in Hd. }
  unfold tryCatch, bind.
  destruct (SchedulerFacts.tryBlock_effect Provider AddOptions provider_add
              digestDir digestEnabled addOptions log (x :: entries) w)
    as [(tc & Htj & Htc) _].
  assert (Hnone : markedDates tc = []).
  { clear -Htc. induction Htc as [|c tc [[m ->]|[d' ->]] _ IH]; cbn; done. }
  destruct (tryBlock log (x :: entries) w) as [[e|[]] w1]; cbn in *.
  - intros HJ. rewrite Htj in HJ. apply app_inv_head in HJ as <-.
    rewrite Hnone in Hd. now apply elem_of_nil in Hd.
  - intros HJ.
    destruct (SchedulerFacts.callFs_effect Provider
                (CallMarkProcessed (date log))
                (markProcessed logDir (date log)) w1) as (_ & _ & _ & Hj).
    fold (markProcessedM (date log)) in Hj.
    rewrite Hj, Htj, <- app_assoc in HJ. apply app_inv_head in HJ as <-.
    rewrite markedDates_app, Hnone in Hd. cbn in Hd.
    now apply list_elem_of_singleton in Hd.
Qed.

Lemma marked_runDays (logs : list LogFile) (w : World Provider)
    (calls : list Call) :
  journal (runDays logs w).2 = journal w ++ calls ->
  forall d, d ∈ markedDates calls -> exists l, l ∈ logs /\ d = date l.
Proof.
  revert w calls; induction logs as [|log rest IH]; intros w calls HJ d Hd.
  - cbn in HJ. rewrite <- (app_nil_r (journal w)) in HJ at 1.
    apply app_inv_head in HJ as <-. now apply elem_of_nil in Hd.
  - revert HJ. cbn [Cli.runDays]. unfold bind.
    destruct (effect_processDay log w) as [(c1 & J1 & _) _].
    pose proof (marked_processDay log w c1 J1) as M1.
    destruct (processDay log w) as [[e|[]] w1]; cbn in *.
    + intros HJ. rewrite J1 in HJ. apply app_inv_head in HJ as <-.
      exists log. split; [left|]. now apply M1.
    + intros HJ.
      destruct (effect_runDays rest w1) as [(c2 & J2 & _) _].
      rewrite J2, J1, <- app_assoc in HJ. apply app_inv_head in HJ as <-.
      rewrite markedDates_app in Hd. apply elem_of_app in Hd as [Hd|Hd].
      * exists log. split; [left|]. now apply M1.
      * destruct (IH w1 c2 J2 d Hd) as (l & Hl & ->).
        exists l. split; [now right|done].
Qed.

End Action.
End RunFacts.

Section WholeRun.
Import Json SleepMode LogStore Digest Cli.

Variable localeCompare : string -> string -> Z.
Variable parseLogEntry : string -> option LogEntry.
Variable Provider : Type.
Variable AddOptions : Type.
Variable provider_getAll :
  string -> Provider -> (Exn + list string) * Provider.
Variable provider_add :
  list ChatMessage -> AddOptions -> Provider -> (Exn + AddResult) * Provider.
Variables (userId logDir digestDir : string) (maxChunkChars : Z)
          (digestEnabled : bool) (addOptions : AddOptions) (now : string).

Abbreviation runDays :=
  (runDays parseLogEntry Provider AddOptions provider_add logDir digestDir
           maxChunkChars digestEnabled addOptions).
Abbreviation discover := (discover localeCompare Provider logDir now).
Abbreviation sleepAction :=
  (sleepAction localeCompare parseLogEntry Provider AddOptions provider_getAll
               provider_add userId logDir digestDir maxChunkChars
               digestEnabled addOptions now).


(** X12: whatever the options, the store and the file system, every
    batch the command hands to the store's [add] holds between one and
    twenty messages, all of the user or of the assistant. *)
Theorem sleepAction_batches (opts : Options) (w : World Provider) :
  exists calls,
    journal (sleepAction opts w).2 = journal w ++ calls /\
    Forall batchOk calls.
Proof.
  destruct (RunFacts.effect_sleepAction localeCompare parseLogEntry Provider
              AddOptions provider_getAll provider_add userId logDir digestDir
              maxChunkChars digestEnabled addOptions now opts w)
    as [(calls & HJ & HB & _) _].
  eauto.
Qed.

(** X13: the command changes the content of no file but the sentinel
    of the log directory and the digest files, so the daily logs it
    reads are left as they are; and it touches no path at all but the
    sentinel, the log directory, whose listing gains the sentinel, the
    directory of the digests with what lies under it, and the
    directories on the way to it. *)
Theorem sleepAction_touches (opts : Options) (w : World Provider)
    (p : string) :
  (p ≠ processedFile logDir ->
   (forall d, p ≠ digestPath digestDir d) ->
   contentAt (fs (sleepAction opts w).2) p = contentAt (fs w) p) /\
  (leftAlone logDir digestDir p ->
   fs (sleepAction opts w).2 !! p = fs w !! p).
Proof.
  destruct (RunFacts.effect_sleepAction localeCompare parseLogEntry Provider
              AddOptions provider_getAll provider_add userId logDir digestDir
              maxChunkChars digestEnabled addOptions now opts w)
    as [_ [HF HC]].
  split; [apply HC|apply HF].
Qed.

(** X14: where the log directory is there, the sentinel is absent or
    made of closed lines and is no directory on the way to the digests,
    and no candidate date holds a line feed, the processed dates after
    the loop over the candidates are those of before together with the
    dates for which the loop called [markProcessed], each the date of a
    candidate; no date is lost, and the sentinel can be written again. *)
Theorem runDays_processed_dates (logs : list LogFile) (w : World Provider) :
  markable (fs w) logDir ->
  JS.startsWith (processedFile logDir) digestDir = false ->
  Forall (fun l => JS.hasChar "010" (date l) = false) logs ->
  let w' := (runDays logs w).2 in
  exists calls,
    journal w' = journal w ++ calls /\
    (forall d, d ∈ markedDates calls -> exists l, l ∈ logs /\ d = date l) /\
    markable (fs w') logDir /\
    getProcessedDates (fs w') logDir =
      getProcessedDates (fs w) logDir ∪ datesOf (markedDates calls).
Proof.
  intros Hmark Hne Hlf w'.
  destruct (RunFacts.effect_runDays parseLogEntry Provider AddOptions
              provider_add logDir digestDir maxChunkChars digestEnabled
              addOptions logs w) as [(calls & HJ & _ & HD) _].
  pose proof (RunFacts.marked_runDays parseLogEntry Provider AddOptions
                provider_add logDir digestDir maxChunkChars digestEnabled
                addOptions logs w calls HJ) as HM.
  exists calls. split; [exact HJ|]. split; [exact HM|].
  apply HD; [done|done|].
  apply Forall_forall. intros d Hd.
  destruct (HM d Hd) as (l & Hl & ->).
  rewrite Forall_forall in Hlf. now apply Hlf.
Qed.

End WholeRun.

Section WholeRunExamples.
Import Json SleepMode LogStore Digest Cli.


Lemma sleepAction_touches_witness :
  contentAt (fs (sampleSleepAction {| optDate := None; dryRun := false |}
                   schedulerWorld).2) "logs/2026-02-03.jsonl"
    = contentAt schedulerFs "logs/2026-02-03.jsonl" /\
  fs (sampleSleepAction {| optDate := None; dryRun := false |}
        schedulerWorld).2 !! "logs/2026-02-03.jsonl"
    = schedulerFs !! "logs/2026-02-03.jsonl".
Proof.
  destruct (sleepAction_touches codeUnitCompare parseEntryLine
              (list (list ChatMessage)) unit sampleGetAll sampleAdd
              "default" "logs" "digests" 4000 true tt sampleNow
              {| optDate := None; dryRun := false |} schedulerWorld
              "logs/2026-02-03.jsonl") as [HC HF].
  split.
  - apply HC.
    + intros H. vm_compute in H. discriminate.
    + intros d H. unfold digestPath, pathJoin in H. simpl in H. discriminate.
  - apply HF. repeat split; try reflexivity; discriminate.
Defined.

Lemma runDays_processed_dates_witness :
  exists calls,
    journal (sampleRunDays [emptyDay; boomDay; teaDay] schedulerWorld).2
      = journal schedulerWorld ++ calls /\
    (forall d, d ∈ markedDates calls ->
       exists l, l ∈ [emptyDay; boomDay; teaDay] /\ d = date l) /\
    markable (fs (sampleRunDays [emptyDay; boomDay; teaDay]
                    schedulerWorld).2) "logs" /\
    getProcessedDates (fs (sampleRunDays [emptyDay; boomDay; teaDay]
                             schedulerWorld).2) "logs" =
      getProcessedDates (fs schedulerWorld) "logs"
      ∪ datesOf (markedDates calls).
Proof.
  apply (runDays_processed_dates parseEntryLine (list (list ChatMessage))
           unit sampleAdd "logs" "digests" 4000 true tt
           [emptyDay; boomDay; teaDay] schedulerWorld).
  - split; [eexists; reflexivity|]. vm_compute. exact I.
  - reflexivity.
  - repeat constructor.
Defined.

End WholeRunExamples.

Section DigestFile.
Import Json SleepMode LogStore Digest.
Local Arguments String.append : simpl nomatch.

(** X23: where no regular file stands on the way to the directory of
    the digests, so that it is there or can be made, the digest path is
    no directory and the date is of the form YYYY-MM-DD, [saveDigest]
    succeeds; the file of the date then holds the lines of the digest
    joined by line feeds, starting with the title line of the date, in
    place of whatever it held; the directory is there; no path is
    touched but the file and the directories on the way to the one of
    the digests, and no other file changes its content; and saving the
    same digest again changes nothing. *)
Theorem saveDigest_written
    (fs : FS) (digestDir date : string) (analysis : SleepAnalysis string)
    (stats : option Stats) :
  (forall a, a ∈ ancestors digestDir -> contentAt fs a = None) ->
  (forall names, fs !! digestPath digestDir date ≠ Some (Dir names)) ->
  Cli.isDateFormat date = true ->
  let r := saveDigest digestDir date analysis stats fs in
  let text := JS.join LF (digestLines date analysis stats) in
  r.1 = inr tt /\
  readFileSync r.2 (digestPath digestDir date) = inr text /\
  JS.startsWith ("# Memory Digest — " +:+ date +:+ LF) text = true /\
  isDir r.2 digestDir /\
  (forall p, p ≠ digestPath digestDir date ->
             JS.startsWith p digestDir = false -> r.2 !! p = fs !! p) /\
  (forall p, p ≠ digestPath digestDir date ->
             contentAt r.2 p = contentAt fs p) /\
  saveDigest digestDir date analysis stats r.2 = (inr tt, r.2).
Proof.
  intros Hway Hfile Hdate r text.
  set (path := digestPath digestDir date) in *.
  assert (Hplain : JS.hasChar "/" (date +:+ ".md") = false)
    by apply (LogFileFacts.isDateFormat_no_slash _ Hdate).
  assert (Htitle : JS.startsWith ("# Memory Digest — " +:+ date +:+ LF) text
                   = true).
  { unfold text, digestLines. cbn [app].
    match goal with
    | |- JS.startsWith ?t (JS.join LF (?t :: ?rest)) = true =>
        destruct rest as [|x rest']
    end.
    - cbn [JS.join]. apply StringFacts.startsWith_spec.
      exists EmptyString. now rewrite JSFacts.append_empty_r.
    - rewrite JSFacts.join_cons. apply StringFacts.startsWith_append. }
  destruct (FsFacts.ensureDir_ok digestDir fs Hway) as [Hens Hdir].
  set (fs1 := (ensureDir digestDir fs).2) in *.
  assert (Hp1 : fs1 !! path = fs !! path)
    by apply FsFacts.ensureDir_other, DailyLogFacts.startsWith_join.
  assert (Hin : inDirectory fs1 path = true)
    by now apply FsFacts.inDirectory_join.
  assert (Hnd : forall names, fs1 !! path ≠ Some (Dir names))
    by (intros names; rewrite Hp1; apply Hfile).
  assert (Hr : r = writeFileSync path text fs1).
  { unfold r, saveDigest, bind. fold path text.
    destruct (ensureDir digestDir fs) as [[e1|[]] fs1'] eqn:E;
      cbn [fst snd] in *; [discriminate|reflexivity]. }
  destruct (FsFacts.write_ok _ _ FsFacts.writeFileSync_def path text fs1
              Hin Hnd) as [Hok Hnew].
  rewrite <- Hr in Hok, Hnew.
  assert (Hnew' : r.2 !! path = Some (File text))
    by (rewrite Hnew; now destruct (contentAt fs1 path)).
  assert (Hdir' : isDir r.2 digestDir).
  { rewrite Hr.
    now apply (FsFacts.write_isDir _ _ FsFacts.writeFileSync_def). }
  split; [exact Hok|]. split; [|split; [exact Htitle|]].
  { unfold readFileSync. now rewrite Hnew'. }
  split; [exact Hdir'|]. split; [|split].
  - intros q Hq1 Hq2. rewrite Hr.
    rewrite (FsFacts.write_other _ _ FsFacts.writeFileSync_def); [|done|].
    + now apply FsFacts.ensureDir_other.
    + unfold path, digestPath.
      rewrite (FsFacts.parentOf_join digestDir _ Hplain).
      destruct (JS.truthy digestDir); [|done]. intros [= <-].
      now rewrite FsFacts.startsWith_refl in Hq2.
  - intros q Hq. rewrite Hr.
    rewrite (FsFacts.write_contentAt _ _ FsFacts.writeFileSync_def)
      by done.
    apply FsFacts.ensureDir_contentAt.
  - unfold saveDigest, bind, ensureDir, existsSync. fold path text.
    destruct Hdir' as [names Hnames]. rewrite Hnames. cbn [negb].
    unfold writeFileSync.
    assert (Hin' : inDirectory r.2 path = true)
      by (apply FsFacts.inDirectory_join; [done|now exists names]).
    rewrite Hin', Hnew'. cbn [negb]. f_equal.
    now apply insert_id.
Qed.

Lemma saveDigest_written_witness :
  readFileSync
    (saveDigest "memory/digests" "2026-02-07"
       {| hot_facts := ["User likes tea"]; patterns := []; reflections := [];
          consolidations := []; digest := "A quiet day." |} None ∅).2
    (digestPath "memory/digests" "2026-02-07")
  = inr (JS.join LF
           (digestLines "2026-02-07"
              {| hot_facts := ["User likes tea"]; patterns := [];
                 reflections := []; consolidations := [];
                 digest := "A quiet day." |} None)).
Proof.
  refine (proj1 (proj2 (saveDigest_written ∅ "memory/digests" "2026-02-07"
            {| hot_facts := ["User likes tea"]; patterns := [];
               reflections := []; consolidations := [];
               digest := "A quiet day." |} None _ _ _))).
  - intros a _. reflexivity.
  - intros names. rewrite lookup_empty. discriminate.
  - reflexivity.
Defined.

End DigestFile.
(** ** The message cleaner: [cleanMessages] and [buildLogEntry] *)

Module CleanerFacts.
Import JSFacts StringFacts Json SleepMode Raw Cleaner.
Local Arguments String.append : simpl nomatch.

(** Stripping keeps a text that is not empty not empty. *)
Lemma stripBase64_nonempty (text : string) :
  text <> EmptyString -> stripBase64 text <> EmptyString.
Proof.
  destruct text as [|a r]; [done|]. intros _.
  unfold stripBase64. cbn [stripFrom].
  destruct (matchDataUri (String a r)); discriminate.
Qed.

Lemma len_substring_0 (n : Z) (s : string) :
  JS.len (JS.substring 0 n s) <= Z.max 0 n.
Proof.
  unfold JS.substring, JS.len. cbn [Z.to_nat JS.drop].
  rewrite length_take_str, Z.sub_0_r. lia.
Qed.

Section Clean.
Variable Num : Type.
Variable falsyNumber : Num -> bool.

(** What holds of every message the loop keeps. *)
Lemma cleanMessage_kept (maxToolResultChars : Z) (msg : Raw.Value Num)
    (m : Message) :
  cleanMessage Num falsyNumber maxToolResultChars msg = Some m ->
  content m <> EmptyString /\
  (role m = tool -> JS.len (content m) <= Z.max 0 maxToolResultChars + 12) /\
  (role m <> tool -> tool_name m = None) /\
  (role m = user <-> field msg "role" = VString "user") /\
  (role m = tool <-> field msg "role" = VString "tool").
Proof.
  unfold cleanMessage.
  destruct (negb (truthy Num falsyNumber msg) || negb (isObject msg));
    [discriminate|].
  set (r := field msg "role").
  destruct (negb (truthy Num falsyNumber r)); [discriminate|].
  destruct (isString "system" r); [discriminate|].
  set (text := textOf Num falsyNumber (field msg "content")).
  destruct (JS.truthy text) eqn:Htext; [|discriminate]. cbn [negb].
  destruct (JS.includes MEMORIES_TAG text); [discriminate|].
  apply truthy_true in Htext.
  pose proof (stripBase64_nonempty text Htext) as Hstrip.
  assert (Hrole : forall s, isString s r = true <-> r = VString s).
  { intros s. destruct r; cbn; try (split; [discriminate|congruence]).
    rewrite String.eqb_eq. split; congruence. }
  intros [= <-]. cbn [role content tool_name].
  destruct (isString "user" r) eqn:Eu.
  - apply Hrole in Eu as Hu. rewrite Hu. cbn [isString String.eqb Ascii.eqb
      Bool.eqb andb].
    repeat split; try done; intros; discriminate.
  - destruct (isString "tool" r) eqn:Et.
    + apply Hrole in Et as Ht. cbn [andb].
      repeat split; try done.
      * destruct (JS.len (stripBase64 text) >? maxToolResultChars);
          [|done]. intros H. destruct (JS.substring _ _ _); discriminate.
      * intros _.
        destruct (JS.len (stripBase64 text) >? maxToolResultChars) eqn:E.
        -- rewrite ChunkerFacts.len_append.
           pose proof (len_substring_0 maxToolResultChars (stripBase64 text)).
           change (JS.len " [truncated]") with 12. lia.
        -- rewrite Z.gtb_ltb in E. apply Z.ltb_ge in E. lia.
      * intros H. rewrite H in Eu. discriminate.
    + cbn [andb]. repeat split; try done; try discriminate.
      * intros H. apply Hrole in H. congruence.
      * intros H. apply Hrole in H. congruence.
Qed.

End Clean.
End CleanerFacts.

Section Cleaner.
Import Json SleepMode Raw Cleaner.

Variable Num : Type.
Variable falsyNumber : Num -> bool.

(** X17: [cleanMessages] returns at most as many messages as it is
    given, and of every message it returns the content is not empty, a
    tool result is at most [maxToolResultChars] and the twelve characters
    of the truncation mark long, only a tool result carries a tool name,
    and the role is [user] or [tool] exactly when the raw role is that
    string, [assistant] for every other role. *)
Theorem cleanMessages_invariants
    (messages : list (Raw.Value Num)) (maxToolResultChars : Z) :
  (length (cleanMessages Num falsyNumber messages maxToolResultChars)
     <= length messages)%nat /\
  forall m,
    m ∈ cleanMessages Num falsyNumber messages maxToolResultChars ->
    exists msg,
      msg ∈ messages /\
      content m <> EmptyString /\
      (role m = tool ->
         JS.len (content m) <= Z.max 0 maxToolResultChars + 12) /\
      (role m <> tool -> tool_name m = None) /\
      (role m = user <-> field msg "role" = VString "user") /\
      (role m = tool <-> field msg "role" = VString "tool").
Proof.
  split.
  - unfold cleanMessages. induction messages as [|x l IH]; [done|].
    cbn [omap list_omap]. destruct (cleanMessage _ _ _ x); cbn [length] in *; lia.
  - intros m Hm. unfold cleanMessages in Hm.
    apply list_elem_of_omap in Hm as (msg & Hin & Hc).
    exists msg. split; [done|].
    now apply (CleanerFacts.cleanMessage_kept Num falsyNumber
                 maxToolResultChars msg m).
Qed.

End Cleaner.

Section LoggedEntry.
Import Json SleepMode LogStore Raw Cleaner.

Variable Num : Type.
Variable falsyNumber : Num -> bool.

(** X18: what the capture hook logs is what the maintenance run reads:
    when [buildLogEntry] returns an entry, it holds the cleaned messages,
    of which there is at least one and none with an empty content, for
    the given user, channel and session at the reading of the clock; and
    where the reading of the clock starts with a date of the form
    YYYY-MM-DD, as [toISOString] writes it, no regular file stands on
    the way to the log directory, so that it is there or can be made, and
    the daily file is absent or made of closed lines, [appendToLog] of
    the entry succeeds and [readDailyLog] then returns the entries of
    before followed by that entry. *)
Theorem logged_entry_read_back
    (now : string) (messages : list (Raw.Value Num))
    (userId channel sessionId : string) (e : LogEntry)
    (fs : FS) (logDir : string) :
  buildLogEntry Num falsyNumber now messages userId channel sessionId
    = Some e ->
  Cli.isDateFormat (hd EmptyString (JS.split "T" now)) = true ->
  (forall a, a ∈ ancestors logDir -> contentAt fs a = None) ->
  appendable fs (logPathOf logDir e) ->
  let r := appendToLog logDir e fs in
  e = {| ts := now; user_id := userId; channel := channel;
         session_id := sessionId;
         SleepMode.messages := cleanMessages Num falsyNumber messages 500 |} /\
  SleepMode.messages e <> [] /\
  Forall (fun m => content m <> EmptyString) (SleepMode.messages e) /\
  r.1 = inr tt /\
  exists before,
    readDailyLog parseEntryLine fs (logPathOf logDir e) = inr before /\
    readDailyLog parseEntryLine r.2 (logPathOf logDir e)
      = inr (before ++ [e]).
Proof.
  intros Hbuild Hdate Hway Happ r.
  unfold buildLogEntry, defaultMaxToolResultChars in Hbuild.
  destruct (cleanMessages Num falsyNumber messages 500) as [|m ms] eqn:Ec;
    [discriminate|].
  cbn in Hbuild. injection Hbuild as <-.
  split; [reflexivity|]. split; [discriminate|]. split.
  - cbn [SleepMode.messages]. rewrite <- Ec. apply Forall_forall.
    intros x Hx. unfold cleanMessages in Hx.
    apply list_elem_of_omap in Hx as (msg & _ & Hc).
    now apply (CleanerFacts.cleanMessage_kept Num falsyNumber 500 msg x).
  - destruct (DailyLogFacts.appendToLog_read parseEntryLine fs logDir _
                Hway Happ Hdate
                (JsonRoundTripFacts.parseEntryLine_roundtrip _))
      as (H1 & H2 & _).
    split; [exact H1|exact H2].
Qed.

End LoggedEntry.

Section LoggedEntryExamples.
Import Json SleepMode LogStore Raw Cleaner.

Lemma logged_entry_read_back_witness :
  let e := {| ts := "2026-02-05T18:30:00.000Z"; user_id := "alice";
              channel := "telegram:1"; session_id := "s7";
              SleepMode.messages :=
                cleanMessages Z (Z.eqb 0) sampleRawMessages 500 |} in
  exists before,
    readDailyLog parseEntryLine searchFs (logPathOf "logs" e) = inr before /\
    readDailyLog parseEntryLine (appendToLog "logs" e searchFs).2
      (logPathOf "logs" e) = inr (before ++ [e]).
Proof.
  intros e.
  refine (proj2 (proj2 (proj2 (proj2
            (logged_entry_read_back Z (Z.eqb 0) "2026-02-05T18:30:00.000Z"
               sampleRawMessages "alice" "telegram:1" "s7" e searchFs "logs"
               _ _ _ _))))).
  - reflexivity.
  - reflexivity.
  - intros a Ha. apply list_elem_of_singleton in Ha as ->. reflexivity.
  - right. vm_compute. reflexivity.
Defined.

End LoggedEntryExamples.


Module DataUriFacts.
Import JSFacts StringFacts Json SleepMode Cleaner.
Local Arguments String.append : simpl nomatch.

(** *** Prefixes *)

Lemma drop_app_le (k : nat) (p z : string) :
  (k <= String.length p)%nat -> JS.drop k (p +:+ z) = JS.drop k p +:+ z.
Proof.
  revert p; induction k as [|k IH]; intros p Hk; [reflexivity|].
  destruct p as [|a p]; [simpl in Hk; lia|].
  cbn [String.append JS.drop]. apply IH. simpl in Hk. lia.
Qed.

Lemma drop_drop (a b : nat) (s : string) :
  JS.drop a (JS.drop b s) = JS.drop (b + a) s.
Proof.
  revert s; induction b as [|b IH]; intros s; [reflexivity|].
  destruct s as [|c s]; [now destruct a|]. cbn [JS.drop Nat.add]. apply IH.
Qed.

Lemma startsWith_app_le (q p z : string) :
  (String.length q <= String.length p)%nat ->
  JS.startsWith q (p +:+ z) = JS.startsWith q p.
Proof.
  revert p; induction q as [|a q IH]; intros p Hq; [reflexivity|].
  destruct p as [|b p]; [simpl in Hq; lia|].
  cbn [String.append JS.startsWith]. rewrite IH; [reflexivity|].
  simpl in Hq. lia.
Qed.

Lemma startsWith_length (q s : string) :
  JS.startsWith q s = true -> (String.length q <= String.length s)%nat.
Proof.
  intros H. apply startsWith_spec in H as [b ->].
  rewrite length_append. lia.
Qed.

(** *** Runs *)

Lemma span_le (P : ascii -> bool) (s : string) :
  (spanLength P s <= String.length s)%nat.
Proof. induction s as [|a s IH]; simpl; [lia|]. destruct (P a); lia. Qed.

(** A run that ends inside [p] is the run of [p], whatever follows. *)
Lemma span_inside (P : ascii -> bool) (p x : string) :
  (spanLength P (p +:+ x) <= String.length p)%nat ->
  spanLength P p = spanLength P (p +:+ x).
Proof.
  induction p as [|a p IH]; cbn [String.append spanLength String.length].
  - intros H. lia.
  - destruct (P a); [|reflexivity]. intros H. f_equal. apply IH. lia.
Qed.

Lemma span_mono (P : ascii -> bool) (p z : string) :
  (spanLength P p <= spanLength P (p +:+ z))%nat.
Proof.
  induction p as [|a p IH]; cbn [String.append spanLength]; [lia|].
  destruct (P a); lia.
Qed.

Lemma span_lt_stable (P : ascii -> bool) (p z : string) :
  (spanLength P p < String.length p)%nat ->
  spanLength P (p +:+ z) = spanLength P p.
Proof.
  induction p as [|a p IH]; cbn [String.append spanLength String.length].
  - lia.
  - destruct (P a); [|reflexivity]. intros H. f_equal. apply IH. lia.
Qed.

Lemma span_allChars (P : ascii -> bool) (s : string) :
  JS.allChars P (JS.take (spanLength P s) s) = true.
Proof.
  induction s as [|a s IH]; [reflexivity|]. cbn [spanLength].
  destruct (P a) eqn:E; [|reflexivity]. cbn [JS.take JS.allChars].
  now rewrite E, IH.
Qed.

Lemma take_add (a b : nat) (s : string) :
  JS.take (a + b) s = JS.take a s +:+ JS.take b (JS.drop a s).
Proof.
  revert s; induction a as [|a IH]; intros s; [reflexivity|].
  destruct s as [|c s]; [now destruct b|].
  cbn [Nat.add JS.take JS.drop String.append]. now rewrite IH.
Qed.

Lemma take_startsWith (q s : string) :
  JS.startsWith q s = true -> JS.take (String.length q) s = q.
Proof.
  intros H. apply startsWith_spec in H as [b ->].
  apply ParserFacts.take_append.
Qed.

Lemma allChars_impl (P Q : ascii -> bool) (s : string) :
  (forall a, P a = true -> Q a = true) ->
  JS.allChars P s = true -> JS.allChars Q s = true.
Proof.
  intros HPQ. induction s as [|a s IH]; [reflexivity|]. cbn [JS.allChars].
  intros H. apply andb_true_iff in H as [Ha Hs]. now rewrite (HPQ a Ha), IH.
Qed.

Lemma letter_matchable (a : ascii) : isLetter a = true -> matchable a = true.
Proof. intros H. unfold matchable, isBase64Char. now rewrite H. Qed.

Lemma base64_matchable (a : ascii) :
  isBase64Char a = true -> matchable a = true.
Proof. intros H. unfold matchable. now rewrite H. Qed.

(** *** The match *)

(** The stages of a match at the start of [t]. *)
Lemma matchDataUri_stages (t : string) (n : nat) :
  matchDataUri t = Some n ->
  let s1 := JS.drop 5 t in
  let n1 := spanLength isLetter s1 in
  let s2 := JS.drop (n1 + 1) s1 in
  let n2 := spanLength isLetter s2 in
  let s3 := JS.drop (n2 + 8) s2 in
  let n3 := spanLength isBase64Char s3 in
  JS.startsWith "data:" t = true /\
  (1 <= n1)%nat /\ JS.startsWith "/" (JS.drop n1 s1) = true /\
  (1 <= n2)%nat /\ JS.startsWith ";base64," (JS.drop n2 s2) = true /\
  (100 <= n3)%nat /\
  n = (5 + n1 + 1 + n2 + 8 + n3)%nat.
Proof.
  unfold matchDataUri. cbv zeta.
  destruct (JS.startsWith "data:" t); [|discriminate].
  destruct (_ && _) eqn:E1; [|discriminate].
  apply andb_true_iff in E1 as [E1 E1'].
  destruct (_ && _) eqn:E2; [|discriminate].
  apply andb_true_iff in E2 as [E2 E2'].
  destruct (100 <=? _)%nat eqn:E3; [|discriminate].
  apply Nat.leb_le in E1, E2, E3. intros [= <-]. repeat split; assumption.
Qed.

Lemma matchDataUri_intro (t : string) :
  let s1 := JS.drop 5 t in
  let n1 := spanLength isLetter s1 in
  let s2 := JS.drop (n1 + 1) s1 in
  let n2 := spanLength isLetter s2 in
  let s3 := JS.drop (n2 + 8) s2 in
  let n3 := spanLength isBase64Char s3 in
  JS.startsWith "data:" t = true ->
  (1 <= n1)%nat -> JS.startsWith "/" (JS.drop n1 s1) = true ->
  (1 <= n2)%nat -> JS.startsWith ";base64," (JS.drop n2 s2) = true ->
  (100 <= n3)%nat ->
  matchDataUri t = Some (5 + n1 + 1 + n2 + 8 + n3)%nat.
Proof.
  cbv zeta. intros H0 H1 H1' H2 H2' H3. unfold matchDataUri.
  apply Nat.leb_le in H1, H2, H3.
  now rewrite H0, H1, H1', H2, H2', H3.
Qed.

(** The characters of a match are of the classes of the pattern. *)
Lemma matchDataUri_chars (t : string) (n : nat) :
  matchDataUri t = Some n -> JS.allChars matchable (JS.take n t) = true.
Proof.
  intros H. apply matchDataUri_stages in H.
  cbv zeta in H. destruct H as (H0 & _ & H1 & _ & H2 & _ & ->).
  set (s1 := JS.drop 5 t) in *.
  set (n1 := spanLength isLetter s1) in *.
  set (s2 := JS.drop (n1 + 1) s1) in *.
  set (n2 := spanLength isLetter s2) in *.
  set (s3 := JS.drop (n2 + 8) s2) in *.
  set (n3 := spanLength isBase64Char s3) in *.
  replace (5 + n1 + 1 + n2 + 8 + n3)%nat
    with (5 + (n1 + (1 + (n2 + (8 + n3)))))%nat by lia.
  rewrite (take_add 5 (n1 + (1 + (n2 + (8 + n3))))). fold s1.
  rewrite (take_add n1 (1 + (n2 + (8 + n3)))).
  rewrite (take_add 1 (n2 + (8 + n3))), drop_drop. fold s2.
  rewrite (take_add n2 (8 + n3)), (take_add 8 n3), drop_drop. fold s3.
  rewrite !allChars_append.
  assert (T0 : JS.take 5 t = "data:")
    by exact (take_startsWith "data:" t H0).
  assert (T1 : JS.take 1 (JS.drop n1 s1) = "/")
    by exact (take_startsWith "/" _ H1).
  assert (T2 : JS.take 8 (JS.drop n2 s2) = ";base64,")
    by exact (take_startsWith ";base64," _ H2).
  rewrite T0, T1, T2.
  pose proof (allChars_impl isLetter matchable _ letter_matchable
                (span_allChars isLetter s1)) as A1.
  pose proof (allChars_impl isLetter matchable _ letter_matchable
                (span_allChars isLetter s2)) as A2.
  pose proof (allChars_impl isBase64Char matchable _ base64_matchable
                (span_allChars isBase64Char s3)) as A3.
  fold n1 in A1. fold n2 in A2. fold n3 in A3.
  rewrite A1, A2, A3. reflexivity.
Qed.

(** A match ends before a character that is of none of the classes. *)
Lemma matchDataUri_before (p y : string) (c : ascii) (n : nat) :
  matchDataUri (p +:+ String c y) = Some n ->
  matchable c = false ->
  (n <= String.length p)%nat.
Proof.
  intros H Hc. apply matchDataUri_chars in H.
  destruct (le_lt_dec n (String.length p)) as [Hle|Hlt]; [exact Hle|].
  exfalso.
  replace n with (String.length p + S (n - String.length p - 1))%nat in H
    by lia.
  rewrite take_add, ParserFacts.take_append, ParserFacts.drop_append in H.
  rewrite allChars_append in H. cbn [JS.take JS.allChars] in H.
  rewrite Hc in H. cbn [andb] in H. now rewrite andb_false_r in H.
Qed.

(** A match that lies within [p] stays one whatever follows [p]. *)
Lemma matchDataUri_stable (p x y : string) (n : nat) :
  matchDataUri (p +:+ x) = Some n ->
  (n <= String.length p)%nat ->
  exists n', matchDataUri (p +:+ y) = Some n'.
Proof.
  intros H Hn. apply matchDataUri_stages in H.
  cbv zeta in H. destruct H as (H0 & Hn1 & H1 & Hn2 & H2 & Hn3 & ->).
  eexists. apply matchDataUri_intro.
  all: rewrite (drop_app_le 5 p) in * by lia.
  all: set (p1 := JS.drop 5 p) in *.
  all: assert (Hp1 : String.length p1 = (String.length p - 5)%nat)
         by apply length_drop_str.
  all: assert (E1 : spanLength isLetter (p1 +:+ y)
                    = spanLength isLetter (p1 +:+ x)).
  1,3,5,7,9,11: (rewrite <- (span_inside isLetter p1 x) by lia;
                 apply span_lt_stable;
                 rewrite (span_inside isLetter p1 x) by lia; lia).
  all: rewrite ?E1.
  all: set (n1 := spanLength isLetter (p1 +:+ x)) in *.
  all: rewrite ?(drop_app_le n1 p1), ?(drop_app_le (n1 + 1) p1) in * by lia.
  all: set (p2 := JS.drop (n1 + 1) p1) in *.
  all: assert (Hp2 : String.length p2 = (String.length p1 - (n1 + 1))%nat)
         by apply length_drop_str.
  all: assert (E2 : spanLength isLetter (p2 +:+ y)
                    = spanLength isLetter (p2 +:+ x)).
  1,3,5,7,9,11: (rewrite <- (span_inside isLetter p2 x) by lia;
                 apply span_lt_stable;
                 rewrite (span_inside isLetter p2 x) by lia; lia).
  all: rewrite ?E2.
  all: set (n2 := spanLength isLetter (p2 +:+ x)) in *.
  all: rewrite ?(drop_app_le n2 p2), ?(drop_app_le (n2 + 8) p2) in * by lia.
  all: set (p3 := JS.drop (n2 + 8) p2) in *.
  all: assert (Hp3 : String.length p3 = (String.length p2 - (n2 + 8))%nat)
         by apply length_drop_str.
  - rewrite startsWith_app_le in * by (simpl; lia). exact H0.
  - exact Hn1.
  - assert (Hl : String.length (JS.drop n1 p1)
                 = (String.length p1 - n1)%nat) by apply length_drop_str.
    rewrite startsWith_app_le in * by (simpl; lia). exact H1.
  - exact Hn2.
  - assert (Hl : String.length (JS.drop n2 p2)
                 = (String.length p2 - n2)%nat) by apply length_drop_str.
    rewrite startsWith_app_le in * by (simpl; lia). exact H2.
  - pose proof (span_mono isBase64Char p3 y).
    pose proof (span_inside isBase64Char p3 x ltac:(lia)). lia.
Qed.

(** *** The replacement *)

Lemma stripFrom_skip (s : string) (k : nat) :
  stripFrom s k = stripFrom (JS.drop k s) O.
Proof.
  revert s; induction k as [|k IH]; intros s; [reflexivity|].
  destruct s as [|a s]; [reflexivity|]. cbn [stripFrom JS.drop]. apply IH.
Qed.

(** The result is the text itself, or the two agree up to the first
    mark. *)
Lemma stripFrom_prefix (s : string) :
  stripFrom s O = s \/
  exists p x y, s = p +:+ x /\ stripFrom s O = p +:+ String "[" y.
Proof.
  induction s as [|a s IH]; [now left|]. cbn [stripFrom].
  destruct (matchDataUri (String a s)) as [n|].
  - right. exists EmptyString, (String a s). eexists. split; reflexivity.
  - destruct IH as [->|(p & x & y & Hs & Hy)]; [now left|].
    right. exists (String a p), x, y. rewrite Hy. split; [|reflexivity].
    now rewrite Hs at 1.
Qed.

(** A match at the start of the result is a match at the start of the
    text. *)
Lemma matchDataUri_strip (s : string) (n : nat) :
  matchDataUri (stripFrom s O) = Some n -> exists n', matchDataUri s = Some n'.
Proof.
  destruct (stripFrom_prefix s) as [->|(p & x & y & Hs & Hy)]; [eauto|].
  rewrite Hy. intros H.
  pose proof (matchDataUri_before p y "[" n H eq_refl) as Hn.
  rewrite Hs. now apply (matchDataUri_stable p (String "[" y) x n).
Qed.

Lemma matchDataUri_empty : matchDataUri EmptyString = None.
Proof. reflexivity. Qed.

Lemma drop_empty (k : nat) : JS.drop k EmptyString = EmptyString.
Proof. now destruct k. Qed.

(** No suffix of the result starts with a match. *)
Lemma stripFrom_clean (m : nat) :
  forall s, (String.length s <= m)%nat ->
  forall k, matchDataUri (JS.drop k (stripFrom s O)) = None.
Proof.
  induction m as [|m IH]; intros s Hs k.
  { destruct s; [|simpl in Hs; lia]. cbn. now rewrite drop_empty. }
  destruct s as [|a r]; [cbn; now rewrite drop_empty|].
  cbn [stripFrom].
  destruct (matchDataUri (String a r)) as [n|] eqn:Hm.
  - rewrite stripFrom_skip.
    set (out := stripFrom (JS.drop (n - 1) r) O).
    assert (Hout : forall j, matchDataUri (JS.drop j out) = None).
    { apply IH. rewrite length_drop_str. simpl in Hs. lia. }
    unfold BASE64_MARK.
    do 13 (destruct k as [|k]; [reflexivity|]).
    apply Hout.
  - destruct k as [|k].
    + cbn [JS.drop].
      destruct (matchDataUri (String a (stripFrom r O))) as [n0|] eqn:E;
        [|reflexivity].
      assert (H : matchDataUri (stripFrom (String a r) O) = Some n0)
        by (cbn [stripFrom]; now rewrite Hm).
      apply matchDataUri_strip in H as [n' H]. congruence.
    + cbn [JS.drop]. apply IH. simpl in Hs. lia.
Qed.

Lemma stripBase64_clean (text : string) (k : nat) :
  matchDataUri (JS.drop k (stripBase64 text)) = None.
Proof. now apply (stripFrom_clean (String.length text)). Qed.

Lemma drop_app_ge (k : nat) (p z : string) :
  (String.length p <= k)%nat ->
  JS.drop k (p +:+ z) = JS.drop (k - String.length p) z.
Proof.
  revert k; induction p as [|a p IH]; intros k Hk.
  - cbn. now rewrite Nat.sub_0_r.
  - destruct k as [|k]; [simpl in Hk; lia|].
    cbn [String.append JS.drop String.length Nat.sub]. apply IH.
    simpl in Hk. lia.
Qed.

(** Cutting the result and adding the truncation mark makes no match. *)
Lemma truncated_clean (text : string) (n k : nat) :
  matchDataUri
    (JS.drop k (JS.take n (stripBase64 text) +:+ " [truncated]")) = None.
Proof.
  set (stripped := stripBase64 text).
  set (p := JS.take n stripped).
  destruct (le_lt_dec k (String.length p)) as [Hle|Hlt].
  - rewrite drop_app_le by exact Hle.
    destruct (matchDataUri (JS.drop k p +:+ " [truncated]")) as [n0|] eqn:E;
      [|reflexivity].
    pose proof (matchDataUri_before (JS.drop k p) "[truncated]" " " n0 E
                  eq_refl) as Hn0.
    destruct (matchDataUri_stable (JS.drop k p) " [truncated]"
                (JS.drop n stripped) n0 E Hn0) as [n' Hn'].
    rewrite <- drop_app_le in Hn' by exact Hle.
    unfold p in Hn'. rewrite take_drop_str in Hn'.
    unfold stripped in Hn'. now rewrite stripBase64_clean in Hn'.
  - rewrite drop_app_ge by lia.
    destruct (k - String.length p)%nat as [|j] eqn:Ej; [lia|].
    do 12 (destruct j as [|j]; [reflexivity|]).
    reflexivity.
Qed.

(** A text without a match is left as it is. *)
Lemma stripFrom_unchanged (s : string) :
  (forall k, matchDataUri (JS.drop k s) = None) -> stripFrom s O = s.
Proof.
  induction s as [|a s IH]; intros H; [reflexivity|].
  cbn [stripFrom]. rewrite (H O : matchDataUri (String a s) = None).
  f_equal. apply IH. intros k. apply (H (S k)).
Qed.

End DataUriFacts.

Section DataUri.
Import Json SleepMode Raw Cleaner.

Variable Num : Type.
Variable falsyNumber : Num -> bool.

(** X24: no base64 data survives the cleaner: in the content of a
    message [cleanMessages] returns, truncated or not, the pattern of the
    data URIs, with its hundred or more base64 characters, matches at no
    position. *)
Theorem cleanMessages_no_data_uri
    (messages : list (Raw.Value Num)) (maxToolResultChars : Z)
    (m : Message) (k : nat) :
  m ∈ cleanMessages Num falsyNumber messages maxToolResultChars ->
  matchDataUri (JS.drop k (content m)) = None.
Proof.
  intros Hm. unfold cleanMessages in Hm.
  apply list_elem_of_omap in Hm as (msg & _ & Hc).
  revert Hc. unfold cleanMessage.
  destruct (negb (truthy Num falsyNumber msg) || negb (isObject msg));
    [discriminate|].
  destruct (negb (truthy Num falsyNumber (field msg "role")));
    [discriminate|].
  destruct (isString "system" (field msg "role")); [discriminate|].
  destruct (negb (JS.truthy _)); [discriminate|].
  destruct (JS.includes MEMORIES_TAG _); [discriminate|].
  intros [= <-]. cbn [content].
  destruct (isString "tool" (field msg "role") && _).
  - unfold JS.substring. cbn [Z.to_nat JS.drop].
    apply DataUriFacts.truncated_clean.
  - apply DataUriFacts.stripBase64_clean.
Qed.

End DataUri.

Section DataUriExamples.
Import Json SleepMode Raw Cleaner.

Lemma cleanMessages_no_data_uri_witness :
  matchDataUri (JS.drop 18 "Here is an image: [base64-data] end") = None.
Proof.
  apply (cleanMessages_no_data_uri Z (Z.eqb 0) sampleRawMessages 500
           {| role := user; content := "Here is an image: [base64-data] end";
              tool_name := None |} 18).
  unfold cleanMessages. apply list_elem_of_omap.
  exists (rawMessage "user" ("Here is an image: " +:+ base64Image +:+ " end")).
  split; [do 4 right; left|vm_compute; reflexivity].
Defined.

End DataUriExamples.

Section StripBase64.
Import Json SleepMode Raw Cleaner.

(** X25: [stripBase64], the replacement of the data URIs by the mark,
    leaves a text in which the pattern matches nowhere as it is; so
    cleaning a cleaned text changes nothing. *)
Theorem stripBase64_idempotent (text : string) :
  ((forall k, matchDataUri (JS.drop k text) = None) ->
   stripBase64 text = text) /\
  stripBase64 (stripBase64 text) = stripBase64 text.
Proof.
  split; [apply DataUriFacts.stripFrom_unchanged|].
  apply DataUriFacts.stripFrom_unchanged.
  intros k. apply DataUriFacts.stripBase64_clean.
Qed.

End StripBase64.

Section CleanerExamples.
Import Json SleepMode Raw Cleaner.

Lemma cleanMessages_invariants_witness :
  exists msg,
    msg ∈ sampleRawMessages /\
    JS.repeatChar "x" 500 +:+ " [truncated]" <> EmptyString /\
    JS.len (JS.repeatChar "x" 500 +:+ " [truncated]") <= Z.max 0 500 + 12.
Proof.
  destruct (proj2 (cleanMessages_invariants Z (Z.eqb 0) sampleRawMessages 500)
              {| role := tool;
                 content := JS.repeatChar "x" 500 +:+ " [truncated]";
                 tool_name := Some "search" |})
    as (msg & Hin & Hne & Hlen & _).
  - unfold cleanMessages. apply list_elem_of_omap.
    exists (VObject [("role", VString "tool");
                     ("content", VString (JS.repeatChar "x" 1000));
                     ("name", VString "search")]).
    split; [do 5 right; left|vm_compute; reflexivity].
  - exists msg. split; [exact Hin|]. split; [exact Hne|].
    apply Hlen. reflexivity.
Defined.

Lemma stripBase64_idempotent_witness :
  stripBase64 "hello" = "hello".
Proof.
  apply (proj1 (stripBase64_idempotent "hello")).
  intros k. do 6 (destruct k as [|k]; [reflexivity|]). reflexivity.
Defined.

End CleanerExamples.
(** ** index.ts: environment variables and result normalizers *)

Module PluginFacts.
Import JSFacts StringFacts Json SleepMode Raw Plugin.
Local Arguments String.append : simpl nomatch.

Lemma matchPlaceholder_none (s : string) :
  JS.startsWith "${" s = false -> matchPlaceholder s = None.
Proof. intros H. unfold matchPlaceholder. now rewrite H. Qed.

Lemma untilBrace_name (name post : string) :
  JS.hasChar "}" name = false ->
  untilBrace (name +:+ String "}" post) = Some name.
Proof.
  induction name as [|a name IH]; cbn; [reflexivity|]. intros H.
  apply orb_false_iff in H as [Ha Hn]. now rewrite Ha, IH.
Qed.

Lemma matchPlaceholder_name (name post : string) :
  name <> EmptyString -> JS.hasChar "}" name = false ->
  matchPlaceholder ("${" +:+ name +:+ "}" +:+ post) = Some name.
Proof.
  intros Hne Hn. unfold matchPlaceholder.
  change ("${" +:+ name +:+ "}" +:+ post)
    with (String "$" (String "{" (name +:+ String "}" post))).
  cbn [JS.startsWith JS.drop Ascii.eqb Bool.eqb andb].
  rewrite untilBrace_name by exact Hn.
  apply truthy_true in Hne. now rewrite Hne.
Qed.

(** The characters of a match are passed over. *)
Lemma resolveFrom_skip (inherited : string -> option string)
    (env : gmap string string) (x post : string) :
  resolveFrom inherited env (x +:+ post) (String.length x)
    = resolveFrom inherited env post O.
Proof.
  induction x as [|a x IH]; [reflexivity|].
  cbn [String.append String.length resolveFrom]. exact IH.
Qed.

(** A text without the two characters that open a placeholder, in front
    of a dollar sign, is copied. *)
Lemma resolveFrom_copy (inherited : string -> option string)
    (env : gmap string string) (pre rest : string) :
  JS.includes "${" pre = false ->
  resolveFrom inherited env (pre +:+ String "$" rest) O =
    match resolveFrom inherited env (String "$" rest) O with
    | inl e => inl e
    | inr t => inr (pre +:+ t)
    end.
Proof.
  remember (resolveFrom inherited env (String "$" rest) O) as R eqn:HR.
  induction pre as [|a pre IH]; intros Hin.
  - cbn [String.append]. rewrite <- HR. now destruct R.
  - cbn [JS.includes] in Hin. apply orb_false_iff in Hin as [Hst Hin].
    cbn [String.append resolveFrom].
    rewrite matchPlaceholder_none.
    + rewrite (IH Hin). now destruct R.
    + cbn [JS.startsWith] in *.
      destruct (Ascii.eqb "$" a); [|reflexivity]. cbn [andb] in *.
      destruct pre as [|b pre]; cbn [String.append]; [reflexivity|].
      destruct (Ascii.eqb "{" b); [discriminate|reflexivity].
Qed.

Lemma resolveFrom_plain (inherited : string -> option string)
    (env : gmap string string) (value : string) :
  JS.includes "${" value = false ->
  resolveFrom inherited env value O = inr value.
Proof.
  induction value as [|a value IH]; intros Hin; [reflexivity|].
  cbn [JS.includes] in Hin. apply orb_false_iff in Hin as [Hst Hin].
  cbn [resolveFrom]. rewrite matchPlaceholder_none by exact Hst.
  now rewrite (IH Hin).
Qed.

Section Normalizers.
Variable Num : Type.

Lemma mapExn_length {A B : Type} (f : A -> Exn + B) (items : list A)
    (l : list B) :
  mapExn f items = inr l -> length l = length items.
Proof.
  revert l; induction items as [|x items IH]; intros l; cbn [mapExn].
  - now intros [= <-].
  - destruct (f x); [discriminate|].
    destruct (mapExn f items); [discriminate|].
    intros [= <-]. cbn. f_equal. now apply IH.
Qed.

Lemma mapExn_ok {A B : Type} (f : A -> Exn + B) (items : list A) :
  Forall (fun x => exists y, f x = inr y) items ->
  exists l, mapExn f items = inr l.
Proof.
  induction 1 as [|x items [y Hy] _ [l IH]]; cbn [mapExn]; [eauto|].
  rewrite Hy, IH. eauto.
Qed.

Lemma mapExn_Forall {A B : Type} (f : A -> Exn + B) (P : B -> Prop)
    (items : list A) (l : list B) :
  (forall x y, f x = inr y -> P y) ->
  mapExn f items = inr l -> Forall P l.
Proof.
  intros Hf. revert l; induction items as [|x items IH]; intros l;
    cbn [mapExn].
  - intros [= <-]. constructor.
  - destruct (f x) eqn:Ex; [discriminate|].
    destruct (mapExn f items); [discriminate|].
    intros [= <-]. constructor; eauto.
Qed.

Lemma coalesce_default (a b : Raw.Value Num) :
  nullish b = false -> nullish (coalesce a b) = false.
Proof. intros H. unfold coalesce. now destruct (nullish a) eqn:E. Qed.

End Normalizers.
End PluginFacts.

Section EnvVars.
Import Plugin.
Local Arguments String.append : simpl nomatch.

(** X19: a configuration string without the two characters [${] is
    returned as it is, whatever the environment holds. *)
Theorem resolveEnvVars_plain (inherited : string -> option string)
    (env : gmap string string) (value : string) :
  JS.includes "${" value = false ->
  resolveEnvVars inherited env value = inr value.
Proof. apply PluginFacts.resolveFrom_plain. Qed.

Lemma resolveEnvVars_plain_witness :
  resolveEnvVars objectPrototype ∅ "sk-live $5 {x}" = inr "sk-live $5 {x}".
Proof. apply resolveEnvVars_plain. reflexivity. Defined.

(** X20: the first placeholder of a string, [${name}] with a name that
    is not empty and holds no closing brace, is replaced by the value of
    the variable, which is not scanned again, and the rest of the string
    is resolved after it; a variable that is set to the empty string
    throws the error that names it, whatever follows; and for a variable
    that is not set the placeholder is replaced by the property that
    [process.env] inherits under that name, if there is one, and the
    error is thrown if there is none. *)
Theorem resolveEnvVars_placeholder
    (inherited : string -> option string)
    (env : gmap string string) (pre name post : string) :
  JS.includes "${" pre = false ->
  name <> EmptyString ->
  JS.hasChar "}" name = false ->
  let replaced text :=
    match resolveEnvVars inherited env post with
    | inr rest => inr (pre +:+ text +:+ rest)
    | inl e => inl e
    end in
  resolveEnvVars inherited env (pre +:+ "${" +:+ name +:+ "}" +:+ post) =
    match env !! name with
    | Some (String a v) => replaced (String a v)
    | Some EmptyString => inl (notSet name)
    | None =>
        match inherited name with
        | Some text => replaced text
        | None => inl (notSet name)
        end
    end.
Proof.
  intros Hpre Hne Hname replaced. unfold replaced, resolveEnvVars.
  change ("${" +:+ name +:+ "}" +:+ post)
    with (String "$" ("{" +:+ name +:+ "}" +:+ post)).
  rewrite PluginFacts.resolveFrom_copy by exact Hpre.
  cbn [resolveFrom].
  change (String "$" ("{" +:+ name +:+ "}" +:+ post))
    with ("${" +:+ name +:+ "}" +:+ post).
  rewrite PluginFacts.matchPlaceholder_name by assumption.
  assert (Hskip : resolveFrom inherited env ("{" +:+ name +:+ "}" +:+ post)
                    (String.length name + 2)
                  = resolveFrom inherited env post 0).
  { rewrite <- (PluginFacts.resolveFrom_skip inherited env
                  ("{" +:+ name +:+ "}") post).
    f_equal.
    - now rewrite !JSFacts.append_assoc.
    - rewrite !JSFacts.length_append. cbn. lia. }
  rewrite Hskip. unfold envText.
  destruct (env !! name) as [[|a v]|]; cbn [JS.truthy]; try reflexivity.
  - now destruct (resolveFrom inherited env post 0).
  - destruct (inherited name); [|reflexivity].
    now destruct (resolveFrom inherited env post 0).
Qed.

Lemma resolveEnvVars_placeholder_witness :
  resolveEnvVars objectPrototype {["OPENAI_API_KEY" := "sk-1"]}
    ("key=" +:+ "${" +:+ "OPENAI_API_KEY" +:+ "}" +:+ ";org=${ORG}")
    = inl (notSet "ORG") /\
  resolveEnvVars objectPrototype ∅
    ("v=" +:+ "${" +:+ "valueOf" +:+ "}" +:+ ";")
    = inr "v=function valueOf() { [native code] };".
Proof.
  split.
  - rewrite (resolveEnvVars_placeholder objectPrototype
               {["OPENAI_API_KEY" := "sk-1"]}
               "key=" "OPENAI_API_KEY" ";org=${ORG}");
      [reflexivity| reflexivity | discriminate | reflexivity].
  - rewrite (resolveEnvVars_placeholder objectPrototype ∅
               "v=" "valueOf" ";");
      [reflexivity| reflexivity | discriminate | reflexivity].
Defined.

End EnvVars.

Section ResultNormalizers.
Import Json SleepMode Raw Plugin.

Variable Num : Type.

(** X21: [normalizeSearchResults] treats the two shapes of a reply alike:
    an object whose [results] is an array gives what the array itself
    gives; an array without [null] or [undefined] elements gives one item
    for each element, and every reply that is neither gives no items. *)
Theorem normalizeSearchResults_shapes
    (props : list (string * Raw.Value Num)) (items : list (Raw.Value Num)) :
  (lookupProp "results" props = VArray items ->
   normalizeSearchResults Num (VObject props)
     = normalizeSearchResults Num (VArray items)) /\
  (Forall (fun r => nullish r = false) items ->
   exists l, normalizeSearchResults Num (VArray items) = inr l /\
             length l = length items) /\
  (forall raw,
     (forall l, raw <> VArray l) ->
     (forall l, resultsOf Num raw <> VArray l) ->
     normalizeSearchResults Num raw = inr []).
Proof.
  split; [|split].
  - intros H. cbn. unfold resultsOf. cbn. now rewrite H.
  - intros Hok. cbn.
    destruct (PluginFacts.mapExn_ok (normalizeMemoryItem Num) items)
      as [l Hl].
    + eapply Forall_impl; [exact Hok|]. intros r Hr. cbn in Hr.
      unfold normalizeMemoryItem. rewrite Hr. eauto.
    + exists l. split; [exact Hl|]. now apply PluginFacts.mapExn_length in Hl.
  - intros raw H1 H2. unfold normalizeSearchResults.
    destruct raw; try (now destruct (H1 items0));
      destruct (resultsOf Num _) eqn:E; try reflexivity;
      now destruct (H2 items0).
Qed.

(** X22: every item [normalizeAddResult] returns has an event that is
    neither [null] nor [undefined], whatever the reply of the store was:
    where the raw item and its metadata name none, the event is [ADD]. *)
Theorem normalizeAddResult_events
    (raw : Raw.Value Num) (items : list (AddedItem Num)) :
  normalizeAddResult Num raw = inr items ->
  Forall (fun item => nullish (itemEvent item) = false) items.
Proof.
  assert (Hitem : forall r y,
            normalizeAddItem Num r = inr y -> nullish (itemEvent y) = false).
  { intros r y. unfold normalizeAddItem.
    destruct (nullish r); [discriminate|]. intros [= <-].
    cbn [itemEvent]. now apply PluginFacts.coalesce_default. }
  unfold normalizeAddResult.
  destruct (resultsOf Num raw) eqn:E;
    try apply (PluginFacts.mapExn_Forall _ _ _ _ Hitem);
    destruct raw; try (intros [= <-]; constructor);
    apply (PluginFacts.mapExn_Forall _ _ _ _ Hitem).
Qed.

End ResultNormalizers.

Section ResultNormalizersExamples.
Import Json SleepMode Raw Plugin.

Lemma normalizeSearchResults_shapes_witness :
  normalizeSearchResults Z
    (VObject [("results", VArray [VObject [("id", VString "m1")]])])
  = normalizeSearchResults Z (VArray [VObject [("id", VString "m1")]]) /\
  exists l,
    normalizeSearchResults Z (VArray [VObject [("id", VString "m1")]])
      = inr l /\ length l = 1%nat.
Proof.
  pose proof (normalizeSearchResults_shapes Z
                [("results", VArray [VObject [("id", VString "m1")]])]
                [VObject [("id", VString "m1")]]) as (H1 & H2 & _).
  split; [apply H1; reflexivity|].
  apply H2. repeat constructor.
Defined.

Lemma normalizeAddResult_events_witness :
  Forall (fun item => nullish (itemEvent item) = false)
    [{| itemId := VString "m1"; itemMemory := VString (Num := Z) "likes tea";
        itemEvent := VString "ADD" |}].
Proof.
  apply (normalizeAddResult_events Z
           (VArray [VObject [("id", VString "m1");
                             ("memory", VString "likes tea")]])).
  reflexivity.
Defined.

End ResultNormalizersExamples.
(** ** The cases of the test suite, run on the model *)

Section TestSuite.
Import Json SleepMode LogStore Digest Cli Samples.

Example resolveUserId_cases :
  UserResolver.resolveUserId emptyContext = "default" /\
  UserResolver.resolveUserId telegramContext = "telegram:12345" /\
  UserResolver.simpleHash "hello" = "05e918d2".
Proof. vm_compute. repeat split. Qed.

Example toString16_cases :
  JS.toString16 0 = "0" /\ JS.toString16 255 = "ff" /\
  JS.toString16 (2 ^ 31) = "80000000".
Proof. vm_compute. repeat split. Qed.

Example chunkForAnalysis_cases :
  length (chunkForAnalysis [sampleEntry "s1" "Short message"] 4000) = 1%nat /\
  length (chunkForAnalysis longEntries 500) = 10%nat /\
  chunkForAnalysis [] defaultMaxChunkChars = [].
Proof. vm_compute. repeat split. Qed.

Example parseSleepAnalysis_cases :
  parseSleepAnalysis Json.parse doneText = inr doneAnalysis /\
  parseSleepAnalysis Json.parse (fenced "json" doneText) = inr doneAnalysis /\
  parseSleepAnalysis Json.parse "{}" = inr emptyAnalysis /\
  parseSleepAnalysis Json.parse illTypedText =
    inr {| hot_facts := []; patterns := []; reflections := [];
           consolidations := [{| merge_ids := []; into := EmptyString |}];
           digest := "test" |} /\
  parseSleepAnalysis Json.parse "not json" = inl SyntaxError.
Proof. vm_compute. repeat split. Qed.

Example readDailyLog_cases :
  readDailyLog parseEntryLine brokenLogFs "logs/2026-02-07.jsonl" =
    inr [dayEntry "2026-02-07" "s1" "valid";
         dayEntry "2026-02-07" "s2" "valid too"] /\
  readDailyLog parseEntryLine brokenLogFs "logs/2026-02-08.jsonl" = inr [].
Proof. vm_compute. repeat split. Qed.

(** Two entries appended to an empty file system are read back in order,
    their file is listed in the log directory that was made, their date
    is found unprocessed three days later, and no longer once it is
    marked. *)
Example end_to_end :
  let e1 := dayEntry "2026-02-07" "s1" "first" in
  let e2 := dayEntry "2026-02-07" "s2" "second" in
  let fs2 := ((appendToLog "memory/logs" e1 >>
               appendToLog "memory/logs" e2) ∅).2 in
  readDailyLog parseEntryLine fs2 "memory/logs/2026-02-07.jsonl"
    = inr [e1; e2] /\
  readdirSync fs2 "memory/logs" = inr ["2026-02-07.jsonl"] /\
  findUnprocessedLogs codeUnitCompare sampleNow fs2 "memory/logs" =
    inr [logFileOf "memory/logs" "2026-02-07.jsonl"] /\
  findUnprocessedLogs codeUnitCompare sampleNow
    (markProcessed "memory/logs" "2026-02-07" fs2).2 "memory/logs" = inr [].
Proof. vm_compute. repeat split. Qed.

Example getProcessedDates_cases :
  let marked :=
    getProcessedDates
      ((markProcessed "logs" "2026-02-01" >>
        markProcessed "logs" "2026-02-02") (<["logs" := Dir []]> ∅)).2
      "logs" in
  getProcessedDates (∅ : FS) "logs" = ∅ /\
  "2026-02-01" ∈ marked /\ "2026-02-02" ∈ marked /\ "2026-02-03" ∉ marked.
Proof.
  split; [reflexivity|].
  repeat split; apply (bool_decide_unpack _); vm_compute; exact I.
Qed.

Example searchLogs_limit :
  option_map (@length _)
    (match searchLogs codeUnitCompare parseEntryLine findmeFs "logs" "findme"
                      None None 3 with
     | inr results => Some results
     | inl _ => None
     end) = Some 3%nat.
Proof. vm_compute. reflexivity. Qed.

End TestSuite.

